(** * Turn resolution on a tile grid: entities, maps and actions

    A shallow embedding of [entity.py], [game_map.py] and [actions.py].

    Python objects live in one store, addressed by identity.  An attribute
    that holds an object holds its address, so two attributes naming the same
    object alias each other as they do in Python.  A method that can raise
    returns a [result]; a method that mutates objects threads the [World]. *)

From Stdlib Require Import ZArith String Bool Lia Sorted.
From stdpp Require Import base option list relations.

Open Scope string_scope.
Open Scope Z_scope.
Open Scope list_scope.

(** ** Exceptions and the two monads *)

Inductive Exn :=
| AttributeError
| KeyError
| IndexError
| ValueError
| RecursionError
| NotImplementedError
| SystemExit.

Inductive result (A : Type) :=
| Ok (a : A)
| Raise (e : Exn).
Arguments Ok {A} a.
Arguments Raise {A} e.

#[global] Instance result_ret : MRet result := fun A a => Ok a.
#[global] Instance result_bind : MBind result := fun A B k r =>
  match r with
  | Ok a => k a
  | Raise e => Raise e
  end.

#[global] Instance result_fmap : FMap result := fun A B f r =>
  match r with
  | Ok a => Ok (f a)
  | Raise e => Raise e
  end.

(** [SystemExit] derives from [BaseException] only: an [except Exception]
    handler does not catch it. *)
Definition recoverable (e : Exn) : bool :=
  match e with
  | SystemExit => false
  | _ => true
  end.

(** ** The object store *)

(** An address in the store. *)
Abbreviation Addr := nat (only parsing).
Definition Colour := (Z * Z * Z)%type.

(** [render_order.RenderOrder]: the members [entity.py] names. *)
Inductive RenderOrder := CORPSE | ITEM | ACTOR.

(** The class of an entity instance with the attributes the subclass adds:
    [Actor] adds [ai] (optional), [fighter] and [inventory]; [Item] adds
    [consumable]. *)
Inductive EntityClass :=
| ClsEntity
| ClsActor (ai : option Addr) (fighter inventory : Addr)
| ClsItem (consumable : Addr).

(** An instance of [Entity] or a subclass.  [ent_parent] is [None] while the
    instance attribute [parent] has not been assigned ([hasattr] is false). *)
Record Entity := mkEntity {
  ent_name : string;
  ent_char : string;
  ent_colour : Colour;
  ent_x : Z;
  ent_y : Z;
  ent_blocks_movement : bool;
  ent_render_order : RenderOrder;
  ent_parent : option Addr;
  ent_cls : EntityClass
}.

(** The component classes ([BaseAI], [Fighter], [Inventory], [Consumable])
    are imported for type checking only.  What [entity.py] does with an
    instance is assign its back-reference ([parent]); the other objects it
    refers to (an inventory's items) and its plain data are kept so that a
    deep copy has something to copy. *)
Inductive ComponentClass := ClsAI | ClsFighter | ClsInventory | ClsConsumable.

Record Component := mkComponent {
  comp_cls : ComponentClass;
  comp_parent : option Addr;
  comp_refs : list Addr;
  comp_data : list Z
}.

(** One cell of [GameMap.tiles]: the fields [game_map.py] and [actions.py]
    index by name. *)
Record Tile := mkTile {
  walkable : bool;
  lit : Colour;
  unlit : Colour
}.

(** [GameMap].  [gm_entities] lists the members of the [entities] set in the
    order in which the set iterates; a member occurs once. The three grids
    are indexed [[x, y]]: a list of [width] columns of [height] cells. *)
Record GameMap := mkGameMap {
  gm_engine : Addr;
  gm_width : Z;
  gm_height : Z;
  gm_entities : list Addr;
  gm_tiles : list (list Tile);
  gm_visible : list (list bool);
  gm_explored : list (list bool)
}.

(** [Engine] is not part of these files; [actions.py] reads its [game_map]
    attribute, which is unset until a map has been made for the engine. *)
Record Engine := mkEngine {
  eng_game_map : option Addr
}.

Inductive Obj :=
| OEntity (e : Entity)
| OComponent (c : Component)
| OGameMap (m : GameMap)
| OEngine (g : Engine).

(** The world: the store, where an address is an index, and the lines
    printed so far. *)
Record World := mkWorld {
  heap : list Obj;
  stdout : list string
}.

Definition set_heap (h : list Obj) (w : World) : World :=
  {| heap := h; stdout := stdout w |}.

Definition store (a : Addr) (o : Obj) (w : World) : World :=
  set_heap (<[a := o]> (heap w)) w.

(** State and exceptions: a raise keeps the mutations made before it. *)
Definition M (A : Type) : Type := World → result A * World.

#[global] Instance M_ret : MRet M := fun A a w => (Ok a, w).
#[global] Instance M_bind : MBind M := fun A B k m w =>
  match m w with
  | (Ok a, w') => k a w'
  | (Raise e, w') => (Raise e, w')
  end.

Definition raise {A} (e : Exn) : M A := fun w => (Raise e, w).
Definition read {A} (f : World → result A) : M A := fun w => (f w, w).
Definition modify (f : World → World) : M unit := fun w => (Ok tt, f w).

(** The world a computation leaves behind. *)
Definition exec {A} (m : M A) (w : World) : World := (m w).2.

(** Allocation returns the address of the new object. *)
Definition alloc (o : Obj) : M Addr :=
  fun w => (Ok (length (heap w)), set_heap (heap w ++ [o]) w).

(** ** Typed access to the store

    Reading an attribute of an object whose class does not define it raises
    [AttributeError]; so does reading through an address that holds nothing. *)

Definition get_entity (w : World) (a : Addr) : result Entity :=
  match heap w !! a with
  | Some (OEntity e) => Ok e
  | _ => Raise AttributeError
  end.

Definition get_map (w : World) (a : Addr) : result GameMap :=
  match heap w !! a with
  | Some (OGameMap m) => Ok m
  | _ => Raise AttributeError
  end.

Definition get_engine (w : World) (a : Addr) : result Engine :=
  match heap w !! a with
  | Some (OEngine g) => Ok g
  | _ => Raise AttributeError
  end.

Definition get_component (w : World) (a : Addr) : result Component :=
  match heap w !! a with
  | Some (OComponent c) => Ok c
  | _ => Raise AttributeError
  end.

Definition set_x (v : Z) (e : Entity) : Entity :=
  mkEntity (ent_name e) (ent_char e) (ent_colour e) v (ent_y e)
           (ent_blocks_movement e) (ent_render_order e) (ent_parent e) (ent_cls e).

Definition set_y (v : Z) (e : Entity) : Entity :=
  mkEntity (ent_name e) (ent_char e) (ent_colour e) (ent_x e) v
           (ent_blocks_movement e) (ent_render_order e) (ent_parent e) (ent_cls e).

Definition set_parent (p : Addr) (e : Entity) : Entity :=
  mkEntity (ent_name e) (ent_char e) (ent_colour e) (ent_x e) (ent_y e)
           (ent_blocks_movement e) (ent_render_order e) (Some p) (ent_cls e).

Definition set_cls (c : EntityClass) (e : Entity) : Entity :=
  mkEntity (ent_name e) (ent_char e) (ent_colour e) (ent_x e) (ent_y e)
           (ent_blocks_movement e) (ent_render_order e) (ent_parent e) c.

Definition set_entities (l : list Addr) (m : GameMap) : GameMap :=
  mkGameMap (gm_engine m) (gm_width m) (gm_height m) l
            (gm_tiles m) (gm_visible m) (gm_explored m).

Definition set_comp_parent (p : Addr) (c : Component) : Component :=
  mkComponent (comp_cls c) (Some p) (comp_refs c) (comp_data c).

(** [obj.attr = v] on an entity: the object at [a] is replaced by [f] of it. *)
Definition update_entity (a : Addr) (f : Entity → Entity) : M unit :=
  e ← read (λ w, get_entity w a);
  modify (store a (OEntity (f e))).

Definition update_map (a : Addr) (f : GameMap → GameMap) : M unit :=
  m ← read (λ w, get_map w a);
  modify (store a (OGameMap (f m))).

Definition update_component (a : Addr) (f : Component → Component) : M unit :=
  c ← read (λ w, get_component w a);
  modify (store a (OComponent (f c))).

(** ** Python's [set] of objects, in iteration order *)

Definition mem (a : Addr) (l : list Addr) : bool := bool_decide (a ∈ l).

(** [s.add(a)].  Python does not fix the place a new member takes in the
    iteration; here it comes last.  The statements below are about
    membership, or hold for every order. *)
Definition set_add (a : Addr) (l : list Addr) : list Addr :=
  if mem a l then l else l ++ [a].

(** [s.remove(a)]: [KeyError] when [a] is not a member. *)
Definition set_remove (a : Addr) (l : list Addr) : result (list Addr) :=
  if mem a l then Ok (filter (λ b, b ≠ a) l) else Raise KeyError.

(** [set(iterable)] *)
Definition set_of (l : list Addr) : list Addr := foldl (λ s a, set_add a s) [] l.

(** ** game_map.py *)

(** [numpy] indexing along one axis: a negative index counts from the end,
    an index outside the axis raises [IndexError]. *)
Definition np_index {A} (l : list A) (i : Z) : result A :=
  let n := Z.of_nat (length l) in
  let j := if i <? 0 then i + n else i in
  if (0 <=? j) && (j <? n)
  then match l !! Z.to_nat j with
       | Some v => Ok v
       | None => Raise IndexError
       end
  else Raise IndexError.

(** [grid[x, y]] *)
Definition grid_at {A} (g : list (list A)) (x y : Z) : result A :=
  col ← np_index g x; np_index col y.

(** [numpy.full((width, height), fill_value)]: [ValueError] on a negative
    dimension. *)
Definition np_full {A} (width height : Z) (fill : A) : result (list (list A)) :=
  if (width <? 0) || (height <? 0) then Raise ValueError
  else Ok (replicate (Z.to_nat width) (replicate (Z.to_nat height) fill)).

(** [GameMap.__init__].  [wall] is the value of [tile_types.wall], a table
    that is not part of these files. The engine's [game_map] attribute is
    assigned by the caller, not here. *)
Definition GameMap_init (wall : Tile) (engine : Addr) (width height : Z)
    (entities : list Addr) : M Addr :=
  tiles ← read (λ _, np_full width height wall);
  visible ← read (λ _, np_full width height false);
  explored ← read (λ _, np_full width height false);
  alloc (OGameMap (mkGameMap engine width height (set_of entities)
                             tiles visible explored)).

(** [GameMap.in_bounds] *)
Definition in_bounds (w : World) (self : Addr) (x y : Z) : result bool :=
  m ← get_map w self;
  mret ((0 <=? x) && (x <? gm_width m) && ((0 <=? y) && (y <? gm_height m))).

(** [isinstance(entity, Actor)], for any object in the set. *)
Definition is_actor (e : Entity) : bool :=
  match ent_cls e with
  | ClsActor _ _ _ => true
  | _ => false
  end.

Definition is_item (e : Entity) : bool :=
  match ent_cls e with
  | ClsItem _ => true
  | _ => false
  end.

(** [Actor.is_alive]: [bool(self.ai)]; an AI object is truthy, [None] is
    not.  Only actors have the property. *)
Definition is_alive (e : Entity) : bool :=
  match ent_cls e with
  | ClsActor (Some _) _ _ => true
  | _ => false
  end.

(** The condition of the generator in [GameMap.actors]. *)
Definition living_actor (w : World) (a : Addr) : bool :=
  match get_entity w a with
  | Ok e => is_actor e && is_alive e
  | Raise _ => false
  end.

(** [GameMap.actors]: the members the generator yields, in iteration order. *)
Definition actors (w : World) (self : Addr) : result (list Addr) :=
  m ← get_map w self;
  mret (List.filter (living_actor w) (gm_entities m)).

(** The loop of [get_actor_at_location] over what [actors] yields. *)
Fixpoint actor_scan (w : World) (l : list Addr) (x y : Z) : result (option Addr) :=
  match l with
  | [] => Ok None
  | a :: l' =>
      e ← get_entity w a;
      if (ent_x e =? x) && (ent_y e =? y)
      then if is_alive e then Ok (Some a) else Ok None
      else actor_scan w l' x y
  end.

(** [GameMap.get_actor_at_location] *)
Definition get_actor_at_location (w : World) (self : Addr) (x y : Z)
    : result (option Addr) :=
  l ← actors w self; actor_scan w l x y.

(** The condition of the generator in [GameMap.items]. *)
Definition item_member (w : World) (a : Addr) : bool :=
  match get_entity w a with
  | Ok e => is_item e
  | Raise _ => false
  end.

(** [GameMap.items] *)
Definition items (w : World) (self : Addr) : result (list Addr) :=
  m ← get_map w self;
  mret (List.filter (item_member w) (gm_entities m)).

Fixpoint item_scan (w : World) (l : list Addr) (x y : Z) : result (list Addr) :=
  match l with
  | [] => Ok []
  | a :: l' =>
      e ← get_entity w a;
      rest ← item_scan w l' x y;
      mret (if (ent_x e =? x) && (ent_y e =? y) then a :: rest else rest)
  end.

(** [GameMap.get_items_at_location] *)
Definition get_items_at_location (w : World) (self : Addr) (x y : Z)
    : result (list Addr) :=
  l ← items w self; item_scan w l x y.

(** The loop of [get_blocking_entity_at_location] over the entity set. *)
Fixpoint blocking_scan (w : World) (l : list Addr) (x y : Z) : result (option Addr) :=
  match l with
  | [] => Ok None
  | a :: l' =>
      e ← get_entity w a;
      if ent_blocks_movement e && (ent_x e =? x) && (ent_y e =? y)
      then Ok (Some a)
      else blocking_scan w l' x y
  end.

(** [GameMap.get_blocking_entity_at_location] *)
Definition get_blocking_entity_at_location (w : World) (self : Addr) (x y : Z)
    : result (option Addr) :=
  m ← get_map w self; blocking_scan w (gm_entities m) x y.

(** ** Attribute lookup

    [x.gamemap] is a property of three classes and resolves along the chain
    of owners, one call frame per link. *)

Definition recursion_limit : nat := 1000.

(** Modelled from the spec: the component classes are not part of these
    files; a component holds a back-reference to its owning entity, which it
    uses to find its map.  [AttributeError] while the back-reference is
    unassigned. *)
Definition component_owner (c : Component) : result Addr :=
  match comp_parent c with
  | Some p => Ok p
  | None => Raise AttributeError
  end.

(** [obj.gamemap]: [GameMap.gamemap] returns [self], [Entity.gamemap] returns
    [self.parent.gamemap], a component asks its owner; an engine has no such
    attribute. *)
Fixpoint gamemap_of (fuel : nat) (w : World) (a : Addr) : result Addr :=
  match fuel with
  | O => Raise RecursionError
  | S fuel' =>
      match heap w !! a with
      | Some (OGameMap _) => Ok a
      | Some (OEntity e) =>
          match ent_parent e with
          | Some p => gamemap_of fuel' w p
          | None => Raise AttributeError
          end
      | Some (OComponent c) => p ← component_owner c; gamemap_of fuel' w p
      | _ => Raise AttributeError
      end
  end.

(** The values attributes hold. *)
Inductive Value :=
| VInt (n : Z)
| VBool (b : bool)
| VStr (s : string)
| VColour (c : Colour)
| VOrder (r : RenderOrder)
| VNone
| VObj (a : Addr)
| VSet (l : list Addr)
| VTiles (t : list (list Tile))
| VGrid (g : list (list bool))
| VMethod (self : Addr) (name : string).

(** What an instance answers to: the attributes its [__init__] assigns, the
    ones assigned later, and the properties and methods of its class.  For
    the classes outside these files, the attributes these files use. *)
Definition attributes (w : World) (a : Addr) (o : Obj) : list (string * result Value) :=
  match o with
  | OEntity e =>
      [ ("name", Ok (VStr (ent_name e)));
        ("char", Ok (VStr (ent_char e)));
        ("colour", Ok (VColour (ent_colour e)));
        ("x", Ok (VInt (ent_x e)));
        ("y", Ok (VInt (ent_y e)));
        ("blocks_movement", Ok (VBool (ent_blocks_movement e)));
        ("render_order", Ok (VOrder (ent_render_order e)));
        ("parent", match ent_parent e with
                   | Some p => Ok (VObj p)
                   | None => Raise AttributeError
                   end);
        ("gamemap", VObj <$> gamemap_of recursion_limit w a);
        ("spawn", Ok (VMethod a "spawn"));
        ("place", Ok (VMethod a "place"));
        ("distance", Ok (VMethod a "distance"));
        ("move", Ok (VMethod a "move")) ]
      ++ match ent_cls e with
         | ClsEntity => []
         | ClsActor ai fighter inventory =>
             [ ("ai", Ok (from_option VObj VNone ai));
               ("fighter", Ok (VObj fighter));
               ("inventory", Ok (VObj inventory));
               ("is_alive", Ok (VBool (is_alive e))) ]
         | ClsItem consumable => [ ("consumable", Ok (VObj consumable)) ]
         end
  | OGameMap m =>
      [ ("engine", Ok (VObj (gm_engine m)));
        ("width", Ok (VInt (gm_width m)));
        ("height", Ok (VInt (gm_height m)));
        ("entities", Ok (VSet (gm_entities m)));
        ("tiles", Ok (VTiles (gm_tiles m)));
        ("visible", Ok (VGrid (gm_visible m)));
        ("explored", Ok (VGrid (gm_explored m)));
        ("gamemap", Ok (VObj a));
        ("actors", VSet <$> actors w a);
        ("items", VSet <$> items w a);
        ("in_bounds", Ok (VMethod a "in_bounds"));
        ("get_actor_at_location", Ok (VMethod a "get_actor_at_location"));
        ("get_items_at_location", Ok (VMethod a "get_items_at_location"));
        ("get_blocking_entity_at_location",
           Ok (VMethod a "get_blocking_entity_at_location"));
        ("render", Ok (VMethod a "render")) ]
  | OEngine g =>
      [ ("game_map", match eng_game_map g with
                     | Some m => Ok (VObj m)
                     | None => Raise AttributeError
                     end) ]
  | OComponent c =>
      [ ("parent", VObj <$> component_owner c);
        ("gamemap", VObj <$> gamemap_of recursion_limit w a) ]
  end.

Fixpoint assoc {A} (name : string) (l : list (string * A)) : option A :=
  match l with
  | [] => None
  | (k, v) :: l' => if String.eqb k name then Some v else assoc name l'
  end.

(** [getattr(obj, name)] *)
Definition getattr (w : World) (a : Addr) (name : string) : result Value :=
  match heap w !! a with
  | Some o =>
      match assoc name (attributes w a o) with
      | Some v => v
      | None => Raise AttributeError
      end
  | None => Raise AttributeError
  end.

(** [hasattr(obj, name)]: false on [AttributeError] and on nothing else. *)
Definition hasattr (w : World) (a : Addr) (name : string) : result bool :=
  match getattr w a name with
  | Ok _ => Ok true
  | Raise AttributeError => Ok false
  | Raise e => Raise e
  end.

(** [obj.name] where the value is used as an object: [None] and plain data
    have none of the attributes asked of it next. *)
Definition attr_obj (w : World) (a : Addr) (name : string) : result Addr :=
  v ← getattr w a name;
  match v with
  | VObj b => Ok b
  | _ => Raise AttributeError
  end.

(** ** [copy.deepcopy]

    A deep copy allocates one new object for every object that can be
    reached from the root, and in the copies every reference to a reached
    object is a reference to that object's copy (the memo).  Numbers,
    strings, tuples of numbers and enumeration members are copied as
    themselves. *)

Definition option_refs (o : option Addr) : list Addr :=
  match o with
  | Some a => [a]
  | None => []
  end.

(** The component objects of an entity, by its class. *)
Definition components (c : EntityClass) : list Addr :=
  match c with
  | ClsEntity => []
  | ClsActor ai fighter inventory => option_refs ai ++ [fighter; inventory]
  | ClsItem consumable => [consumable]
  end.

(** The objects an object refers to. *)
Definition refs (o : Obj) : list Addr :=
  match o with
  | OEntity e => option_refs (ent_parent e) ++ components (ent_cls e)
  | OComponent c => option_refs (comp_parent c) ++ comp_refs c
  | OGameMap m => gm_engine m :: gm_entities m
  | OEngine g => option_refs (eng_game_map g)
  end.

Definition rename_cls (f : Addr → Addr) (c : EntityClass) : EntityClass :=
  match c with
  | ClsEntity => ClsEntity
  | ClsActor ai fighter inventory => ClsActor (f <$> ai) (f fighter) (f inventory)
  | ClsItem consumable => ClsItem (f consumable)
  end.

Definition rename_entity (f : Addr → Addr) (e : Entity) : Entity :=
  mkEntity (ent_name e) (ent_char e) (ent_colour e) (ent_x e) (ent_y e)
           (ent_blocks_movement e) (ent_render_order e) (f <$> ent_parent e)
           (rename_cls f (ent_cls e)).

(** The same object with every reference sent through [f]. *)
Definition rename (f : Addr → Addr) (o : Obj) : Obj :=
  match o with
  | OEntity e => OEntity (rename_entity f e)
  | OComponent c =>
      OComponent (mkComponent (comp_cls c) (f <$> comp_parent c)
                              (f <$> comp_refs c) (comp_data c))
  | OGameMap m =>
      OGameMap (mkGameMap (f (gm_engine m)) (gm_width m) (gm_height m)
                          (f <$> gm_entities m)
                          (gm_tiles m) (gm_visible m) (gm_explored m))
  | OEngine g => OEngine (mkEngine (f <$> eng_game_map g))
  end.

Definition refs_at (h : list Obj) (a : Addr) : list Addr :=
  match h !! a with
  | Some o => refs o
  | None => []
  end.

(** The objects one reference away from [R] that are not in [R] yet. *)
Definition frontier (h : list Obj) (R : list Addr) : list Addr :=
  remove_dups (filter (λ a, (a ∉ R) ∧ (a < length h)%nat) (R ≫= refs_at h)).

Definition grow (h : list Obj) (R : list Addr) : list Addr := R ++ frontier h R.

(** Everything reachable from [root], [root] first.  One round adds at least
    one object or none ever after, so as many rounds as there are objects
    reach them all. *)
Definition reachable_from (h : list Obj) (root : Addr) : list Addr :=
  Nat.iter (length h) (grow h) [root].

(** The memo: the [i]-th reached object is copied to [base + i]. *)
Definition memo (R : list Addr) (base : nat) (a : Addr) : Addr :=
  match list_find (λ b, b = a) R with
  | Some (i, _) => (base + i)%nat
  | None => a
  end.

Definition copies (h : list Obj) (R : list Addr) : list Obj :=
  omap (λ a, rename (memo R (length h)) <$> h !! a) R.

(** [copy.deepcopy(root)] *)
Definition deepcopy (root : Addr) : M Addr := λ w,
  match heap w !! root with
  | Some _ =>
      let R := reachable_from (heap w) root in
      (Ok (memo R (length (heap w)) root),
       set_heap (heap w ++ copies (heap w) R) w)
  | None => (Raise AttributeError, w)
  end.

(** ** entity.py *)

(** [Entity.__init__], for an instance of class [cls]. *)
Definition Entity_init (cls : EntityClass) (name char : string) (colour : Colour)
    (x y : Z) (blocks_movement : bool) (parent : option Addr)
    (render_order : RenderOrder) : M Addr :=
  self ← alloc (OEntity (mkEntity name char colour x y blocks_movement
                                  render_order None cls));
  match parent with
  | Some p =>
      update_entity self (set_parent p);;
      update_map p (λ m, set_entities (set_add self (gm_entities m)) m);;
      mret self
  | None => mret self
  end.

(** [Entity.gamemap] *)
Definition Entity_gamemap (w : World) (self : Addr) : result Addr :=
  gamemap_of recursion_limit w self.

(** [Entity.spawn] *)
Definition spawn (self gamemap : Addr) (x y : Z) : M Addr :=
  clone ← deepcopy self;
  update_entity clone (set_x x);;
  update_entity clone (set_y y);;
  update_entity clone (set_parent gamemap);;
  update_map gamemap (λ m, set_entities (set_add clone (gm_entities m)) m);;
  mret clone.

(** [self.gamemap.entities.remove(self)] *)
Definition remove_from_gamemap (self : Addr) : M unit :=
  gm ← read (λ w, Entity_gamemap w self);
  m ← read (λ w, get_map w gm);
  l ← read (λ _, set_remove self (gm_entities m));
  modify (store gm (OGameMap (set_entities l m))).

(** [Entity.place]; [gamemap] is [None] when the argument is left out. *)
Definition place (self : Addr) (x y : Z) (gamemap : option Addr) : M unit :=
  update_entity self (set_x x);;
  update_entity self (set_y y);;
  match gamemap with
  | Some g =>
      has ← read (λ w, hasattr w self "parent");
      (if (has : bool)
       then
         p ← read (λ w, attr_obj w self "parent");
         gm ← read (λ w, Entity_gamemap w self);
         if Nat.eqb p gm then remove_from_gamemap self else mret tt
       else mret tt);;
      update_entity self (set_parent g);;
      update_map g (λ m, set_entities (set_add self (gm_entities m)) m)
  | None => mret tt
  end.

(** [Entity.move] *)
Definition move (self : Addr) (dx dy : Z) : M unit :=
  update_entity self (λ e, set_x (ent_x e + dx) e);;
  update_entity self (λ e, set_y (ent_y e + dy) e).

(** [Actor.__init__].  [ai_cls] is the AI class: called with the actor, it
    gives the new AI object.  [fighter] and [inventory] are component
    objects made by the caller. *)
Definition Actor_init (x y : Z) (char : string) (colour : Colour) (name : string)
    (ai_cls : Addr → Component) (fighter inventory : Addr) : M Addr :=
  self ← Entity_init (ClsActor None fighter inventory) name char colour x y
                     true None ACTOR;
  ai ← alloc (OComponent (ai_cls self));
  update_entity self (set_cls (ClsActor (Some ai) fighter inventory));;
  update_component fighter (set_comp_parent self);;
  update_component inventory (set_comp_parent self);;
  mret self.

(** [Item.__init__] *)
Definition Item_init (x y : Z) (char : string) (colour : Colour) (name : string)
    (consumable : Addr) : M Addr :=
  self ← Entity_init (ClsItem consumable) name char colour x y false None ITEM;
  update_component consumable (set_comp_parent self);;
  mret self.

(** ** actions.py *)

(** [Action.engine]: [self.entity.game_map.engine].  The attribute asked of
    the entity is [game_map]; see [attributes] for what an entity has. *)
Definition Action_engine (w : World) (entity : Addr) : result Addr :=
  gm ← attr_obj w entity "game_map"; attr_obj w gm "engine".

(** The same chain through the property that [Entity] defines,
    [entity.gamemap.engine]. *)
Definition engine_through_gamemap (w : World) (entity : Addr) : result Addr :=
  gm ← attr_obj w entity "gamemap"; attr_obj w gm "engine".

Section ActionModel.

(** The [engine] property: every action reaches the map through it and
    through nothing else. *)
Variable engine : World → Addr → result Addr.

(** [self.engine.game_map] *)
Definition engine_game_map (w : World) (entity : Addr) : result Addr :=
  eng ← engine w entity; attr_obj w eng "game_map".

(** [ActionWithDirection.dest_xy] *)
Definition dest_xy (w : World) (entity : Addr) (dx dy : Z) : result (Z * Z) :=
  e ← get_entity w entity; mret (ent_x e + dx, ent_y e + dy).

(** [ActionWithDirection.blocking_entity] *)
Definition blocking_entity (w : World) (entity : Addr) (dx dy : Z)
    : result (option Addr) :=
  gm ← engine_game_map w entity;
  d ← dest_xy w entity dx dy;
  get_blocking_entity_at_location w gm d.1 d.2.

(** [EscapeAction.perform] *)
Definition EscapeAction_perform (entity : Addr) : M unit := raise SystemExit.

(** [MovementAction.perform] *)
Definition MovementAction_perform (entity : Addr) (dx dy : Z) : M unit :=
  d ← read (λ w, dest_xy w entity dx dy);
  gm ← read (λ w, engine_game_map w entity);
  inside ← read (λ w, in_bounds w gm d.1 d.2);
  if negb inside then mret tt else
  gm ← read (λ w, engine_game_map w entity);
  m ← read (λ w, get_map w gm);
  tile ← read (λ _, grid_at (gm_tiles m) d.1 d.2);
  if negb (walkable tile) then mret tt else
  gm ← read (λ w, engine_game_map w entity);
  blocker ← read (λ w, get_blocking_entity_at_location w gm d.1 d.2);
  match blocker with
  | Some _ => mret tt
  | None => move entity dx dy
  end.

(** [print(...)] *)
Definition print (line : string) : M unit :=
  modify (λ w, {| heap := heap w; stdout := stdout w ++ [line] |}).

(** [MeléeAction.perform] *)
Definition MeleeAction_perform (entity : Addr) (dx dy : Z) : M unit :=
  target ← read (λ w, blocking_entity w entity dx dy);
  match target with
  | None => mret tt
  | Some t =>
      e ← read (λ w, get_entity w t);
      print ("You kick the " ++ ent_name e ++ ", much to its annoyance!")%string
  end.

(** [BumpAction.perform] *)
Definition BumpAction_perform (entity : Addr) (dx dy : Z) : M unit :=
  blocker ← read (λ w, blocking_entity w entity dx dy);
  match blocker with
  | Some _ => MeleeAction_perform entity dx dy
  | None => MovementAction_perform entity dx dy
  end.

End ActionModel.

(** The action classes; the first two are the abstract bases. *)
Inductive Action :=
| BaseAction (entity : Addr)
| ActionWithDirection (entity : Addr) (dx dy : Z)
| EscapeAction (entity : Addr)
| MovementAction (entity : Addr) (dx dy : Z)
| MeleeAction (entity : Addr) (dx dy : Z)
| BumpAction (entity : Addr) (dx dy : Z).

(** [action.perform()], by the class of the action, for a given [engine]
    property. *)
Definition perform_via (engine : World → Addr → result Addr) (a : Action) : M unit :=
  match a with
  | BaseAction _ => raise NotImplementedError
  | ActionWithDirection _ _ _ => raise NotImplementedError
  | EscapeAction entity => EscapeAction_perform entity
  | MovementAction entity dx dy => MovementAction_perform engine entity dx dy
  | MeleeAction entity dx dy => MeleeAction_perform engine entity dx dy
  | BumpAction entity dx dy => BumpAction_perform engine entity dx dy
  end.

(** [action.perform()] with the [engine] property of [Action]. *)
Definition perform (a : Action) : M unit := perform_via Action_engine a.

(** ** Predicates of the statements *)

(** A living actor stands at [(x, y)]. *)
Definition living_at (w : World) (x y : Z) (a : Addr) : bool :=
  match get_entity w a with
  | Ok e => is_actor e && is_alive e && (ent_x e =? x) && (ent_y e =? y)
  | Raise _ => false
  end.

(** An actor, living or dead, stands at [(x, y)]. *)
Definition actor_at (w : World) (x y : Z) (a : Addr) : bool :=
  match get_entity w a with
  | Ok e => is_actor e && (ent_x e =? x) && (ent_y e =? y)
  | Raise _ => false
  end.

(** A dead actor (its AI handle is [None]) stands at [(x, y)]. *)
Definition dead_at (w : World) (x y : Z) (a : Addr) : bool :=
  match get_entity w a with
  | Ok e => is_actor e && negb (is_alive e) && (ent_x e =? x) && (ent_y e =? y)
  | Raise _ => false
  end.

(** [(entity.x, entity.y)] *)
Definition position (w : World) (a : Addr) : result (Z * Z) :=
  e ← get_entity w a; mret (ent_x e, ent_y e).

(** [gm.tiles["walkable"][x, y]] *)
Definition tile_walkable (w : World) (gm : Addr) (x y : Z) : result bool :=
  m ← get_map w gm; tile ← grid_at (gm_tiles m) x y; mret (walkable tile).

(** The entity set of the map at [gm] iterates in the order [order]. *)
Definition reorder (w : World) (gm : Addr) (order : list Addr) : World :=
  match get_map w gm with
  | Ok m => store gm (OGameMap (set_entities order m)) w
  | Raise _ => w
  end.

(** The iteration [order] comes to [d] before it comes to [l]. *)
Definition encountered_before (d l : Addr) (order : list Addr) : Prop :=
  ∃ l1 l2, order = l1 ++ d :: l2 ∧ (l ∉ l1) ∧ (l ∈ l2).

(** ** The statements of [place], [spawn] and [Actor.__init__], named *)

(** The store after [self.x = x; self.y = y]. *)
Definition positioned (self : Addr) (x y : Z) (e : Entity) (w : World) : World :=
  store self (OEntity (set_y y (set_x x e))) (store self (OEntity (set_x x e)) w).

(** The last two statements of [place]:
    [self.parent = gamemap; gamemap.entities.add(self)]. *)
Definition adopt (self gm : Addr) : M unit :=
  update_entity self (set_parent gm);;
  update_map gm (λ m, set_entities (set_add self (gm_entities m)) m).

(** The actor as [Actor.__init__] leaves it: the flag set and the render
    order [ACTOR] whatever the arguments. *)
Definition constructed_actor (x y : Z) (char : string) (colour : Colour) (name : string)
    (ai fighter inventory : Addr) : Entity :=
  mkEntity name char colour x y true ACTOR None (ClsActor (Some ai) fighter inventory).

(** The store after the first three statements of [Actor.__init__]: the new
    actor at [n], its AI object at [n + 1]. *)
Definition actor_allocated (x y : Z) (char : string) (colour : Colour) (name : string)
    (ai_cls : Addr → Component) (fighter inventory : Addr) (w : World) : World :=
  let n := length (heap w) in
  set_heap (heap w ++ [OEntity (constructed_actor x y char colour name (S n) fighter inventory);
                       OComponent (ai_cls n)]) w.

(** [R] is closed: every allocated object that a member refers to is a
    member. *)
Definition closed (h : list Obj) (R : list Addr) : Prop :=
  ∀ a b, a ∈ R → b ∈ refs_at h a → (b < length h)%nat → b ∈ R.

(** ** Scenes

    Worlds built with the constructors above, from the empty store.  The
    objects of classes outside these files are made by the steps below. *)

Definition empty_world : World := mkWorld [] [].

(** [Engine(...)], before a map has been made for it. *)
Definition new_engine : M Addr := alloc (OEngine (mkEngine None)).

(** [engine.game_map = gm] *)
Definition set_engine_game_map (eng gm : Addr) : M unit :=
  _ ← read (λ w, get_engine w eng);
  modify (store eng (OEngine (mkEngine (Some gm)))).

(** A component object as its class makes it: no owner yet. *)
Definition new_component (cls : ComponentClass) (data : list Z) : M Addr :=
  alloc (OComponent (mkComponent cls None [] data)).

(** An AI class: the new AI object refers to its actor. *)
Definition base_ai (self : Addr) : Component := mkComponent ClsAI (Some self) [] [].

(** [actor.ai = None], the assignment that marks an actor dead. *)
Definition clear_ai (a : Addr) : M unit :=
  update_entity a (λ e, match ent_cls e with
                        | ClsActor _ fighter inventory =>
                            set_cls (ClsActor None fighter inventory) e
                        | _ => e
                        end).

Definition wall_tile : Tile := mkTile false (130, 110, 50) (0, 0, 100).
Definition floor_tile : Tile := mkTile true (200, 180, 50) (50, 50, 150).

(** [gm.tiles[:] = tile]: the whole grid is floor after this. *)
Definition fill_tiles (gm : Addr) (tile : Tile) : M unit :=
  update_map gm (λ m, mkGameMap (gm_engine m) (gm_width m) (gm_height m)
                         (gm_entities m)
                         (replicate (Z.to_nat (gm_width m))
                                    (replicate (Z.to_nat (gm_height m)) tile))
                         (gm_visible m) (gm_explored m)).

(** An actor with a fresh fighter and inventory. *)
Definition new_actor (name : string) : M Addr :=
  fighter ← new_component ClsFighter [30; 2; 5];
  inventory ← new_component ClsInventory [26];
  Actor_init 0 0 "@" (255, 255, 255) name base_ai fighter inventory.

(** A map of [width] by [height] floor tiles with its engine. *)
Definition open_map (width height : Z) : M Addr :=
  eng ← new_engine;
  gm ← GameMap_init wall_tile eng width height [];
  set_engine_game_map eng gm;;
  fill_tiles gm floor_tile;;
  mret gm.

(** A 10 by 10 map of floor tiles, actor A placed at (5, 5), nothing else. *)
Definition scene_open_field : M (Addr * Addr) :=
  gm ← open_map 10 10;
  a ← new_actor "Player";
  place a 5 5 (Some gm);;
  mret (gm, a).

(** Cell (1, 1) holds a dead actor and a living one, and the entity set
    iterates to the dead one first; cell (2, 2) holds a dead actor alone. *)
Definition scene_shared_cell : M (Addr * Addr * Addr * Addr) :=
  gm ← open_map 3 3;
  d ← new_actor "Orc";
  l ← new_actor "Troll";
  c ← new_actor "Rat";
  place d 1 1 (Some gm);;
  place l 1 1 (Some gm);;
  place c 2 2 (Some gm);;
  clear_ai d;;
  clear_ai c;;
  mret (gm, d, l, c).

(** An entity made without a parent is handed to a first map through the
    [entities] argument of [GameMap]; a second map is empty; a second entity
    is made with the first map as its parent. *)
Definition scene_two_maps : M (Addr * Addr * Addr * Addr) :=
  eng ← new_engine;
  e ← Entity_init ClsEntity "Stairs" ">" (255, 255, 255) 0 0 false None CORPSE;
  m1 ← GameMap_init wall_tile eng 3 3 [e];
  m2 ← GameMap_init wall_tile eng 3 3 [];
  c ← Entity_init ClsEntity "Chest" "=" (255, 255, 255) 2 2 true (Some m1) CORPSE;
  mret (e, m1, m2, c).

(** The worlds of the scenes. *)
Definition open_field_world : World :=
  Eval vm_compute in exec scene_open_field empty_world.
Definition shared_cell_world : World :=
  Eval vm_compute in exec scene_shared_cell empty_world.
Definition two_maps_world : World :=
  Eval vm_compute in exec scene_two_maps empty_world.

(** ** Two readings that the code does not bear out *)

(** The reading under which a dead actor ends the scan: some map holds a
    dead and a living actor on one cell, and every iteration order that
    comes to the dead one first makes [get_actor_at_location] return
    [None]. *)
Definition dead_actor_ends_scan : Prop :=
  ∃ w gm m x y d l,
    get_map w gm = Ok m ∧ NoDup (gm_entities m) ∧
    d ∈ gm_entities m ∧ l ∈ gm_entities m ∧
    dead_at w x y d = true ∧ living_at w x y l = true ∧
    ∀ order, order ≡ₚ gm_entities m → encountered_before d l order →
      get_actor_at_location (reorder w gm order) gm x y = Ok None.

(** The reading under which [place] keeps an entity in exactly one entity
    set whatever its owner attribute says: registered in the set of one map
    [g0] only, it is afterwards registered in the set of [gm] only, at
    [(x, y)]. *)
Definition place_keeps_one_registration : Prop :=
  ∀ w self e x y gm m g0 m0,
    get_entity w self = Ok e → get_map w gm = Ok m →
    get_map w g0 = Ok m0 →
    (∀ g mg, get_map w g = Ok mg → (self ∈ gm_entities mg ↔ g = g0)) →
    let w' := exec (place self x y (Some gm)) w in
    (∃ m', get_map w' gm = Ok m') ∧
    (∀ g mg, get_map w' g = Ok mg → (self ∈ gm_entities mg ↔ g = gm)) ∧
    ∃ e', get_entity w' self = Ok e' ∧ ent_x e' = x ∧ ent_y e' = y.

(** ** Programs over these classes *)

(** Every actor in the store has its [blocks_movement] flag set. *)
Definition actors_block (w : World) : Prop :=
  ∀ a e, get_entity w a = Ok e → is_actor e = true → ent_blocks_movement e = true.

(** The flag is set if the object is an actor. *)
Definition blocks_if_actor (o : Obj) : Prop :=
  match o with
  | OEntity e => is_actor e = true → ent_blocks_movement e = true
  | _ => True
  end.

(** *** What the callers write into a map

    The grids and the entity set of a map are written by code outside
    these files: the map generator carves tiles, the field-of-view code
    assigns [visible] and [explored], and code that picks an entity up
    takes it out of the set. *)

(** The place of the index [i] on an axis of length [n]: a negative index
    counts from the end, [IndexError] outside the axis. *)
Definition np_pos (n : nat) (i : Z) : result nat :=
  let j := if i <? 0 then i + Z.of_nat n else i in
  if (0 <=? j) && (j <? Z.of_nat n) then Ok (Z.to_nat j) else Raise IndexError.

(** [gm.tiles[x, y] = tile]; the assignment of one tile to a slice is a
    sequence of these. *)
Definition set_tile (gm : Addr) (x y : Z) (tile : Tile) : M unit :=
  m ← read (λ w, get_map w gm);
  i ← read (λ _, np_pos (length (gm_tiles m)) x);
  col ← read (λ _, match gm_tiles m !! i with
                   | Some col => Ok col
                   | None => Raise IndexError
                   end);
  j ← read (λ _, np_pos (length col) y);
  modify (store gm (OGameMap (mkGameMap (gm_engine m) (gm_width m) (gm_height m)
                                (gm_entities m)
                                (<[i := <[j := tile]> col]> (gm_tiles m))
                                (gm_visible m) (gm_explored m)))).

(** An array can be assigned to, or combined in place with, an array of
    its own shape; arrays of other shapes, which [numpy] repeats where it
    can, are not modelled: [ValueError]. *)
Definition same_shape {A B} (g : list (list A)) (g' : list (list B)) : M unit :=
  if bool_decide (length <$> g = length <$> g') then mret tt else raise ValueError.

(** [gm.visible[:] = visible; gm.explored |= gm.visible] *)
Definition set_visible (gm : Addr) (visible : list (list bool)) : M unit :=
  m ← read (λ w, get_map w gm);
  same_shape visible (gm_visible m);;
  modify (store gm (OGameMap (mkGameMap (gm_engine m) (gm_width m) (gm_height m)
                                (gm_entities m) (gm_tiles m) visible
                                (gm_explored m))));;
  same_shape visible (gm_explored m);;
  modify (store gm (OGameMap (mkGameMap (gm_engine m) (gm_width m) (gm_height m)
                                (gm_entities m) (gm_tiles m) visible
                                (zip_with (zip_with orb) (gm_explored m) visible)))).

(** [gm.entities.remove(a)], which leaves the entity's [parent] as it is. *)
Definition entities_remove (gm a : Addr) : M unit :=
  m ← read (λ w, get_map w gm);
  l ← read (λ _, set_remove a (gm_entities m));
  modify (store gm (OGameMap (set_entities l m))).

(** One call of a constructor or method of these files, or one of the
    assignments their callers make to objects of the other classes.  A call
    that raises keeps what it had changed. *)
Inductive step : World → World → Prop :=
| step_new_engine w :
    step w (exec new_engine w)
| step_set_engine_game_map w eng gm :
    step w (exec (set_engine_game_map eng gm) w)
| step_new_component w cls data :
    step w (exec (new_component cls data) w)
| step_fill_tiles w gm tile :
    step w (exec (fill_tiles gm tile) w)
| step_clear_ai w a :
    step w (exec (clear_ai a) w)
| step_GameMap_init w wall engine width height entities :
    step w (exec (GameMap_init wall engine width height entities) w)
| step_Entity_init w name char colour x y blocks_movement parent render_order :
    step w (exec (Entity_init ClsEntity name char colour x y blocks_movement
                              parent render_order) w)
| step_Actor_init w x y char colour name ai_cls fighter inventory :
    step w (exec (Actor_init x y char colour name ai_cls fighter inventory) w)
| step_Item_init w x y char colour name consumable :
    step w (exec (Item_init x y char colour name consumable) w)
| step_spawn w self gm x y :
    step w (exec (spawn self gm x y) w)
| step_place w self x y gm :
    step w (exec (place self x y gm) w)
| step_move w self dx dy :
    step w (exec (move self dx dy) w)
| step_perform w engine a :
    step w (exec (perform_via engine a) w)
| step_set_tile w gm x y tile :
    step w (exec (set_tile gm x y tile) w)
| step_set_visible w gm visible :
    step w (exec (set_visible gm visible) w)
| step_entities_remove w gm a :
    step w (exec (entities_remove gm a) w).

(** The worlds such programs reach from the empty store. *)
Definition reachable (w : World) : Prop := rtc step empty_world w.

(** The shared-cell scene after its callers have put a wall at the end of the
    first column and lit the first two columns but for one cell. *)
Definition lit_shared_cell_world : World :=
  Eval vm_compute in
    exec (set_tile 1 0 (-1) wall_tile;;
          set_visible 1 [[true; true; true]; [true; true; false];
                         [false; false; false]])
         shared_cell_world.

(** A computation started where [P] holds ends where [Q] holds of its
    result, or raises where [I] holds. *)
Definition hoare {A} (P : World → Prop) (m : M A) (Q : A → World → Prop)
    (I : World → Prop) : Prop :=
  ∀ w, P w → match m w with
             | (Ok a, w') => Q a w'
             | (Raise _, w') => I w'
             end.

(** [m] keeps the invariant [I], however it ends. *)
Definition keeps {A} (I : World → Prop) (m : M A) : Prop :=
  hoare I m (λ _, I) I.

(** ** Occupancy, as predicates *)

(** A blocking entity stands at [(x, y)]. *)
Definition blocks_at (w : World) (x y : Z) (a : Addr) : bool :=
  match get_entity w a with
  | Ok e => ent_blocks_movement e && (ent_x e =? x) && (ent_y e =? y)
  | Raise _ => false
  end.

(** An item lies at [(x, y)]. *)
Definition item_at (w : World) (x y : Z) (a : Addr) : bool :=
  match get_entity w a with
  | Ok e => is_item e && (ent_x e =? x) && (ent_y e =? y)
  | Raise _ => false
  end.

(** Every member of an entity set is an entity. *)
Definition entities_only (w : World) (l : list Addr) : Prop :=
  ∀ a, a ∈ l → ∃ e, get_entity w a = Ok e.

(** No cell holds two blocking members of the map at [gm]. *)
Definition cells_exclusive (w : World) (gm : Addr) : Prop :=
  ∀ m a b x y,
    get_map w gm = Ok m → a ∈ gm_entities m → b ∈ gm_entities m →
    blocks_at w x y a = true → blocks_at w x y b = true → a = b.

(** The entity an action was made for. *)
Definition Action_entity (a : Action) : Addr :=
  match a with
  | BaseAction entity => entity
  | ActionWithDirection entity _ _ => entity
  | EscapeAction entity => entity
  | MovementAction entity _ _ => entity
  | MeleeAction entity _ _ => entity
  | BumpAction entity _ _ => entity
  end.

(** The line [MeléeAction.perform] prints about the entity at [t]. *)
Definition kick_line (w : World) (t : Addr) : result string :=
  e ← get_entity w t;
  mret ("You kick the " ++ ent_name e ++ ", much to its annoyance!")%string.

(** ** What the constructors fix for good *)

(** The flag and the render order that [Actor.__init__] and [Item.__init__]
    pass on to [Entity.__init__]. *)
Definition flags_by_class (e : Entity) : Prop :=
  (is_actor e = true → ent_blocks_movement e = true ∧ ent_render_order e = ACTOR)
  ∧ (is_item e = true → ent_blocks_movement e = false ∧ ent_render_order e = ITEM).

(** A grid of [width] columns of [height] cells. *)
Definition grid_shape {A} (width height : Z) (g : list (list A)) : Prop :=
  length <$> g = replicate (Z.to_nat width) (Z.to_nat height).

(** The three grids of a map have the shape that [GameMap.__init__] gave
    them. *)
Definition map_shaped (m : GameMap) : Prop :=
  grid_shape (gm_width m) (gm_height m) (gm_tiles m)
  ∧ grid_shape (gm_width m) (gm_height m) (gm_visible m)
  ∧ grid_shape (gm_width m) (gm_height m) (gm_explored m).

(** The same, as the test a program can make. *)
Definition has_shape {A} (width height : Z) (g : list (list A)) : bool :=
  bool_decide (length <$> g = replicate (Z.to_nat width) (Z.to_nat height)).

(** The three grids have the size of the map. *)
Definition is_shaped (m : GameMap) : bool :=
  has_shape (gm_width m) (gm_height m) (gm_tiles m)
  && has_shape (gm_width m) (gm_height m) (gm_visible m)
  && has_shape (gm_width m) (gm_height m) (gm_explored m).

(** A map as [GameMap.__init__] makes it: no negative size, and grids of
    that size. *)
Definition map_sized (m : GameMap) : Prop :=
  0 ≤ gm_width m ∧ 0 ≤ gm_height m ∧ map_shaped m.

(** An object is as a constructor of its class makes it: an entity has the
    flag and render order of its class, a map grids of its size. *)
Definition well_formed (o : Obj) : Prop :=
  match o with
  | OEntity e => flags_by_class e
  | OGameMap m => map_sized m
  | _ => True
  end.

(** Every object in the store is. *)
Definition all_well_formed (w : World) : Prop := Forall well_formed (heap w).

(** ** [GameMap.render] *)

(** One call [console.print(x, y, string, fg=colour)]. *)
Record Print := mkPrint {
  print_x : Z;
  print_y : Z;
  print_string : string;
  print_fg : Colour
}.

(** [tcod.console.Console], as far as [render] uses it: its size, the array
    [tiles_rgb] of that size, indexed [[x, y]], and the calls of [print]
    made on it so far. *)
Record Console := mkConsole {
  con_width : nat;
  con_height : nat;
  tiles_rgb : list (list Colour);
  printed : list Print
}.

(** The element [numpy.select([visible, explored], [lit, unlit], FOG)]
    takes: from the first choice whose condition holds, else the default. *)
Definition select_cell (fog : Colour) (v e : bool) (t : Tile) : Colour :=
  if v then lit t else if e then unlit t else fog.

(** [numpy.select] on the three grids of a map.  The grids have the one
    shape [(width, height)] that [__init__] gave them, and no statement of
    these files gives a grid another shape; what [numpy] makes of grids of
    different shapes (it broadcasts where it can) is not modelled, the
    answer there is [ValueError]. *)
Definition np_select (fog : Colour) (m : GameMap) : result (list (list Colour)) :=
  if is_shaped m
  then Ok (zip_with (λ vcol ecol_tcol,
                       zip_with (λ v e_t, select_cell fog v e_t.1 e_t.2)
                                vcol (zip ecol_tcol.1 ecol_tcol.2))
                    (gm_visible m) (zip (gm_explored m) (gm_tiles m)))
  else Raise ValueError.

(** The length of the slice [0:n] of an axis of length [c]: a negative [n]
    counts from the end. *)
Definition slice_len (n : Z) (c : nat) : nat :=
  if n <? 0 then Z.to_nat (Z.of_nat c + n) else Nat.min (Z.to_nat n) c.

(** An axis of the assigned array fits the axis of the slice: the lengths
    are equal, or the assigned axis has length one and is repeated. *)
Definition axis_fits (src dst : nat) : bool := Nat.eqb src dst || Nat.eqb src 1.

(** The cell [(x, y)] of [frame], [old] where it has none. *)
Definition frame_cell (frame : list (list Colour)) (x y : nat) (old : Colour) : Colour :=
  default old (col ← frame !! x; col !! y).

(** [console.tiles_rgb[0:width, 0:height] = frame], where [frame] has the
    shape [(width, height)]: [ValueError] when the slice of the console's
    array is of another shape that [frame] cannot be repeated into. *)
Definition blit (width height : Z) (frame : list (list Colour)) (con : Console)
    : result Console :=
  let tw := slice_len width (con_width con) in
  let th := slice_len height (con_height con) in
  if axis_fits (Z.to_nat width) tw && axis_fits (Z.to_nat height) th
  then Ok (mkConsole (con_width con) (con_height con)
             (imap (λ x col,
                      if (x <? tw)%nat
                      then imap (λ y old, if (y <? th)%nat
                                          then frame_cell frame x y old
                                          else old) col
                      else col)
                   (tiles_rgb con))
             (printed con))
  else Raise ValueError.

(** The key of [sorted]: [x.render_order.value].  [value] gives the values
    of the members of [RenderOrder], an enumeration that is not part of
    these files. *)
Definition render_key (value : RenderOrder → Z) (w : World) (a : Addr) : result Z :=
  e ← get_entity w a; mret (value (ent_render_order e)).

(** The keys of a list of members, computed before any comparison. *)
Fixpoint keyed (value : RenderOrder → Z) (w : World) (l : list Addr)
    : result (list (Z * Addr)) :=
  match l with
  | [] => Ok []
  | a :: l' =>
      k ← render_key value w a;
      rest ← keyed value w l';
      mret ((k, a) :: rest)
  end.

(** [p] goes before the first element whose key is not smaller. *)
Fixpoint insert_by_key (p : Z * Addr) (l : list (Z * Addr)) : list (Z * Addr) :=
  match l with
  | [] => [p]
  | q :: l' => if p.1 <=? q.1 then p :: q :: l' else q :: insert_by_key p l'
  end.

(** [sorted(l, key=...)]: ascending by key, elements with equal keys in the
    order in which [l] has them. *)
Definition sorted_by_key (l : list (Z * Addr)) : list (Z * Addr) :=
  foldr insert_by_key [] l.

(** [console.print(entity.x, entity.y, entity.char, fg=entity.colour)] *)
Definition console_print (e : Entity) (con : Console) : Console :=
  mkConsole (con_width con) (con_height con) (tiles_rgb con)
            (printed con ++ [mkPrint (ent_x e) (ent_y e) (ent_char e) (ent_colour e)]).

(** The loop of [render] over the sorted entities; a raise keeps the calls
    made before it. *)
Fixpoint draw_entities (w : World) (m : GameMap) (l : list Addr) (con : Console)
    : result unit * Console :=
  match l with
  | [] => (Ok tt, con)
  | a :: l' =>
      match e ← get_entity w a;
            v ← grid_at (gm_visible m) (ent_x e) (ent_y e);
            mret (e, v) with
      | Raise ex => (Raise ex, con)
      | Ok (e, v) => draw_entities w m l' (if (v : bool) then console_print e con else con)
      end
  end.

(** [GameMap.render].  [fog] is the value of [tile_types.FOG]. *)
Definition render (fog : Colour) (value : RenderOrder → Z) (w : World) (self : Addr)
    (con : Console) : result unit * Console :=
  match get_map w self with
  | Raise ex => (Raise ex, con)
  | Ok m =>
      match frame ← np_select fog m; blit (gm_width m) (gm_height m) frame con with
      | Raise ex => (Raise ex, con)
      | Ok con1 =>
          match keyed value w (gm_entities m) with
          | Raise ex => (Raise ex, con1)
          | Ok ks => draw_entities w m ((sorted_by_key ks).*2) con1
          end
      end
  end.

(** The member at [a] stands on a cell that [visible] marks. *)
Definition visible_at (w : World) (m : GameMap) (a : Addr) : bool :=
  match e ← get_entity w a; grid_at (gm_visible m) (ent_x e) (ent_y e) with
  | Ok v => v
  | Raise _ => false
  end.

(** The call of [print] that draws the member at [a]. *)
Definition glyph (w : World) (a : Addr) : option Print :=
  match get_entity w a with
  | Ok e => Some (mkPrint (ent_x e) (ent_y e) (ent_char e) (ent_colour e))
  | Raise _ => None
  end.

(** The render order of the member at [a], as a number. *)
Definition tier_of (value : RenderOrder → Z) (w : World) (a : Addr) : Z :=
  match get_entity w a with
  | Ok e => value (ent_render_order e)
  | Raise _ => 0
  end.

(** The console's array has the console's size. *)
Definition console_shaped (con : Console) : Prop :=
  length <$> tiles_rgb con = replicate (con_width con) (con_height con).

(** The cell [(x, y)] of the console's array. *)
Definition console_cell (con : Console) (x y : Z) : option Colour :=
  col ← tiles_rgb con !! Z.to_nat x; col !! Z.to_nat y.

(** ** More scenes *)

(** An item with a fresh consumable. *)
Definition new_item (name char : string) (amount : Z) : M Addr :=
  consumable ← new_component ClsConsumable [amount];
  Item_init 0 0 char (127, 0, 255) name consumable.

(** A 4 by 3 map of floor tiles: the player and a potion on cell (1, 1), a
    scroll alone on (2, 1), an orc on (3, 2). *)
Definition scene_cellar : M (Addr * Addr * Addr * Addr * Addr) :=
  gm ← open_map 4 3;
  player ← new_actor "Player";
  potion ← new_item "Health Potion" "!" 4;
  scroll ← new_item "Lightning Scroll" "~" 20;
  orc ← new_actor "Orc";
  place player 1 1 (Some gm);;
  place potion 1 1 (Some gm);;
  place scroll 2 1 (Some gm);;
  place orc 3 2 (Some gm);;
  mret (gm, player, potion, scroll, orc).

(** The world of the cellar: the map at 1, the player at 4, the potion at
    7, the scroll at 9, the orc at 12. *)
Definition cellar_world : World :=
  Eval vm_compute in exec scene_cellar empty_world.

(** The cellar seen from (1, 1): the columns 0 to 2 are visible, the column
    of the orc is not; then the view narrows to column 1 and 2. *)
Definition lit_cellar_world : World :=
  Eval vm_compute in
    exec (set_visible 1 [[true; true; true]; [true; true; true];
                         [true; true; true]; [false; false; false]];;
          set_visible 1 [[false; false; false]; [true; true; true];
                         [true; true; true]; [false; false; false]])
         cellar_world.

(** The lit cellar after walls have been put into two of its corners. *)
Definition carved_cellar_world : World :=
  Eval vm_compute in
    exec (set_tile 1 0 (-1) wall_tile;; set_tile 1 3 0 wall_tile) lit_cellar_world.

(** The lit cellar after the engine has been given a second map of the same
    size, all floor, whose [entities] argument held the fighter component of
    the player.  The new map is at 14. *)
Definition stray_member_world : World :=
  Eval vm_compute in
    exec (gm ← GameMap_init wall_tile 0 4 3 [2%nat];
          set_engine_game_map 0 gm;;
          fill_tiles gm floor_tile)
         lit_cellar_world.

(** The values [auto()] gives the members in the order in which the
    enumeration lists them; used as an instance of [value] only. *)
Definition tier (r : RenderOrder) : Z :=
  match r with
  | CORPSE => 1
  | ITEM => 2
  | ACTOR => 3
  end.

(** An empty console of 6 by 4 black cells. *)
Definition blank_console : Console :=
  mkConsole 6 4 (replicate 6 (replicate 4 (0, 0, 0))) [].

(** A colour for [tile_types.FOG]. *)
Definition fog_colour : Colour := (16, 16, 16).

(** The two maps after the chest has been taken out of the first map's
    set: its [parent] still names that map. *)
Definition unlisted_chest_world : World :=
  Eval vm_compute in exec (entities_remove 2 4) two_maps_world.
(** * Properties *)

(** ** The store *)

Lemma heap_store a o w : heap (store a o w) = <[a := o]> (heap w).
Proof. reflexivity. Qed.

Lemma lookup_store_eq a o w :
  (a < length (heap w))%nat → heap (store a o w) !! a = Some o.
Proof. intros Hlt. rewrite heap_store. by apply list_lookup_insert_eq. Qed.

Lemma lookup_store_ne a b o w :
  a ≠ b → heap (store a o w) !! b = heap w !! b.
Proof. intros Hne. rewrite heap_store. by apply list_lookup_insert_ne. Qed.

Lemma length_store a o w : length (heap (store a o w)) = length (heap w).
Proof. rewrite heap_store. apply length_insert. Qed.

Lemma get_entity_Ok w a e : get_entity w a = Ok e ↔ heap w !! a = Some (OEntity e).
Proof.
  unfold get_entity. split.
  - destruct (heap w !! a) as [[]|]; congruence.
  - intros ->. reflexivity.
Qed.

Lemma get_map_Ok w a m : get_map w a = Ok m ↔ heap w !! a = Some (OGameMap m).
Proof.
  unfold get_map. split.
  - destruct (heap w !! a) as [[]|]; congruence.
  - intros ->. reflexivity.
Qed.

Lemma get_component_Ok w a c :
  get_component w a = Ok c ↔ heap w !! a = Some (OComponent c).
Proof.
  unfold get_component. split.
  - destruct (heap w !! a) as [[]|]; congruence.
  - intros ->. reflexivity.
Qed.

Lemma get_entity_same_lookup w w' a :
  heap w' !! a = heap w !! a → get_entity w' a = get_entity w a.
Proof. unfold get_entity. by intros ->. Qed.

Lemma get_map_same_lookup w w' a :
  heap w' !! a = heap w !! a → get_map w' a = get_map w a.
Proof. unfold get_map. by intros ->. Qed.

Lemma allocated w a o : heap w !! a = Some o → (a < length (heap w))%nat.
Proof. apply lookup_lt_Some. Qed.

(** ** Scanning for actors *)

Lemma actor_scan_living w x y l :
  actor_scan w (List.filter (living_actor w) l) x y
  = Ok (head (List.filter (living_at w x y) l)).
Proof.
  induction l as [|a l IH]; [reflexivity|].
  cbn [List.filter]. unfold living_actor at 1, living_at at 1.
  destruct (get_entity w a) as [e|err] eqn:He; [|exact IH].
  destruct (is_actor e) eqn:Hact; cbn [andb]; [|exact IH].
  destruct (is_alive e) eqn:Hlive; cbn [andb]; [|exact IH].
  cbn [actor_scan]. rewrite He. cbn. rewrite Hlive.
  destruct (ent_x e =? x); cbn [andb]; [|exact IH].
  destruct (ent_y e =? y); cbn [andb]; [reflexivity|exact IH].
Qed.

(** What [get_actor_at_location] returns: the first member of the entity
    set, in iteration order, that is a living actor at [(x, y)]. *)
Lemma get_actor_at_location_first w gm m x y :
  get_map w gm = Ok m →
  get_actor_at_location w gm x y
  = Ok (head (List.filter (living_at w x y) (gm_entities m))).
Proof.
  intros Hm. unfold get_actor_at_location, actors. rewrite Hm. cbn.
  apply actor_scan_living.
Qed.

Lemma head_filter_None {A} (f : A → bool) (l : list A) :
  (∀ a, a ∈ l → f a = false) → head (List.filter f l) = None.
Proof.
  induction l as [|a l IH]; intros Hall; [reflexivity|].
  cbn. rewrite (Hall a) by left. apply IH. intros b Hb. apply Hall. by right.
Qed.

(** The head of a filtered list splits the list at the first match. *)
Lemma head_filter_Some {A} (f : A → bool) (l : list A) (a : A) :
  head (List.filter f l) = Some a ↔
  ∃ l1 l2, l = l1 ++ a :: l2 ∧ (∀ b, b ∈ l1 → f b = false) ∧ f a = true.
Proof.
  induction l as [|c l IH]; cbn.
  - split; [done|]. intros (l1 & l2 & Heq & _). by destruct l1.
  - destruct (f c) eqn:Hc; cbn.
    + split.
      * intros [= ->]. exists [], l. split_and!; [done| |done].
        intros b Hb. by apply elem_of_nil in Hb.
      * intros (l1 & l2 & Heq & Hl1 & Ha). destruct l1 as [|c' l1].
        -- by injection Heq as -> _.
        -- injection Heq as -> _. rewrite Hl1 in Hc by left. done.
    + rewrite IH. split.
      * intros (l1 & l2 & -> & Hl1 & Ha). exists (c :: l1), l2. split_and!; [done| |done].
        intros b [->|Hb]%elem_of_cons; auto.
      * intros (l1 & l2 & Heq & Hl1 & Ha). destruct l1 as [|c' l1].
        -- injection Heq as -> _. congruence.
        -- injection Heq as -> ->. exists l1, l2. split_and!; [done| |done].
           intros b Hb. apply Hl1. by right.
Qed.

Lemma head_filter_elem {A} (f : A → bool) (l : list A) (a : A) :
  a ∈ l → f a = true → ∃ b, head (List.filter f l) = Some b.
Proof.
  intros Hin Ha. destruct (head (List.filter f l)) as [b|] eqn:Hhd; [by exists b|].
  exfalso. assert (Hmem : In a (List.filter f l)).
  { apply filter_In. split; [by apply list_elem_of_In|done]. }
  destruct (List.filter f l); [done|discriminate].
Qed.

Lemma living_at_actor_at w x y a : living_at w x y a = true → actor_at w x y a = true.
Proof.
  unfold living_at, actor_at. destruct (get_entity w a) as [e|]; [|done].
  destruct (is_actor e), (is_alive e), (ent_x e =? x), (ent_y e =? y); done.
Qed.

Lemma living_at_not_dead w x y a : living_at w x y a = true → dead_at w x y a = false.
Proof.
  unfold living_at, dead_at. destruct (get_entity w a) as [e|]; [|done].
  destruct (is_actor e), (is_alive e), (ent_x e =? x), (ent_y e =? y); done.
Qed.

(** C7.  [get_actor_at_location(x, y)] returns [None] when no actor in the
    entity set stands at [(x, y)]; returns the actor when exactly one living
    actor stands there; and returns [None] when every actor standing there is
    dead (its AI handle is absent). *)
Theorem get_actor_at_location_cases w gm m x y :
  get_map w gm = Ok m →
  ((∀ a, a ∈ gm_entities m → actor_at w x y a = false) →
     get_actor_at_location w gm x y = Ok None)
  ∧ (∀ a, a ∈ gm_entities m → living_at w x y a = true →
       (∀ b, b ∈ gm_entities m → living_at w x y b = true → b = a) →
       get_actor_at_location w gm x y = Ok (Some a))
  ∧ ((∀ a, a ∈ gm_entities m → actor_at w x y a = true → dead_at w x y a = true) →
       get_actor_at_location w gm x y = Ok None).
Proof.
  intros Hm. rewrite (get_actor_at_location_first _ _ _ _ _ Hm). split_and!.
  - intros Hnone. f_equal. apply head_filter_None. intros a Ha.
    destruct (living_at w x y a) eqn:Hl; [|done].
    apply living_at_actor_at in Hl. rewrite Hnone in Hl; done.
  - intros a Ha Hliving Huniq.
    destruct (head_filter_elem _ _ _ Ha Hliving) as [b Hb]. rewrite Hb.
    apply head_filter_Some in Hb as (l1 & l2 & Heq & _ & Hbl).
    do 2 f_equal. apply Huniq; [|done]. rewrite Heq.
    apply elem_of_app. right. by left.
  - intros Hdead. f_equal. apply head_filter_None. intros a Ha.
    destruct (living_at w x y a) eqn:Hl; [|done].
    pose proof (living_at_not_dead _ _ _ _ Hl) as Hnd.
    rewrite (Hdead a Ha (living_at_actor_at _ _ _ _ Hl)) in Hnd. done.
Qed.

(** Reordering the entity set of a map changes no entity. *)
Lemma get_entity_reorder w gm order a :
  get_entity (reorder w gm order) a = get_entity w a.
Proof.
  unfold reorder. destruct (get_map w gm) as [m|] eqn:Hm; [|done].
  apply get_map_Ok in Hm. destruct (decide (gm = a)) as [->|Hne].
  - unfold get_entity. rewrite lookup_store_eq by eauto using allocated.
    by rewrite Hm.
  - apply get_entity_same_lookup. by apply lookup_store_ne.
Qed.

Lemma get_map_reorder w gm m order :
  get_map w gm = Ok m →
  get_map (reorder w gm order) gm = Ok (set_entities order m).
Proof.
  intros Hm. unfold reorder. rewrite Hm. apply get_map_Ok in Hm.
  apply get_map_Ok. apply lookup_store_eq. eauto using allocated.
Qed.

Lemma living_at_reorder w gm order x y a :
  living_at (reorder w gm order) x y a = living_at w x y a.
Proof. unfold living_at. by rewrite get_entity_reorder. Qed.

Lemma filter_ext_bool {A} (f g : A → bool) (l : list A) :
  (∀ a, f a = g a) → List.filter f l = List.filter g l.
Proof. intros Hfg. induction l as [|a l IH]; cbn; [done|]. by rewrite Hfg, IH. Qed.

(** With the entity set in any order, [get_actor_at_location] returns the
    first living actor at the cell in that order. *)
Lemma get_actor_at_location_reorder w gm m order x y :
  get_map w gm = Ok m →
  get_actor_at_location (reorder w gm order) gm x y
  = Ok (head (List.filter (living_at w x y) order)).
Proof.
  intros Hm.
  rewrite (get_actor_at_location_first _ _ _ _ _ (get_map_reorder _ _ _ order Hm)).
  cbn. do 2 f_equal. apply filter_ext_bool. intros a. apply living_at_reorder.
Qed.

(** A living actor in the set is found whatever else stands on the cell. *)
Lemma get_actor_at_location_finds_living w gm m x y l order :
  get_map w gm = Ok m → l ∈ order → living_at w x y l = true →
  ∃ l1 a l2,
    order = l1 ++ a :: l2 ∧
    (∀ b, b ∈ l1 → living_at w x y b = false) ∧
    living_at w x y a = true ∧
    get_actor_at_location (reorder w gm order) gm x y = Ok (Some a).
Proof.
  intros Hm Hl Hliving.
  rewrite (get_actor_at_location_reorder _ _ _ _ _ _ Hm).
  destruct (head_filter_elem _ _ _ Hl Hliving) as [a Ha]. rewrite Ha.
  apply head_filter_Some in Ha as (l1 & l2 & Heq & Hl1 & Hal).
  by exists l1, a, l2.
Qed.

(** C3, as the code has it.  Where a dead actor and a living actor stand on
    one cell, in every iteration order of the entity set, also one that comes
    to the dead actor first, [get_actor_at_location] returns the first living
    actor at the cell: the scan runs over [GameMap.actors], which has dropped
    the dead actors, so a dead actor never ends it. *)
Theorem get_actor_at_location_skips_dead w gm m x y d l order :
  get_map w gm = Ok m →
  order ≡ₚ gm_entities m →
  d ∈ order → l ∈ order →
  dead_at w x y d = true →
  living_at w x y l = true →
  ∃ l1 a l2,
    order = l1 ++ a :: l2 ∧
    (∀ b, b ∈ l1 → living_at w x y b = false) ∧
    living_at w x y a = true ∧ a ≠ d ∧
    get_actor_at_location (reorder w gm order) gm x y = Ok (Some a).
Proof.
  intros Hm _ _ Hl Hdead Hliving.
  destruct (get_actor_at_location_finds_living _ _ _ _ _ _ _ Hm Hl Hliving)
    as (l1 & a & l2 & Heq & Hl1 & Hal & Hres).
  exists l1, a, l2. split_and!; try done.
  intros ->. apply living_at_not_dead in Hal. congruence.
Qed.

(** C3, as stated, does not hold: no map state makes a dead actor that is
    encountered first end the scan with [None]. *)
Lemma dead_actor_never_ends_scan : ¬ dead_actor_ends_scan.
Proof.
  intros (w & gm & m & x & y & d & l & Hm & Hnd & Hd & Hl & Hdead & Hliving & Hall).
  assert (Hdl : d ≠ l).
  { intros ->. apply living_at_not_dead in Hliving. congruence. }
  set (order := d :: filter (λ a, a ≠ d) (gm_entities m)).
  assert (Hperm : order ≡ₚ gm_entities m).
  { apply NoDup_Permutation; [|done|].
    - apply NoDup_cons. split; [|by apply NoDup_filter].
      by intros [Hne _]%list_elem_of_filter.
    - intros a. unfold order. rewrite elem_of_cons, list_elem_of_filter.
      destruct (decide (a = d)) as [->|Hne]; [tauto|]. tauto. }
  assert (Hbefore : encountered_before d l order).
  { exists [], (filter (λ a, a ≠ d) (gm_entities m)). split_and!; [done| |].
    - apply not_elem_of_nil.
    - apply list_elem_of_filter. split; [congruence|done]. }
  specialize (Hall order Hperm Hbefore).
  assert (Hlo : l ∈ order).
  { unfold order. rewrite elem_of_cons, list_elem_of_filter. right. split; [congruence|done]. }
  destruct (get_actor_at_location_finds_living _ _ _ _ _ _ _ Hm Hlo Hliving)
    as (? & a & ? & _ & _ & _ & Hres).
  congruence.
Qed.

(** ** Running the state monad *)

Lemma run_bind {A B} (m : M A) (k : A → M B) w :
  (m ≫= k) w = match m w with
               | (Ok a, w') => k a w'
               | (Raise e, w') => (Raise e, w')
               end.
Proof. reflexivity. Qed.

Lemma update_entity_run a f w e :
  get_entity w a = Ok e →
  update_entity a f w = (Ok tt, store a (OEntity (f e)) w).
Proof. intros He. unfold update_entity. rewrite run_bind. unfold read. by rewrite He. Qed.

Lemma update_map_run a f w m :
  get_map w a = Ok m →
  update_map a f w = (Ok tt, store a (OGameMap (f m)) w).
Proof. intros Hm. unfold update_map. rewrite run_bind. unfold read. by rewrite Hm. Qed.

Lemma update_map_fail a f w ex :
  get_map w a = Raise ex → update_map a f w = (Raise ex, w).
Proof. intros Hm. unfold update_map. rewrite run_bind. unfold read. by rewrite Hm. Qed.

Lemma get_entity_store_eq w a e e' :
  get_entity w a = Ok e → get_entity (store a (OEntity e') w) a = Ok e'.
Proof.
  intros He%get_entity_Ok. apply get_entity_Ok, lookup_store_eq.
  eauto using allocated.
Qed.

Lemma get_entity_store_ne w a b o :
  a ≠ b → get_entity (store a o w) b = get_entity w b.
Proof. intros Hne. by apply get_entity_same_lookup, lookup_store_ne. Qed.

Lemma get_map_store_eq w a m m' :
  get_map w a = Ok m → get_map (store a (OGameMap m') w) a = Ok m'.
Proof.
  intros Hm%get_map_Ok. apply get_map_Ok, lookup_store_eq.
  eauto using allocated.
Qed.

Lemma get_map_store_ne w a b o :
  a ≠ b → get_map (store a o w) b = get_map w b.
Proof. intros Hne. by apply get_map_same_lookup, lookup_store_ne. Qed.

(** Storing an entity where an entity was keeps every map. *)
Lemma get_map_store_entity w a e e' g :
  get_entity w a = Ok e → get_map (store a (OEntity e') w) g = get_map w g.
Proof.
  intros He. destruct (decide (a = g)) as [<-|Hne]; [|by apply get_map_store_ne].
  apply get_entity_Ok in He. unfold get_map.
  rewrite lookup_store_eq by eauto using allocated. by rewrite He.
Qed.

(** Storing a map where a map was keeps every entity. *)
Lemma get_entity_store_map w g m m' a :
  get_map w g = Ok m → get_entity (store g (OGameMap m') w) a = get_entity w a.
Proof.
  intros Hm. destruct (decide (g = a)) as [<-|Hne]; [|by apply get_entity_store_ne].
  apply get_map_Ok in Hm. unfold get_entity.
  rewrite lookup_store_eq by eauto using allocated. by rewrite Hm.
Qed.

(** ** Attribute lookup on entities *)

Lemma getattr_parent w a e :
  get_entity w a = Ok e →
  getattr w a "parent" = match ent_parent e with
                         | Some p => Ok (VObj p)
                         | None => Raise AttributeError
                         end.
Proof.
  intros He%get_entity_Ok. unfold getattr. rewrite He. reflexivity.
Qed.

Lemma hasattr_parent w a e :
  get_entity w a = Ok e →
  hasattr w a "parent" = Ok (bool_decide (is_Some (ent_parent e))).
Proof.
  intros He. unfold hasattr. rewrite (getattr_parent _ _ _ He).
  by destruct (ent_parent e).
Qed.

(** An entity has no attribute [game_map]: the classes of [entity.py] assign
    [name], [char], [colour], [x], [y], [blocks_movement], [render_order],
    [parent] and the subclass components, and define the property
    [gamemap]. *)
Lemma getattr_game_map w a e :
  get_entity w a = Ok e → getattr w a "game_map" = Raise AttributeError.
Proof.
  intros He%get_entity_Ok. unfold getattr. rewrite He.
  destruct e as [? ? ? ? ? ? ? ? []]; reflexivity.
Qed.

(** ** The owner chain *)

Lemma recursion_limit_S : ∃ n, recursion_limit = S (S n).
Proof. by exists 998%nat. Qed.

Lemma gamemap_of_map fuel w a m :
  get_map w a = Ok m → gamemap_of (S fuel) w a = Ok a.
Proof. intros Hm%get_map_Ok. cbn. by rewrite Hm. Qed.

Lemma gamemap_of_entity fuel w a e :
  get_entity w a = Ok e →
  gamemap_of (S fuel) w a = match ent_parent e with
                            | Some p => gamemap_of fuel w p
                            | None => Raise AttributeError
                            end.
Proof. intros He%get_entity_Ok. cbn. by rewrite He. Qed.

(** What the chain resolves to is a map. *)
Lemma gamemap_of_is_map fuel w a g :
  gamemap_of fuel w a = Ok g → ∃ m, get_map w g = Ok m.
Proof.
  revert a. induction fuel as [|fuel IH]; intros a; cbn; [done|].
  destruct (heap w !! a) as [[e|c|m|eng]|] eqn:Ha; try done.
  - destruct (ent_parent e); [apply IH|done].
  - destruct (component_owner c); cbn; [apply IH|done].
  - intros [= <-]. exists m. by apply get_map_Ok.
Qed.

(** An entity owned by a map resolves to that map. *)
Lemma Entity_gamemap_owned w self e p mp :
  get_entity w self = Ok e → ent_parent e = Some p → get_map w p = Ok mp →
  Entity_gamemap w self = Ok p.
Proof.
  intros He Hp Hmp. unfold Entity_gamemap.
  destruct recursion_limit_S as [n ->].
  rewrite (gamemap_of_entity _ _ _ _ He), Hp. by eapply gamemap_of_map.
Qed.

(** ** [set.add] and [set.remove] *)

Lemma elem_of_set_add a b l : a ∈ set_add b l ↔ a ∈ l ∨ a = b.
Proof.
  unfold set_add, mem. case_bool_decide as Hb.
  - split; [auto|]. intros [?| ->]; done.
  - rewrite elem_of_app, list_elem_of_singleton. tauto.
Qed.

Lemma elem_of_removed (a b : Addr) (l : list Addr) :
  a ∈ filter (λ c, c ≠ b) l ↔ a ∈ l ∧ a ≠ b.
Proof. rewrite list_elem_of_filter. tauto. Qed.

(** ** [place], statement by statement *)

Lemma place_unfold self x y gm w e :
  get_entity w self = Ok e →
  place self x y (Some gm) w =
    let w1 := positioned self x y e w in
    match ent_parent e with
    | None => adopt self gm w1
    | Some p =>
        match Entity_gamemap w1 self with
        | Raise ex => (Raise ex, w1)
        | Ok g' =>
            if Nat.eqb p g'
            then match remove_from_gamemap self w1 with
                 | (Ok _, w2) => adopt self gm w2
                 | (Raise ex, w2) => (Raise ex, w2)
                 end
            else adopt self gm w1
        end
    end.
Proof.
  intros He. unfold place. rewrite run_bind, (update_entity_run _ _ _ _ He).
  rewrite run_bind.
  rewrite (update_entity_run _ _ _ (set_x x e)) by (by eapply get_entity_store_eq).
  fold (positioned self x y e w). set (w1 := positioned self x y e w).
  assert (He1 : get_entity w1 self = Ok (set_y y (set_x x e))).
  { unfold w1, positioned. eapply get_entity_store_eq. by eapply get_entity_store_eq. }
  rewrite run_bind. unfold read at 1. rewrite (hasattr_parent _ _ _ He1).
  cbn [ent_parent set_y set_x].
  destruct (ent_parent e) as [p|] eqn:Hp; cbn [bool_decide decide_rel is_Some_dec].
  - rewrite run_bind. rewrite (run_bind (read _)). unfold read at 1.
    unfold attr_obj. rewrite (getattr_parent _ _ _ He1). cbn [ent_parent set_y set_x].
    rewrite Hp. cbn [mbind result_bind]. rewrite run_bind. unfold read at 1.
    destruct (Entity_gamemap w1 self) as [g'|ex]; [|reflexivity].
    destruct (p =? g')%nat; [|reflexivity].
    destruct (remove_from_gamemap self w1) as [[[]|ex] w2]; reflexivity.
  - reflexivity.
Qed.


Lemma positioned_entity w self x y e :
  get_entity w self = Ok e →
  get_entity (positioned self x y e w) self = Ok (set_y y (set_x x e)).
Proof.
  intros He. unfold positioned. eapply get_entity_store_eq.
  by eapply get_entity_store_eq.
Qed.

Lemma positioned_other w self x y e a :
  a ≠ self → heap (positioned self x y e w) !! a = heap w !! a.
Proof. intros Hne. unfold positioned. by rewrite !lookup_store_ne. Qed.

Lemma positioned_map w self x y e g :
  get_entity w self = Ok e → get_map (positioned self x y e w) g = get_map w g.
Proof.
  intros He. unfold positioned.
  rewrite (get_map_store_entity _ _ (set_x x e)) by (by eapply get_entity_store_eq).
  by eapply get_map_store_entity.
Qed.

(** Moving an entity does not change what the owner chain resolves to. *)
Lemma gamemap_of_store_entity fuel w self e e' a :
  get_entity w self = Ok e → ent_parent e' = ent_parent e →
  gamemap_of fuel (store self (OEntity e') w) a = gamemap_of fuel w a.
Proof.
  intros He Hp. revert a.
  induction fuel as [|fuel IH]; intros a; cbn [gamemap_of]; [done|].
  destruct (decide (self = a)) as [<-|Hne].
  - apply get_entity_Ok in He as He'.
    rewrite lookup_store_eq by eauto using allocated. rewrite He', Hp.
    destruct (ent_parent e); [apply IH|done].
  - rewrite lookup_store_ne by done.
    destruct (heap w !! a) as [[e0|c|m|eng]|]; try done.
    + destruct (ent_parent e0); [apply IH|done].
    + destruct (component_owner c); cbn; [apply IH|done].
Qed.

Lemma Entity_gamemap_positioned w self x y e :
  get_entity w self = Ok e →
  Entity_gamemap (positioned self x y e w) self = Entity_gamemap w self.
Proof.
  intros He. unfold Entity_gamemap, positioned.
  rewrite (gamemap_of_store_entity _ _ _ (set_x x e))
    by (by eapply get_entity_store_eq || done).
  by rewrite (gamemap_of_store_entity _ _ _ e).
Qed.

Lemma adopt_run self gm w e m :
  get_entity w self = Ok e → get_map w gm = Ok m →
  adopt self gm w =
    (Ok tt, store gm (OGameMap (set_entities (set_add self (gm_entities m)) m))
              (store self (OEntity (set_parent gm e)) w)).
Proof.
  intros He Hm. unfold adopt. rewrite run_bind, (update_entity_run _ _ _ _ He).
  rewrite (update_map_run gm _ _ m); [done|].
  by rewrite (get_map_store_entity _ _ e).
Qed.

Lemma remove_from_gamemap_run self w g mg :
  Entity_gamemap w self = Ok g → get_map w g = Ok mg →
  remove_from_gamemap self w =
    if mem self (gm_entities mg)
    then (Ok tt, store g (OGameMap (set_entities
                                      (filter (λ b, b ≠ self) (gm_entities mg)) mg)) w)
    else (Raise KeyError, w).
Proof.
  intros Hg Hm. unfold remove_from_gamemap. rewrite run_bind. unfold read at 1.
  rewrite Hg, run_bind. unfold read at 1. rewrite Hm, run_bind. unfold read at 1.
  unfold set_remove. by destruct (mem self (gm_entities mg)).
Qed.

Lemma Entity_gamemap_is_map w self g :
  Entity_gamemap w self = Ok g → ∃ m, get_map w g = Ok m.
Proof. unfold Entity_gamemap. apply gamemap_of_is_map. Qed.

(** Whenever [place] onto a map returns, the entity is where it was put and
    owned by the map, the map's set has gained it and nothing else, and no
    other entity has changed. *)
Lemma place_Ok_shape w self e x y gm m w' :
  get_entity w self = Ok e → get_map w gm = Ok m →
  place self x y (Some gm) w = (Ok tt, w') →
  ∃ m2, (∀ a, a ∈ gm_entities m2 → a ∈ gm_entities m) ∧
        get_map w' gm = Ok (set_entities (set_add self (gm_entities m2)) m2) ∧
        get_entity w' self = Ok (set_parent gm (set_y y (set_x x e))) ∧
        (∀ a, a ≠ self → get_entity w' a = get_entity w a).
Proof.
  intros He Hm. rewrite (place_unfold _ _ _ _ _ _ He). cbn zeta.
  set (w1 := positioned self x y e w).
  pose proof (positioned_entity _ _ x y _ He) as He1. fold w1 in He1.
  assert (Hm1 : get_map w1 gm = Ok m) by (unfold w1; by rewrite positioned_map).
  assert (Hother1 : ∀ a, a ≠ self → get_entity w1 a = get_entity w a).
  { intros a Hne. by apply get_entity_same_lookup, positioned_other. }
  assert (Hkeep : ∀ w'', adopt self gm w1 = (Ok tt, w'') →
    ∃ m2, (∀ a, a ∈ gm_entities m2 → a ∈ gm_entities m) ∧
          get_map w'' gm = Ok (set_entities (set_add self (gm_entities m2)) m2) ∧
          get_entity w'' self = Ok (set_parent gm (set_y y (set_x x e))) ∧
          (∀ a, a ≠ self → get_entity w'' a = get_entity w a)).
  { intros w''. rewrite (adopt_run _ _ _ _ _ He1 Hm1). intros [= <-].
    assert (Hm3 : get_map (store self (OEntity (set_parent gm (set_y y (set_x x e)))) w1) gm
                  = Ok m) by (by rewrite (get_map_store_entity _ _ _ _ _ He1)).
    exists m. split_and!; [done| | |].
    - by eapply get_map_store_eq.
    - rewrite (get_entity_store_map _ _ _ _ _ Hm3). by eapply get_entity_store_eq.
    - intros a Hne. rewrite (get_entity_store_map _ _ _ _ _ Hm3).
      rewrite get_entity_store_ne by done. auto. }
  destruct (ent_parent e) as [p|] eqn:Hp; [|apply Hkeep].
  destruct (Entity_gamemap w1 self) as [g'|ex] eqn:Hg; [|done].
  destruct (Nat.eqb_spec p g') as [<-|Hne]; [|apply Hkeep].
  destruct (Entity_gamemap_is_map _ _ _ Hg) as [mp Hmp].
  rewrite (remove_from_gamemap_run _ _ _ _ Hg Hmp).
  destruct (mem self (gm_entities mp)) eqn:Hmem; [|done].
  set (mp' := set_entities (filter (λ b, b ≠ self) (gm_entities mp)) mp).
  set (w2 := store p (OGameMap mp') w1).
  assert (He2 : get_entity w2 self = Ok (set_y y (set_x x e))).
  { unfold w2. by rewrite (get_entity_store_map _ _ _ _ _ Hmp). }
  assert (Hm2 : ∃ m2, get_map w2 gm = Ok m2 ∧
                      ∀ a, a ∈ gm_entities m2 → a ∈ gm_entities m).
  { destruct (decide (p = gm)) as [->|Hpg].
    - exists mp'. split; [by eapply get_map_store_eq|].
      intros a [Ha _]%elem_of_removed. congruence.
    - exists m. split; [|done]. unfold w2. by rewrite get_map_store_ne. }
  destruct Hm2 as (m2 & Hm2 & Hsub).
  rewrite (adopt_run _ _ _ _ _ He2 Hm2). intros [= <-].
  assert (Hm3 : get_map (store self (OEntity (set_parent gm (set_y y (set_x x e)))) w2) gm
                = Ok m2) by (by rewrite (get_map_store_entity _ _ _ _ _ He2)).
  exists m2. split_and!; [done| | |].
  - by eapply get_map_store_eq.
  - rewrite (get_entity_store_map _ _ _ _ _ Hm3). by eapply get_entity_store_eq.
  - intros a Hne. rewrite (get_entity_store_map _ _ _ _ _ Hm3).
    rewrite get_entity_store_ne by done. unfold w2.
    rewrite (get_entity_store_map _ _ _ _ _ Hmp). auto.
Qed.

(** [place] on an entity that has no owner yet. *)
Lemma place_unowned_run w self e x y gm m :
  get_entity w self = Ok e → ent_parent e = None → get_map w gm = Ok m →
  place self x y (Some gm) w =
    (Ok tt, store gm (OGameMap (set_entities (set_add self (gm_entities m)) m))
              (store self (OEntity (set_parent gm (set_y y (set_x x e))))
                     (positioned self x y e w))).
Proof.
  intros He Hp Hm. rewrite (place_unfold _ _ _ _ _ _ He), Hp. cbn zeta.
  apply adopt_run; [by apply positioned_entity|by rewrite positioned_map].
Qed.

(** [place] on an entity owned by a map that has it in its set: it leaves
    that set, then joins the new one. *)
Lemma place_owned_run w self e p mp x y gm m :
  get_entity w self = Ok e → ent_parent e = Some p →
  get_map w p = Ok mp → self ∈ gm_entities mp → get_map w gm = Ok m →
  let mp' := set_entities (filter (λ b, b ≠ self) (gm_entities mp)) mp in
  let m2 := if decide (p = gm) then mp' else m in
  place self x y (Some gm) w =
    (Ok tt, store gm (OGameMap (set_entities (set_add self (gm_entities m2)) m2))
              (store self (OEntity (set_parent gm (set_y y (set_x x e))))
                     (store p (OGameMap mp') (positioned self x y e w)))).
Proof.
  intros He Hp Hmp Hin Hm mp' m2.
  rewrite (place_unfold _ _ _ _ _ _ He), Hp. cbn zeta.
  set (w1 := positioned self x y e w).
  pose proof (positioned_entity _ _ x y _ He) as He1. fold w1 in He1.
  assert (Hm1 : get_map w1 gm = Ok m) by (unfold w1; by rewrite positioned_map).
  assert (Hmp1 : get_map w1 p = Ok mp) by (unfold w1; by rewrite positioned_map).
  assert (Hg : Entity_gamemap w1 self = Ok p).
  { unfold w1. rewrite (Entity_gamemap_positioned _ _ _ _ _ He).
    apply (Entity_gamemap_owned _ _ _ _ _ He Hp Hmp). }
  rewrite Hg, Nat.eqb_refl, (remove_from_gamemap_run _ _ _ _ Hg Hmp1).
  unfold mem. rewrite bool_decide_eq_true_2 by done. fold mp'.
  assert (He2 : get_entity (store p (OGameMap mp') w1) self = Ok (set_y y (set_x x e)))
    by (by rewrite (get_entity_store_map _ _ _ _ _ Hmp1)).
  apply adopt_run; [done|]. unfold m2. destruct (decide (p = gm)) as [->|Hpg].
  - by eapply get_map_store_eq.
  - by rewrite get_map_store_ne.
Qed.

(** [place] returns when the entity has no owner yet, or is owned by a map
    that has it in its set. *)
Lemma place_returns w self e x y gm m :
  get_entity w self = Ok e → get_map w gm = Ok m →
  (ent_parent e = None ∨
   ∃ p mp, ent_parent e = Some p ∧ get_map w p = Ok mp ∧ self ∈ gm_entities mp) →
  ∃ w', place self x y (Some gm) w = (Ok tt, w').
Proof.
  intros He Hm [Hp|(p & mp & Hp & Hmp & Hin)].
  - rewrite (place_unowned_run _ _ _ _ _ _ _ He Hp Hm). eauto.
  - rewrite (place_owned_run _ _ _ _ _ _ _ _ _ He Hp Hmp Hin Hm). eauto.
Qed.

(** ** The blocking scan *)

(** Where no member but [self] blocks [(x, y)], the scan reports [self] or
    nothing. *)
Lemma blocking_scan_single w x y self es l :
  get_entity w self = Ok es →
  (∀ a, a ∈ l → a ≠ self →
     ∃ e', get_entity w a = Ok e' ∧
           ent_blocks_movement e' && (ent_x e' =? x) && (ent_y e' =? y) = false) →
  blocking_scan w l x y
  = Ok (if mem self l && (ent_blocks_movement es && (ent_x es =? x) && (ent_y es =? y))
        then Some self else None).
Proof.
  intros Hs. induction l as [|a l IH]; intros Hall; [reflexivity|].
  cbn [blocking_scan]. destruct (decide (a = self)) as [->|Hne].
  - rewrite Hs. cbn [mbind result_bind]. unfold mem at 1.
    rewrite bool_decide_eq_true_2 by left. cbn [andb].
    destruct (ent_blocks_movement es && (ent_x es =? x) && (ent_y es =? y)) eqn:Hb;
      [done|].
    rewrite IH; [by rewrite andb_false_r|]. intros b Hb' Hbs. apply Hall; [by right|done].
  - destruct (Hall a) as (e' & -> & Hnb); [by left|done|].
    cbn [mbind result_bind]. rewrite Hnb.
    rewrite IH; [|intros b Hb' Hbs; apply Hall; [by right|done]].
    unfold mem. replace (bool_decide (self ∈ a :: l)) with (bool_decide (self ∈ l)); [done|].
    apply bool_decide_ext. rewrite elem_of_cons. split; [auto|]. by intros [->|?].
Qed.
(** ** Claims about [place] *)

(** C10.  For an entity whose [parent] was never assigned and any map:
    [place(x, y, gamemap)] returns, removes nothing from any entity set,
    sets the position to [(x, y)], makes the map the owner and adds the
    entity to the map's set. *)
Theorem place_without_parent w self e x y gm m :
  get_entity w self = Ok e → ent_parent e = None → get_map w gm = Ok m →
  ∃ w' e',
    place self x y (Some gm) w = (Ok tt, w') ∧
    get_entity w' self = Ok e' ∧
    ent_x e' = x ∧ ent_y e' = y ∧ ent_parent e' = Some gm ∧
    get_map w' gm = Ok (set_entities (set_add self (gm_entities m)) m) ∧
    self ∈ set_add self (gm_entities m) ∧
    (∀ a, a ∈ gm_entities m → a ∈ set_add self (gm_entities m)) ∧
    (∀ g, g ≠ gm → get_map w' g = get_map w g).
Proof.
  intros He Hp Hm. eexists _, (set_parent gm (set_y y (set_x x e))).
  pose proof (positioned_entity _ _ x y _ He) as He1.
  assert (Hm3 : get_map (store self (OEntity (set_parent gm (set_y y (set_x x e))))
                               (positioned self x y e w)) gm = Ok m).
  { rewrite (get_map_store_entity _ _ _ _ _ He1). by rewrite positioned_map. }
  split_and!.
  - apply (place_unowned_run _ _ _ _ _ _ _ He Hp Hm).
  - rewrite (get_entity_store_map _ _ _ _ _ Hm3). by eapply get_entity_store_eq.
  - done.
  - done.
  - done.
  - by eapply get_map_store_eq.
  - apply elem_of_set_add. by right.
  - intros a Ha. apply elem_of_set_add. by left.
  - intros g Hne. rewrite get_map_store_ne by done.
    rewrite (get_map_store_entity _ _ _ _ _ He1). by rewrite positioned_map.
Qed.

(** C4, as the code has it.  For an entity whose owner is a map that has it
    in its entity set, and that is in no other map's set: after
    [place(x, y, new_map)] it is in the set of [new_map] and of no other map,
    its owner is [new_map] and its position is [(x, y)]. *)
Theorem place_moves_registration w self e p mp x y gm m :
  get_entity w self = Ok e → ent_parent e = Some p →
  get_map w p = Ok mp → self ∈ gm_entities mp →
  (∀ g mg, get_map w g = Ok mg → self ∈ gm_entities mg → g = p) →
  get_map w gm = Ok m →
  ∃ w' e',
    place self x y (Some gm) w = (Ok tt, w') ∧
    get_entity w' self = Ok e' ∧
    ent_x e' = x ∧ ent_y e' = y ∧ ent_parent e' = Some gm ∧
    (∃ m', get_map w' gm = Ok m') ∧
    (∀ g mg, get_map w' g = Ok mg → (self ∈ gm_entities mg ↔ g = gm)).
Proof.
  intros He Hp Hmp Hin Honly Hm.
  pose proof (place_owned_run _ _ _ _ _ x y _ _ He Hp Hmp Hin Hm) as Hrun.
  cbn zeta in Hrun.
  set (mp' := set_entities (filter (λ b, b ≠ self) (gm_entities mp)) mp) in *.
  set (m2 := if decide (p = gm) then mp' else m) in *.
  set (w1 := positioned self x y e w) in *.
  set (w2 := store p (OGameMap mp') w1) in *.
  set (e3 := set_parent gm (set_y y (set_x x e))) in *.
  set (w3 := store self (OEntity e3) w2) in *.
  assert (Hmp1 : get_map w1 p = Ok mp) by (unfold w1; by rewrite positioned_map).
  assert (He2 : get_entity w2 self = Ok (set_y y (set_x x e))).
  { unfold w2. rewrite (get_entity_store_map _ _ _ _ _ Hmp1).
    by apply positioned_entity. }
  assert (Hm2 : get_map w2 gm = Ok m2).
  { unfold w2, m2. destruct (decide (p = gm)) as [->|Hpg].
    - by eapply get_map_store_eq.
    - rewrite get_map_store_ne by done. unfold w1. by rewrite positioned_map. }
  assert (Hm3 : get_map w3 gm = Ok m2).
  { unfold w3. by rewrite (get_map_store_entity _ _ _ _ _ He2). }
  eexists _, e3. split_and!; [exact Hrun| |done|done|done| |].
  - rewrite (get_entity_store_map _ _ _ _ _ Hm3). by eapply get_entity_store_eq.
  - eexists. by eapply get_map_store_eq.
  - intros g mg. destruct (decide (g = gm)) as [->|Hne].
    + rewrite (get_map_store_eq _ _ _ _ Hm3). intros [= <-]. cbn.
      rewrite elem_of_set_add. tauto.
    + rewrite get_map_store_ne by done. unfold w3.
      rewrite (get_map_store_entity _ _ _ _ _ He2). intros Hg.
      split; [|done]. intros Hself. exfalso.
      unfold w2 in Hg. destruct (decide (g = p)) as [->|Hgp].
      * rewrite (get_map_store_eq _ _ _ _ Hmp1) in Hg. injection Hg as <-.
        apply elem_of_removed in Hself. tauto.
      * rewrite get_map_store_ne in Hg by done. unfold w1 in Hg.
        rewrite positioned_map in Hg by done. eauto.
Qed.

(** C8.  After [place(x, y, gamemap)] onto a map that has no other blocking
    entity at [(x, y)], [get_blocking_entity_at_location(x, y)] returns the
    placed entity if its [blocks_movement] flag is set and [None] if not.
    [place] returns at least when the entity has no owner yet or is in the
    entity set of the map that owns it. *)
Theorem place_then_blocking_entity w self e x y gm m :
  get_entity w self = Ok e → get_map w gm = Ok m →
  (∀ a, a ∈ gm_entities m → a ≠ self →
     ∃ e', get_entity w a = Ok e' ∧
           ent_blocks_movement e' && (ent_x e' =? x) && (ent_y e' =? y) = false) →
  (∀ w', place self x y (Some gm) w = (Ok tt, w') →
     get_blocking_entity_at_location w' gm x y
     = Ok (if ent_blocks_movement e then Some self else None))
  ∧ ((ent_parent e = None ∨
      ∃ p mp, ent_parent e = Some p ∧ get_map w p = Ok mp ∧ self ∈ gm_entities mp) →
     ∃ w', place self x y (Some gm) w = (Ok tt, w')).
Proof.
  intros He Hm Hfree. split; [|by apply (place_returns _ _ _ _ _ _ _ He Hm)].
  intros w' Hplace.
  destruct (place_Ok_shape _ _ _ _ _ _ _ _ He Hm Hplace)
    as (m2 & Hsub & Hm' & He' & Hother).
  unfold get_blocking_entity_at_location. rewrite Hm'. cbn [mbind result_bind].
  cbn [gm_entities set_entities].
  rewrite (blocking_scan_single _ _ _ _ _ _ He').
  - unfold mem. rewrite bool_decide_eq_true_2 by (apply elem_of_set_add; by right).
    cbn. rewrite !Z.eqb_refl. by rewrite !andb_true_r.
  - intros a [Ha| ->]%elem_of_set_add Hne; [|done].
    rewrite (Hother _ Hne). apply Hfree; auto.
Qed.
(** ** The scenes, evaluated *)

Ltac each_member H :=
  repeat (apply elem_of_cons in H as [->|H]); [..|by apply elem_of_nil in H].

(** The three cases in the shared-cell scene: an empty cell, the cell with a
    dead and a living actor, the cell with a dead actor alone. *)
Lemma get_actor_at_location_cases_witness :
  get_actor_at_location shared_cell_world 1%nat 0 0 = Ok None
  ∧ get_actor_at_location shared_cell_world 1%nat 1 1 = Ok (Some 8%nat)
  ∧ get_actor_at_location shared_cell_world 1%nat 2 2 = Ok None.
Proof.
  split_and!.
  - destruct (get_actor_at_location_cases shared_cell_world 1%nat _ 0 0 eq_refl)
      as (Hnone & _ & _).
    apply Hnone. intros a Ha. cbn in Ha. each_member Ha; reflexivity.
  - destruct (get_actor_at_location_cases shared_cell_world 1%nat _ 1 1 eq_refl)
      as (_ & Hone & _).
    apply Hone.
    + cbn. apply elem_of_cons. right. by left.
    + reflexivity.
    + intros b Hb Hliving. cbn in Hb.
      each_member Hb; [discriminate|reflexivity|discriminate].
  - destruct (get_actor_at_location_cases shared_cell_world 1%nat _ 2 2 eq_refl)
      as (_ & _ & Hdead).
    apply Hdead. intros a Ha Hact. cbn in Ha.
    each_member Ha; [discriminate|discriminate|reflexivity].
Defined.

(** The shared-cell scene, iterated dead actor first. *)
Lemma get_actor_at_location_skips_dead_witness :
  ∃ l1 a l2,
    [4; 8; 12]%nat = l1 ++ a :: l2 ∧
    (∀ b, b ∈ l1 → living_at shared_cell_world 1 1 b = false) ∧
    living_at shared_cell_world 1 1 a = true ∧ a ≠ 4%nat ∧
    get_actor_at_location (reorder shared_cell_world 1%nat [4; 8; 12]%nat) 1%nat 1 1
    = Ok (Some a).
Proof.
  eapply (get_actor_at_location_skips_dead shared_cell_world 1%nat _ 1 1 4%nat 8%nat).
  - reflexivity.
  - vm_compute. reflexivity.
  - by left.
  - right. by left.
  - reflexivity.
  - reflexivity.
Defined.

(** The entity of the two-maps scene that has no parent, placed on the
    second map. *)
Lemma place_without_parent_witness :
  ∃ w' e',
    place 1%nat 1 1 (Some 3%nat) two_maps_world = (Ok tt, w') ∧
    get_entity w' 1%nat = Ok e' ∧
    ent_x e' = 1 ∧ ent_y e' = 1 ∧ ent_parent e' = Some 3%nat ∧
    get_map w' 3%nat = Ok (set_entities (set_add 1%nat []) 
                             (mkGameMap 0%nat 3 3 [] (replicate 3 (replicate 3 wall_tile))
                                (replicate 3 (replicate 3 false))
                                (replicate 3 (replicate 3 false)))) ∧
    1%nat ∈ set_add 1%nat [] ∧
    (∀ a : Addr, a ∈ @nil Addr → a ∈ set_add 1%nat []) ∧
    (∀ g, g ≠ 3%nat → get_map w' g = get_map two_maps_world g).
Proof.
  eapply (place_without_parent two_maps_world 1%nat _ 1 1 3%nat); reflexivity.
Defined.

(** The entity of the two-maps scene that the first map owns, placed on the
    second map. *)
Lemma place_moves_registration_witness :
  ∃ w' e',
    place 4%nat 1 1 (Some 3%nat) two_maps_world = (Ok tt, w') ∧
    get_entity w' 4%nat = Ok e' ∧
    ent_x e' = 1 ∧ ent_y e' = 1 ∧ ent_parent e' = Some 3%nat ∧
    (∃ m', get_map w' 3%nat = Ok m') ∧
    (∀ g mg, get_map w' g = Ok mg → (4%nat ∈ gm_entities mg ↔ g = 3%nat)).
Proof.
  eapply (place_moves_registration two_maps_world 4%nat _ 2%nat _ 1 1 3%nat).
  - reflexivity.
  - reflexivity.
  - reflexivity.
  - vm_compute. apply elem_of_cons. right. by left.
  - intros g mg Hg Hin. destruct g as [|[|[|[|[|g]]]]]; vm_compute in Hg; try discriminate.
    + reflexivity.
    + injection Hg as <-. by apply elem_of_nil in Hin.
  - reflexivity.
Defined.

(** The blocking entity of the two-maps scene, placed on the empty second
    map and found there. *)
Lemma place_then_blocking_entity_witness :
  ∃ w', place 4%nat 1 1 (Some 3%nat) two_maps_world = (Ok tt, w') ∧
        get_blocking_entity_at_location w' 3%nat 1 1 = Ok (Some 4%nat).
Proof.
  destruct (place_then_blocking_entity two_maps_world 4%nat
              (mkEntity "Chest" "=" (255, 255, 255) 2 2 true CORPSE (Some 2%nat) ClsEntity)
              1 1 3%nat
              (mkGameMap 0%nat 3 3 [] (replicate 3 (replicate 3 wall_tile))
                 (replicate 3 (replicate 3 false)) (replicate 3 (replicate 3 false))))
    as [Hquery Hreturns].
  - reflexivity.
  - reflexivity.
  - intros a Ha. by apply elem_of_nil in Ha.
  - destruct Hreturns as [w' Hw'].
    + right. eexists 2%nat, _. split_and!; [reflexivity|reflexivity|].
      vm_compute. apply elem_of_cons. right. by left.
    + exists w'. split; [exact Hw'|]. exact (Hquery w' Hw').
Defined.

(** C4, as stated, does not hold.  The entity that the first map was given
    through its [entities] argument has no [parent]; [place] onto the second
    map leaves it in the set of both. *)
Lemma place_leaves_two_registrations : ¬ place_keeps_one_registration.
Proof.
  intros Hclaim.
  destruct (Hclaim two_maps_world 1%nat
              (mkEntity "Stairs" ">" (255, 255, 255) 0 0 false CORPSE None ClsEntity)
              1 1 3%nat
              (mkGameMap 0%nat 3 3 [] (replicate 3 (replicate 3 wall_tile))
                 (replicate 3 (replicate 3 false)) (replicate 3 (replicate 3 false)))
              2%nat
              (mkGameMap 0%nat 3 3 [1; 4]%nat (replicate 3 (replicate 3 wall_tile))
                 (replicate 3 (replicate 3 false)) (replicate 3 (replicate 3 false))))
    as (_ & Honly & _).
  - reflexivity.
  - reflexivity.
  - reflexivity.
  - intros g mg Hg. destruct g as [|[|[|[|[|g]]]]]; vm_compute in Hg; try discriminate.
    + injection Hg as <-. cbn. split; [done|]. intros _. by left.
    + injection Hg as <-. cbn. split; [|done]. intros []%elem_of_nil.
  - assert (Hin : (1%nat ∈ [1; 4]%nat) ↔ 2%nat = 3%nat).
    { eapply (Honly 2%nat (mkGameMap 0%nat 3 3 [1; 4]%nat _ _ _)). reflexivity. }
    assert (Habsurd : 2%nat = 3%nat) by (apply Hin; by left). discriminate.
Qed.
(** ** Actions *)

(** [MovementAction.perform] leaves the world as it was unless the
    destination was looked up and found free of blocking entities. *)
Lemma MovementAction_perform_frame engine w entity dx dy :
  exec (MovementAction_perform engine entity dx dy) w = w
  ∨ blocking_entity engine w entity dx dy = Ok None.
Proof.
  unfold exec, MovementAction_perform.
  rewrite run_bind. unfold read at 1.
  destruct (dest_xy w entity dx dy) as [d|ex] eqn:Hd; [|by left].
  rewrite run_bind. unfold read at 1.
  destruct (engine_game_map engine w entity) as [gm|ex] eqn:Hgm; [|by left].
  rewrite run_bind. unfold read at 1.
  destruct (in_bounds w gm d.1 d.2) as [inside|ex]; [|by left].
  destruct (negb inside); [by left|].
  rewrite run_bind. unfold read at 1. rewrite Hgm.
  rewrite run_bind. unfold read at 1.
  destruct (get_map w gm) as [m|ex] eqn:Hm; [|by left].
  rewrite run_bind. unfold read at 1.
  destruct (grid_at (gm_tiles m) d.1 d.2) as [tile|ex]; [|by left].
  destruct (negb (walkable tile)); [by left|].
  rewrite run_bind. unfold read at 1. rewrite Hgm.
  rewrite run_bind. unfold read at 1.
  destruct (get_blocking_entity_at_location w gm d.1 d.2) as [[b|]|ex] eqn:Hb;
    [by left| |by left].
  right. unfold blocking_entity. rewrite Hgm. cbn [mbind result_bind].
  by rewrite Hd.
Qed.

(** C2.  For every entity, displacement and world, and however the [engine]
    property resolves: what [BumpAction.perform] returns and the world it
    leaves are those of [MeléeAction.perform] when a blocking entity is at
    the destination, and those of [MovementAction.perform] when none is.
    When the destination cannot be looked up, the three raise and leave the
    world as it was. *)
Theorem BumpAction_dispatch engine w entity dx dy :
  match blocking_entity engine w entity dx dy with
  | Ok (Some _) =>
      BumpAction_perform engine entity dx dy w = MeleeAction_perform engine entity dx dy w
  | Ok None =>
      BumpAction_perform engine entity dx dy w = MovementAction_perform engine entity dx dy w
  | Raise ex =>
      BumpAction_perform engine entity dx dy w = (Raise ex, w)
      ∧ MeleeAction_perform engine entity dx dy w = (Raise ex, w)
      ∧ exec (MovementAction_perform engine entity dx dy) w = w
  end.
Proof.
  destruct (blocking_entity engine w entity dx dy) as [[t|]|ex] eqn:Hb.
  - unfold BumpAction_perform. rewrite run_bind. unfold read at 1. by rewrite Hb.
  - unfold BumpAction_perform. rewrite run_bind. unfold read at 1. by rewrite Hb.
  - split_and!.
    + unfold BumpAction_perform. rewrite run_bind. unfold read at 1. by rewrite Hb.
    + unfold MeleeAction_perform. rewrite run_bind. unfold read at 1. by rewrite Hb.
    + destruct (MovementAction_perform_frame engine w entity dx dy) as [Hw|Hfree];
        [done|congruence].
Qed.

(** [self.entity.game_map] raises for every entity, so [Action.engine]
    does. *)
Lemma Action_engine_raises w entity e :
  get_entity w entity = Ok e → Action_engine w entity = Raise AttributeError.
Proof.
  intros He. unfold Action_engine, attr_obj.
  by rewrite (getattr_game_map _ _ _ He).
Qed.

(** Every action with a direction ends in that [AttributeError], the world
    untouched. *)
Lemma directional_actions_raise w entity e dx dy :
  get_entity w entity = Ok e →
  perform (MovementAction entity dx dy) w = (Raise AttributeError, w)
  ∧ perform (MeleeAction entity dx dy) w = (Raise AttributeError, w)
  ∧ perform (BumpAction entity dx dy) w = (Raise AttributeError, w).
Proof.
  intros He. pose proof (Action_engine_raises _ _ _ He) as Heng.
  assert (Hgm : engine_game_map Action_engine w entity = Raise AttributeError)
    by (unfold engine_game_map; by rewrite Heng).
  assert (Hb : blocking_entity Action_engine w entity dx dy = Raise AttributeError)
    by (unfold blocking_entity; by rewrite Hgm).
  split_and!.
  - unfold perform. cbn [perform_via]. unfold MovementAction_perform.
    rewrite run_bind. unfold read at 1. unfold dest_xy at 1. rewrite He. cbn [mbind result_bind mret result_ret].
    rewrite run_bind. unfold read at 1. by rewrite Hgm.
  - unfold perform. cbn [perform_via]. unfold MeleeAction_perform. rewrite run_bind. unfold read at 1.
    by rewrite Hb.
  - unfold perform. cbn [perform_via]. unfold BumpAction_perform. rewrite run_bind. unfold read at 1.
    by rewrite Hb.
Qed.

(** [MovementAction.perform] once [self.engine.game_map] has resolved to a
    map: the three guards in order, then the move. *)
Lemma MovementAction_perform_resolved engine w entity e dx dy gm m :
  engine_game_map engine w entity = Ok gm →
  get_entity w entity = Ok e → get_map w gm = Ok m →
  let x' := ent_x e + dx in
  let y' := ent_y e + dy in
  MovementAction_perform engine entity dx dy w =
    if negb ((0 <=? x') && (x' <? gm_width m) && ((0 <=? y') && (y' <? gm_height m)))
    then (Ok tt, w)
    else match grid_at (gm_tiles m) x' y' with
         | Raise ex => (Raise ex, w)
         | Ok tile =>
             if negb (walkable tile) then (Ok tt, w)
             else match blocking_scan w (gm_entities m) x' y' with
                  | Raise ex => (Raise ex, w)
                  | Ok (Some _) => (Ok tt, w)
                  | Ok None =>
                      (Ok tt, store entity (OEntity (set_y y' (set_x x' e)))
                                (store entity (OEntity (set_x x' e)) w))
                  end
         end.
Proof.
  intros Hgm He Hm x' y'. unfold MovementAction_perform.
  rewrite run_bind. unfold read at 1. unfold dest_xy at 1. rewrite He.
  cbn [mbind result_bind mret result_ret fst snd].
  rewrite run_bind. unfold read at 1. rewrite Hgm.
  rewrite run_bind. unfold read at 1. unfold in_bounds. rewrite Hm.
  cbn [mbind result_bind mret result_ret]. fold x' y'.
  destruct (negb _); [reflexivity|].
  rewrite run_bind. unfold read at 1. rewrite Hgm.
  rewrite run_bind. unfold read at 1. rewrite Hm.
  rewrite run_bind. unfold read at 1.
  destruct (grid_at (gm_tiles m) x' y') as [tile|ex]; [|reflexivity].
  destruct (negb (walkable tile)); [reflexivity|].
  rewrite run_bind. unfold read at 1. rewrite Hgm.
  rewrite run_bind. unfold read at 1. unfold get_blocking_entity_at_location.
  rewrite Hm. cbn [mbind result_bind].
  destruct (blocking_scan w (gm_entities m) x' y') as [[b|]|ex]; try reflexivity.
  unfold move. rewrite run_bind, (update_entity_run _ _ _ _ He).
  rewrite (update_entity_run _ _ _ (set_x x' e)) by (by eapply get_entity_store_eq).
  reflexivity.
Qed.

(** What C1 says of [MovementAction.perform], for the code from the point
    where [self.engine.game_map] has resolved to a map: nothing changes when
    the destination is out of bounds, or its tile is not walkable, or a
    blocking entity is there; otherwise the position becomes exactly
    [(x + dx, y + dy)]. *)
Lemma MovementAction_perform_spec engine w entity e dx dy gm m :
  engine_game_map engine w entity = Ok gm →
  get_entity w entity = Ok e → get_map w gm = Ok m →
  let x' := ent_x e + dx in
  let y' := ent_y e + dy in
  (in_bounds w gm x' y' = Ok false →
     MovementAction_perform engine entity dx dy w = (Ok tt, w))
  ∧ (in_bounds w gm x' y' = Ok true → tile_walkable w gm x' y' = Ok false →
     MovementAction_perform engine entity dx dy w = (Ok tt, w))
  ∧ (∀ b, in_bounds w gm x' y' = Ok true → tile_walkable w gm x' y' = Ok true →
     get_blocking_entity_at_location w gm x' y' = Ok (Some b) →
     MovementAction_perform engine entity dx dy w = (Ok tt, w))
  ∧ (in_bounds w gm x' y' = Ok true → tile_walkable w gm x' y' = Ok true →
     get_blocking_entity_at_location w gm x' y' = Ok None →
     ∃ w', MovementAction_perform engine entity dx dy w = (Ok tt, w')
           ∧ position w' entity = Ok (x', y')).
Proof.
  intros Hgm He Hm x' y'.
  rewrite (MovementAction_perform_resolved _ _ _ _ dx dy _ _ Hgm He Hm).
  cbn zeta. fold x' y'. unfold in_bounds, tile_walkable, get_blocking_entity_at_location.
  rewrite Hm. cbn [mbind result_bind mret result_ret].
  destruct ((0 <=? x') && (x' <? gm_width m) && ((0 <=? y') && (y' <? gm_height m)));
    cbn [negb]; [|by split_and!; intros; try discriminate].
  destruct (grid_at (gm_tiles m) x' y') as [tile|ex]; cbn [mbind result_bind];
    [|by split_and!; intros; try discriminate].
  destruct (walkable tile); cbn [negb]; [|by split_and!; intros; try discriminate].
  destruct (blocking_scan w (gm_entities m) x' y') as [[b|]|ex];
    [by split_and!; intros; try discriminate| |by split_and!; intros; try discriminate].
  split_and!; intros; try discriminate.
  eexists. split; [reflexivity|].
  unfold position. erewrite get_entity_store_eq; [reflexivity|].
  by eapply get_entity_store_eq.
Qed.

(** The open field with the owner chain spelled [gamemap]: A moves from
    (5, 5) to (6, 5). *)
Lemma MovementAction_perform_spec_witness :
  ∃ w', MovementAction_perform engine_through_gamemap 4%nat 1 0 open_field_world = (Ok tt, w')
        ∧ position w' 4%nat = Ok (6, 5).
Proof.
  destruct (MovementAction_perform_spec engine_through_gamemap open_field_world 4%nat
              _ 1 0 1%nat _ eq_refl eq_refl eq_refl) as (_ & _ & _ & Hmove).
  apply Hmove; reflexivity.
Defined.

(** C1 at the open field: a 10 by 10 map of floor tiles, actor A at (5, 5)
    and nothing at (6, 5).  [MovementAction(A, 1, 0).perform()] raises
    [AttributeError] out of [Action.engine] and A stays at (5, 5), where the
    claim has A at (6, 5). *)
Theorem MovementAction_open_field :
  position open_field_world 4%nat = Ok (5, 5)
  ∧ in_bounds open_field_world 1%nat 6 5 = Ok true
  ∧ tile_walkable open_field_world 1%nat 6 5 = Ok true
  ∧ get_blocking_entity_at_location open_field_world 1%nat 6 5 = Ok None
  ∧ perform (MovementAction 4%nat 1 0) open_field_world
    = (Raise AttributeError, open_field_world)
  ∧ position (exec (perform (MovementAction 4%nat 1 0)) open_field_world) 4%nat
    = Ok (5, 5).
Proof.
  assert (Hraise : perform (MovementAction 4%nat 1 0) open_field_world
                   = (Raise AttributeError, open_field_world)).
  { eapply directional_actions_raise. reflexivity. }
  split_and!; [reflexivity..|exact Hraise|].
  unfold exec. rewrite Hraise. reflexivity.
Qed.

(** C6 at the open field: the three actions with a direction each raise
    [AttributeError], an error a caller can catch, and [EscapeAction] raises
    [SystemExit]; the claim has the three return normally. *)
Theorem actions_open_field :
  perform (MovementAction 4%nat 1 0) open_field_world
  = (Raise AttributeError, open_field_world)
  ∧ perform (MeleeAction 4%nat 1 0) open_field_world
    = (Raise AttributeError, open_field_world)
  ∧ perform (BumpAction 4%nat 1 0) open_field_world
    = (Raise AttributeError, open_field_world)
  ∧ recoverable AttributeError = true
  ∧ perform (EscapeAction 4%nat) open_field_world = (Raise SystemExit, open_field_world)
  ∧ recoverable SystemExit = false.
Proof.
  destruct (directional_actions_raise open_field_world 4%nat _ 1 0 eq_refl)
    as (Hmove & Hmelee & Hbump).
  split_and!; [exact Hmove|exact Hmelee|exact Hbump|reflexivity..].
Qed.
(** ** Deep copies *)

Lemma omap_lookup_all {A B} (f : A → option B) (l : list A) (i : nat) :
  (∀ x, x ∈ l → is_Some (f x)) → omap f l !! i = l !! i ≫= f.
Proof.
  revert i. induction l as [|x l IH]; intros i Hall; [done|].
  destruct (Hall x) as [y Hy]; [by left|]. cbn. rewrite Hy.
  destruct i as [|i]; cbn; [done|]. apply IH. intros z Hz. apply Hall. by right.
Qed.

Lemma elem_of_frontier h R a :
  a ∈ frontier h R ↔
  (a ∉ R) ∧ (a < length h)%nat ∧ ∃ b, b ∈ R ∧ a ∈ refs_at h b.
Proof.
  unfold frontier. rewrite elem_of_remove_dups, list_elem_of_filter, list_elem_of_bind.
  split.
  - intros [[Hn Hlt] (b & Ha & Hb)]. eauto.
  - intros (Hn & Hlt & b & Hb & Ha). eauto.
Qed.

Lemma frontier_nil_closed h R : frontier h R = [] → closed h R.
Proof.
  intros Hnil a b Ha Hb Hlt. destruct (decide (b ∈ R)) as [|Hn]; [done|].
  assert (Hin : b ∈ frontier h R) by (apply elem_of_frontier; eauto).
  rewrite Hnil in Hin. by apply elem_of_nil in Hin.
Qed.

Lemma closed_frontier_nil h R : closed h R → frontier h R = [].
Proof.
  intros Hc. destruct (frontier h R) as [|a l] eqn:Hf; [done|].
  assert (Hin : a ∈ frontier h R) by (rewrite Hf; by left).
  apply elem_of_frontier in Hin as (Hn & Hlt & b & Hb & Ha).
  destruct Hn. by eapply Hc.
Qed.

Lemma closed_grow h R : closed h R → grow h R = R.
Proof. intros Hc. unfold grow. rewrite (closed_frontier_nil _ _ Hc). apply app_nil_r. Qed.

Lemma NoDup_grow h R : NoDup R → NoDup (grow h R).
Proof.
  intros Hnd. apply NoDup_app. split_and!; [done| |apply NoDup_remove_dups].
  intros a Ha [Hn _]%elem_of_frontier. done.
Qed.

Lemma grow_allocated h R :
  (∀ a, a ∈ R → (a < length h)%nat) → ∀ a, a ∈ grow h R → (a < length h)%nat.
Proof.
  intros Hb a [Ha|Ha]%elem_of_app; [auto|].
  by apply elem_of_frontier in Ha as (_ & Hlt & _).
Qed.

Lemma iter_grow_invariant h R k :
  NoDup R → (∀ a, a ∈ R → (a < length h)%nat) →
  NoDup (Nat.iter k (grow h) R) ∧
  (∀ a, a ∈ Nat.iter k (grow h) R → (a < length h)%nat).
Proof.
  intros Hnd Hb. induction k as [|k [IH1 IH2]]; [done|].
  change (Nat.iter (S k) (grow h) R) with (grow h (Nat.iter k (grow h) R)). split.
  - by apply NoDup_grow.
  - by apply grow_allocated.
Qed.

(** A round that closes nothing adds an object. *)
Lemma iter_grow_progress h R k :
  closed h (Nat.iter k (grow h) R) ∨
  (length R + k ≤ length (Nat.iter k (grow h) R))%nat.
Proof.
  induction k as [|k IH]; [right; cbn; lia|].
  change (Nat.iter (S k) (grow h) R) with (grow h (Nat.iter k (grow h) R)).
  destruct IH as [Hc|Hlen]; [left; by rewrite closed_grow|].
  destruct (frontier h (Nat.iter k (grow h) R)) as [|a l] eqn:Hf.
  - left. unfold grow at 1. rewrite Hf, app_nil_r. by apply frontier_nil_closed.
  - right. unfold grow at 1. rewrite Hf, length_app. cbn. lia.
Qed.

Lemma NoDup_allocated_length (R : list Addr) n :
  NoDup R → (∀ a, a ∈ R → (a < n)%nat) → (length R ≤ n)%nat.
Proof.
  intros Hnd Hb. assert (Hsub : R ⊆+ seq 0%nat n).
  { apply NoDup_submseteq; [done|]. intros a Ha. apply elem_of_seq.
    specialize (Hb a Ha). lia. }
  apply submseteq_length in Hsub. by rewrite length_seq in Hsub.
Qed.

Lemma reachable_from_invariant h root :
  (root < length h)%nat →
  NoDup (reachable_from h root) ∧
  (∀ a, a ∈ reachable_from h root → (a < length h)%nat).
Proof.
  intros Hroot. apply iter_grow_invariant.
  - apply NoDup_singleton.
  - by intros a ->%list_elem_of_singleton.
Qed.

(** The rounds reach everything: the result is closed. *)
Lemma reachable_from_closed h root :
  (root < length h)%nat → closed h (reachable_from h root).
Proof.
  intros Hroot. destruct (iter_grow_progress h [root] (length h)) as [Hc|Hlen]; [done|].
  destruct (reachable_from_invariant h root Hroot) as [Hnd Hb].
  pose proof (NoDup_allocated_length _ _ Hnd Hb) as Hle.
  unfold reachable_from in Hle. change (length [root]) with 1%nat in Hlen.
  exfalso. eapply Nat.lt_irrefl, Nat.lt_le_trans; [|exact Hle]. exact Hlen.
Qed.

Lemma iter_grow_head h root k :
  ∃ tl, Nat.iter k (grow h) [root] = root :: tl.
Proof.
  induction k as [|k [tl IH]]; [by exists []|].
  change (Nat.iter (S k) (grow h) [root]) with (grow h (Nat.iter k (grow h) [root])).
  rewrite IH. unfold grow at 1. by eexists.
Qed.

Lemma reachable_from_head h root : ∃ tl, reachable_from h root = root :: tl.
Proof. apply iter_grow_head. Qed.

(** The memo sends a reached object to its copy and leaves every other
    address alone. *)
Lemma memo_reached R base a :
  a ∈ R → ∃ i, R !! i = Some a ∧ memo R base a = (base + i)%nat.
Proof.
  intros Ha. unfold memo.
  destruct (list_find_elem_of (λ b, b = a) R a Ha eq_refl) as [[i b] Hfind].
  rewrite Hfind. apply list_find_Some in Hfind as (Hi & -> & _). eauto.
Qed.

Lemma memo_unreached R base a : a ∉ R → memo R base a = a.
Proof.
  intros Hn. unfold memo.
  destruct (list_find (λ b, b = a) R) as [[i b]|] eqn:Hfind; [|done].
  apply list_find_Some in Hfind as (Hi & -> & _).
  destruct Hn. by eapply list_elem_of_lookup_2.
Qed.

Lemma memo_head tl base a : memo (a :: tl) base a = base.
Proof. unfold memo. cbn. rewrite decide_True by done. cbn. lia. Qed.

Lemma refs_rename f o : refs (rename f o) = f <$> refs o.
Proof.
  destruct o as [e|c|m|g]; cbn.
  - destruct (ent_parent e), (ent_cls e) as [|[ai|] ? ?|?]; reflexivity.
  - destruct (comp_parent c); reflexivity.
  - reflexivity.
  - destruct (eng_game_map g); reflexivity.
Qed.

Lemma components_rename_cls f c : components (rename_cls f c) = f <$> components c.
Proof. destruct c as [|[ai|] ? ?|?]; reflexivity. Qed.

Lemma refs_at_lookup h (a : Addr) o : h !! a = Some o → refs_at h a = refs o.
Proof. intros Ho. unfold refs_at. by rewrite Ho. Qed.

Lemma copies_allocated h root :
  (root < length h)%nat →
  ∀ a, a ∈ reachable_from h root →
       is_Some (rename (memo (reachable_from h root) (length h)) <$> h !! a).
Proof.
  intros Hroot a Ha. destruct (reachable_from_invariant h root Hroot) as [_ Hb].
  destruct (h !! a) as [o|] eqn:Ho; [by eexists|].
  apply lookup_ge_None in Ho. specialize (Hb a Ha). lia.
Qed.

(** The [i]-th new object is the [i]-th reached object with its references
    sent through the memo. *)
Lemma copies_lookup h root i :
  (root < length h)%nat →
  copies h (reachable_from h root) !! i
  = a ← reachable_from h root !! i;
    rename (memo (reachable_from h root) (length h)) <$> h !! a.
Proof. intros Hroot. apply omap_lookup_all. by apply copies_allocated. Qed.

(** A copy refers to copies only: no reference in a new object leads back
    into the old store. *)
Lemma copies_refs_fresh h root i o r :
  (root < length h)%nat →
  copies h (reachable_from h root) !! i = Some o → r ∈ refs o →
  (length h ≤ r)%nat.
Proof.
  intros Hroot Hi Hr. rewrite (copies_lookup _ _ _ Hroot) in Hi.
  destruct (reachable_from h root !! i) as [a|] eqn:Ha; [|done]. cbn in Hi.
  destruct (h !! a) as [o0|] eqn:Ho; [|done]. injection Hi as <-.
  rewrite refs_rename in Hr. apply list_elem_of_fmap in Hr as (r0 & -> & Hr0).
  destruct (reachable_from_invariant h root Hroot) as [_ Hb].
  destruct (decide (r0 ∈ reachable_from h root)) as [Hin|Hout].
  - destruct (memo_reached _ (length h) _ Hin) as (j & _ & ->). lia.
  - rewrite (memo_unreached _ _ _ Hout).
    destruct (decide (r0 < length h)%nat) as [Hlt|]; [|lia].
    destruct Hout. eapply (reachable_from_closed h root Hroot a r0); 
      [|by rewrite (refs_at_lookup _ _ _ Ho)|done].
    by eapply list_elem_of_lookup_2.
Qed.

Lemma deepcopy_run w root o :
  heap w !! root = Some o →
  deepcopy root w =
    (Ok (length (heap w)),
     set_heap (heap w ++ copies (heap w) (reachable_from (heap w) root)) w).
Proof.
  intros Ho. unfold deepcopy. rewrite Ho.
  destruct (reachable_from_head (heap w) root) as [tl ->].
  by rewrite memo_head.
Qed.

(** The copy of the root is the first new object. *)
Lemma copies_root h root o :
  h !! root = Some o →
  copies h (reachable_from h root) !! 0%nat
  = Some (rename (memo (reachable_from h root) (length h)) o).
Proof.
  intros Ho. rewrite copies_lookup by eauto using lookup_lt_Some.
  destruct (reachable_from_head h root) as [tl Heq]. rewrite Heq at 1.
  cbn. by rewrite Ho.
Qed.

(** ** [spawn] *)

Lemma lookup_set_heap_old w l a :
  (a < length (heap w))%nat → heap (set_heap (heap w ++ l) w) !! a = heap w !! a.
Proof. intros Hlt. cbn. by apply lookup_app_l. Qed.

Lemma lookup_set_heap_new w l i :
  heap (set_heap (heap w ++ l) w) !! (length (heap w) + i)%nat = l !! i.
Proof. cbn. rewrite lookup_app_r by lia. f_equal. lia. Qed.

Lemma lookup_set_heap_first w l :
  heap (set_heap (heap w ++ l) w) !! length (heap w) = l !! 0%nat.
Proof. cbn. rewrite lookup_app_r by lia. by rewrite Nat.sub_diag. Qed.

(** [spawn], statement by statement: the deep copy, the three assignments
    to the clone, the registration. *)
Lemma spawn_run w self e gm m x y :
  get_entity w self = Ok e → get_map w gm = Ok m →
  let n := length (heap w) in
  let R := reachable_from (heap w) self in
  let e1 := rename_entity (memo R n) e in
  let w1 := set_heap (heap w ++ copies (heap w) R) w in
  spawn self gm x y w =
    (Ok n, store gm (OGameMap (set_entities (set_add n (gm_entities m)) m))
             (store n (OEntity (set_parent gm (set_y y (set_x x e1))))
                (store n (OEntity (set_y y (set_x x e1)))
                   (store n (OEntity (set_x x e1)) w1)))).
Proof.
  intros He Hm n R e1 w1. apply get_entity_Ok in He as Hs. apply get_map_Ok in Hm as Hg.
  pose proof (allocated _ _ _ Hg) as Hgn.
  unfold spawn. rewrite run_bind, (deepcopy_run _ _ _ Hs). fold n R w1.
  assert (He1 : get_entity w1 n = Ok e1).
  { apply get_entity_Ok. unfold w1, n, R, e1.
    rewrite lookup_set_heap_first. by rewrite (copies_root _ _ _ Hs). }
  rewrite run_bind, (update_entity_run _ _ _ _ He1).
  rewrite run_bind, (update_entity_run _ _ _ (set_x x e1))
    by (by eapply get_entity_store_eq).
  rewrite run_bind, (update_entity_run _ _ _ (set_y y (set_x x e1)))
    by (eapply get_entity_store_eq; by eapply get_entity_store_eq).
  rewrite run_bind, (update_map_run gm _ _ m); [done|].
  apply get_map_Ok. rewrite !lookup_store_ne by (unfold n; lia).
  unfold w1. by rewrite lookup_set_heap_old.
Qed.

(** C5.  [spawn(gamemap, x, y)] on a template entity returns a new entity:
    its position is [(x, y)], its owner is the map, it is in the map's
    entity set, and its other attributes are the template's.  The template
    and every other object that existed before the call are as they were,
    the map's entity set apart.  The clone's components are new objects, and
    no new object refers to an old one but the clone to its map, so a write
    to a component of the clone changes no component of the template. *)
Theorem spawn_fresh_clone w self e gm m x y :
  get_entity w self = Ok e → get_map w gm = Ok m →
  let n := length (heap w) in
  ∃ w' e',
    spawn self gm x y w = (Ok n, w') ∧
    heap w !! n = None ∧
    get_entity w' n = Ok e' ∧
    ent_x e' = x ∧ ent_y e' = y ∧ ent_parent e' = Some gm ∧
    ent_name e' = ent_name e ∧ ent_char e' = ent_char e ∧
    ent_colour e' = ent_colour e ∧
    ent_blocks_movement e' = ent_blocks_movement e ∧
    ent_render_order e' = ent_render_order e ∧
    is_actor e' = is_actor e ∧ is_item e' = is_item e ∧ is_alive e' = is_alive e ∧
    get_map w' gm = Ok (set_entities (set_add n (gm_entities m)) m) ∧
    n ∈ set_add n (gm_entities m) ∧
    get_entity w' self = Ok e ∧
    (∀ a, (a < n)%nat → a ≠ gm → heap w' !! a = heap w !! a) ∧
    (∀ c, c ∈ components (ent_cls e') → (n ≤ c)%nat) ∧
    (∀ a o r, (n ≤ a)%nat → heap w' !! a = Some o → r ∈ refs o →
       (n ≤ r)%nat ∨ (a = n ∧ r = gm)) ∧
    (∀ c o a, c ∈ components (ent_cls e') → (a < n)%nat →
       heap (store c o w') !! a = heap w' !! a) ∧
    (∀ cT c0, cT ∈ components (ent_cls e) → get_component w cT = Ok c0 →
       get_component w' cT = Ok c0 ∧
       ∃ c c1, c ∈ components (ent_cls e') ∧ c ≠ cT ∧
               get_component w' c = Ok c1 ∧
               comp_cls c1 = comp_cls c0 ∧ comp_data c1 = comp_data c0).
Proof.
  intros He Hm n.
  pose proof (spawn_run _ _ _ _ _ x y He Hm) as Hrun. cbn zeta in Hrun. fold n in Hrun.
  set (R := reachable_from (heap w) self) in *.
  set (e1 := rename_entity (memo R n) e) in *.
  set (w1 := set_heap (heap w ++ copies (heap w) R) w) in *.
  set (e3 := set_parent gm (set_y y (set_x x e1))) in *.
  set (w4 := store n (OEntity e3)
               (store n (OEntity (set_y y (set_x x e1)))
                  (store n (OEntity (set_x x e1)) w1))) in *.
  apply get_entity_Ok in He as Hs. apply get_map_Ok in Hm as Hg.
  pose proof (allocated _ _ _ Hs) as Hsn. pose proof (allocated _ _ _ Hg) as Hgn.
  fold n in Hsn, Hgn.
  assert (Hroot : copies (heap w) R !! 0%nat = Some (OEntity e1))
    by apply (copies_root _ _ _ Hs).
  assert (Hlen1 : (n < length (heap w1))%nat).
  { unfold w1. cbn. rewrite length_app. apply lookup_lt_Some in Hroot. fold n. lia. }
  assert (Hlen4 : length (heap w4) = length (heap w1))
    by (unfold w4; by rewrite !length_store).
  assert (Hn4 : heap w4 !! n = Some (OEntity e3)).
  { unfold w4. apply lookup_store_eq. by rewrite !length_store. }
  assert (Hold4 : ∀ a, (a < n)%nat → heap w4 !! a = heap w !! a).
  { intros a Ha. unfold w4. rewrite !lookup_store_ne by lia.
    unfold w1. by apply lookup_set_heap_old. }
  assert (Hnew4 : ∀ i, heap w4 !! (n + S i)%nat = copies (heap w) R !! S i).
  { intros i. unfold w4. rewrite !lookup_store_ne by lia.
    unfold w1, n. apply lookup_set_heap_new. }
  assert (Hcomp : ∀ c, c ∈ components (ent_cls e3) → (n ≤ c)%nat).
  { intros c Hc. apply (copies_refs_fresh (heap w) self 0%nat (OEntity e1) c Hsn Hroot).
    cbn [refs]. apply elem_of_app. right. exact Hc. }
  exists (store gm (OGameMap (set_entities (set_add n (gm_entities m)) m)) w4), e3.
  split_and!; try done.
  - by apply lookup_ge_None.
  - apply get_entity_Ok. rewrite lookup_store_ne by lia. exact Hn4.
  - unfold is_actor. cbn. by destruct (ent_cls e).
  - unfold is_item. cbn. by destruct (ent_cls e).
  - unfold is_alive. cbn. by destruct (ent_cls e) as [|[?|] ? ?|?].
  - apply get_map_Ok, lookup_store_eq. rewrite Hlen4. lia.
  - apply elem_of_set_add. by right.
  - apply get_entity_Ok. rewrite lookup_store_ne by (intros ->; congruence).
    by rewrite Hold4.
  - intros a Ha Hne. rewrite lookup_store_ne by done. by apply Hold4.
  - intros a o r Ha Ho Hr. rewrite lookup_store_ne in Ho by lia.
    destruct (decide (a = n)) as [->|Hne].
    + rewrite Hn4 in Ho. injection Ho as <-. cbn [refs] in Hr.
      apply elem_of_app in Hr as [Hr|Hr].
      * right. cbn in Hr. by apply list_elem_of_singleton in Hr.
      * left. by apply Hcomp.
    + left. replace a with (n + S (a - n - 1))%nat in Ho by lia.
      rewrite Hnew4 in Ho. by eapply (copies_refs_fresh (heap w) self).
  - intros c o a Hc Ha. apply lookup_store_ne. specialize (Hcomp c Hc). lia.
  - intros cT c0 HcT Hc0. apply get_component_Ok in Hc0 as Hc0'.
    pose proof (allocated _ _ _ Hc0') as HcTn. fold n in HcTn.
    assert (HcTg : cT ≠ gm) by (intros ->; congruence).
    split.
    { apply get_component_Ok. rewrite lookup_store_ne by done. by rewrite Hold4. }
    assert (Hreach : cT ∈ R).
    { apply (reachable_from_closed (heap w) self Hsn self cT); [| |done].
      - destruct (reachable_from_head (heap w) self) as [tl Heq].
        unfold R. rewrite Heq. by left.
      - rewrite (refs_at_lookup _ _ _ Hs). cbn [refs]. apply elem_of_app. by right. }
    destruct (memo_reached R n cT Hreach) as (i & Hi & Hmemo).
    destruct i as [|i].
    { destruct (reachable_from_head (heap w) self) as [tl Heq].
      unfold R in Hi. rewrite Heq in Hi. injection Hi as ->. congruence. }
    exists (memo R n cT), (mkComponent (comp_cls c0) (memo R n <$> comp_parent c0)
                             (memo R n <$> comp_refs c0) (comp_data c0)).
    split_and!; [|lia| |done|done].
    + change (ent_cls e3) with (rename_cls (memo R n) (ent_cls e)).
      rewrite components_rename_cls. by apply list_elem_of_fmap_2.
    + apply get_component_Ok. rewrite lookup_store_ne by lia.
      rewrite Hmemo, Hnew4, (copies_lookup _ _ _ Hsn). fold R. rewrite Hi. cbn.
      by rewrite Hc0'.
Qed.

(** The actor of the open field as a template, spawned at (7, 5). *)
Lemma spawn_fresh_clone_witness :
  ∃ w' e',
    spawn 4%nat 1%nat 7 5 open_field_world = (Ok 6%nat, w') ∧
    get_entity w' 6%nat = Ok e' ∧
    ent_x e' = 7 ∧ ent_y e' = 5 ∧ ent_parent e' = Some 1%nat ∧
    ent_name e' = "Player" ∧
    get_entity w' 4%nat = get_entity open_field_world 4%nat ∧
    (∀ c, c ∈ components (ent_cls e') → (6 ≤ c)%nat).
Proof.
  destruct (spawn_fresh_clone open_field_world 4%nat _ 1%nat _ 7 5 eq_refl eq_refl)
    as (w' & e' & Hrun & _ & He' & Hx & Hy & Hp & Hname & _ & _ & _ & _ & _ & _ & _
        & _ & _ & Hself & _ & Hcomp & _).
  exists w', e'. split_and!; try done.
Defined.

(** ** Computations that keep an invariant *)

Lemma hoare_bind {A B} P (m : M A) Q (k : A → M B) R I :
  hoare P m Q I → (∀ a, hoare (Q a) (k a) R I) → hoare P (m ≫= k) R I.
Proof.
  intros Hm Hk w HP. rewrite run_bind. specialize (Hm w HP).
  destruct (m w) as [[a|ex] w']; [by apply Hk|done].
Qed.

Lemma keeps_ret {A} I (a : A) : keeps I (mret a).
Proof. by intros w Hw. Qed.

Lemma keeps_bind {A B} I (m : M A) (k : A → M B) :
  keeps I m → (∀ a, keeps I (k a)) → keeps I (m ≫= k).
Proof. intros Hm Hk. by eapply hoare_bind. Qed.

Lemma keeps_read {A} I (f : World → result A) : keeps I (read f).
Proof. intros w Hw. unfold read. by destruct (f w). Qed.

Lemma keeps_raise {A} I ex : keeps I (@raise A ex).
Proof. by intros w Hw. Qed.

Lemma keeps_modify I f : (∀ w, I w → I (f w)) → keeps I (modify f).
Proof. intros Hf w Hw. by apply Hf. Qed.

(** What [keeps] says of the world a computation leaves. *)
Lemma keeps_exec {A} I (m : M A) w : keeps I m → I w → I (exec m w).
Proof.
  intros Hm Hw. specialize (Hm w Hw). unfold exec.
  by destruct (m w) as [[a|ex] w'].
Qed.

(** ** Actors keep blocking *)

Lemma actors_block_Forall w : actors_block w ↔ Forall blocks_if_actor (heap w).
Proof.
  rewrite Forall_lookup. split.
  - intros Hw a [e| | |] Ha; try done. cbn. apply (Hw a). by apply get_entity_Ok.
  - intros Hall a e He%get_entity_Ok. apply (Hall a _ He).
Qed.

Lemma actors_block_store a o w :
  blocks_if_actor o → actors_block w → actors_block (store a o w).
Proof.
  rewrite !actors_block_Forall, heap_store. intros Ho Hw.
  destruct (decide (a < length (heap w))%nat).
  - by apply Forall_insert.
  - by rewrite list_insert_ge by lia.
Qed.

Lemma actors_block_append l w :
  Forall blocks_if_actor l → actors_block w → actors_block (set_heap (heap w ++ l) w).
Proof. rewrite !actors_block_Forall. intros Hl Hw. cbn. by apply Forall_app. Qed.

Lemma keeps_alloc o : blocks_if_actor o → keeps actors_block (alloc o).
Proof.
  intros Ho w Hw. cbn. apply actors_block_append; [|done].
  by apply Forall_singleton.
Qed.

Lemma keeps_store a o : blocks_if_actor o → keeps actors_block (modify (store a o)).
Proof. intros Ho. apply keeps_modify. intros w. by apply actors_block_store. Qed.

(** An assignment to an attribute other than the flag and the class. *)
Lemma keeps_update_entity a f :
  (∀ e, (is_actor e = true → ent_blocks_movement e = true) →
        is_actor (f e) = true → ent_blocks_movement (f e) = true) →
  keeps actors_block (update_entity a f).
Proof.
  intros Hf w Hw. unfold update_entity. rewrite run_bind. unfold read.
  destruct (get_entity w a) as [e|ex] eqn:He; [|done].
  cbn. apply actors_block_store; [|done]. cbn. apply Hf. by apply (Hw a).
Qed.

Lemma keeps_update_map a f : keeps actors_block (update_map a f).
Proof.
  intros w Hw. unfold update_map. rewrite run_bind. unfold read.
  destruct (get_map w a) as [m|ex]; [|done]. cbn. by apply actors_block_store.
Qed.

Lemma keeps_update_component a f : keeps actors_block (update_component a f).
Proof.
  intros w Hw. unfold update_component. rewrite run_bind. unfold read.
  destruct (get_component w a) as [m|ex]; [|done]. cbn. by apply actors_block_store.
Qed.

Lemma blocks_if_actor_rename f o : blocks_if_actor o → blocks_if_actor (rename f o).
Proof.
  destruct o as [e| | |]; cbn; try done.
  unfold is_actor. cbn. by destruct (ent_cls e).
Qed.

Lemma keeps_deepcopy root : keeps actors_block (deepcopy root).
Proof.
  intros w Hw. unfold deepcopy. destruct (heap w !! root) as [o1|]; [|done].
  apply actors_block_append; [|done]. apply Forall_forall. intros o Ho.
  unfold copies in Ho. apply list_elem_of_omap in Ho as (a & _ & Ha).
  destruct (heap w !! a) as [o0|] eqn:Ho0; [|done]. injection Ha as <-.
  apply blocks_if_actor_rename. apply actors_block_Forall in Hw.
  by eapply Forall_lookup_1.
Qed.

Ltac keeps_flags :=
  let e := fresh "e" in
  let H := fresh "H" in
  intros e H; cbn; try exact H.

Ltac keeps_auto :=
  repeat first
    [ apply keeps_ret
    | apply keeps_read
    | apply keeps_raise
    | apply keeps_update_map
    | apply keeps_update_component
    | apply keeps_deepcopy
    | apply keeps_update_entity; keeps_flags
    | apply keeps_bind; [|intros ?] ].

Lemma keeps_new_engine : keeps actors_block new_engine.
Proof. by apply keeps_alloc. Qed.

Lemma keeps_set_engine_game_map eng gm :
  keeps actors_block (set_engine_game_map eng gm).
Proof. unfold set_engine_game_map. keeps_auto. by apply keeps_store. Qed.

Lemma keeps_new_component cls data : keeps actors_block (new_component cls data).
Proof. by apply keeps_alloc. Qed.

Lemma keeps_fill_tiles gm tile : keeps actors_block (fill_tiles gm tile).
Proof. unfold fill_tiles. keeps_auto. Qed.

Lemma keeps_clear_ai a : keeps actors_block (clear_ai a).
Proof.
  unfold clear_ai. apply keeps_update_entity. intros e He.
  unfold is_actor in *. destruct (ent_cls e) eqn:Hcls; cbn; rewrite ?Hcls; auto.
Qed.

Lemma keeps_GameMap_init wall engine width height entities :
  keeps actors_block (GameMap_init wall engine width height entities).
Proof. unfold GameMap_init. keeps_auto. by apply keeps_alloc. Qed.

(** [Entity.__init__] keeps the invariant when the instance is not an actor
    or the flag it is given is set. *)
Lemma keeps_Entity_init cls name char colour x y blocks_movement parent render_order :
  (match cls with ClsActor _ _ _ => blocks_movement = true | _ => True end) →
  keeps actors_block
    (Entity_init cls name char colour x y blocks_movement parent render_order).
Proof.
  intros Hcls. unfold Entity_init. apply keeps_bind.
  - apply keeps_alloc. cbn. unfold is_actor. cbn. by destruct cls.
  - intros self. destruct parent; keeps_auto.
Qed.

Lemma keeps_Item_init x y char colour name consumable :
  keeps actors_block (Item_init x y char colour name consumable).
Proof. unfold Item_init. apply keeps_bind; [by apply keeps_Entity_init|]. intros self. keeps_auto. Qed.

Lemma keeps_spawn self gm x y : keeps actors_block (spawn self gm x y).
Proof. unfold spawn. keeps_auto. Qed.

Lemma keeps_place self x y gm : keeps actors_block (place self x y gm).
Proof.
  unfold place. keeps_auto. destruct gm as [g|]; [|apply keeps_ret].
  keeps_auto.
  match goal with |- keeps _ (if ?b then _ else _) => destruct b end; keeps_auto.
  destruct (_ =? _)%nat; [|apply keeps_ret].
  unfold remove_from_gamemap. keeps_auto. by apply keeps_store.
Qed.

Lemma keeps_move self dx dy : keeps actors_block (move self dx dy).
Proof. unfold move. keeps_auto. Qed.

Lemma keeps_print line : keeps actors_block (print line).
Proof.
  apply keeps_modify. intros w. by rewrite !actors_block_Forall.
Qed.

Lemma keeps_MovementAction_perform engine entity dx dy :
  keeps actors_block (MovementAction_perform engine entity dx dy).
Proof.
  unfold MovementAction_perform. keeps_auto.
  destruct (negb _); [apply keeps_ret|]. keeps_auto.
  destruct (negb _); [apply keeps_ret|]. keeps_auto.
  match goal with |- keeps _ (match ?b with _ => _ end) => destruct b end;
    [apply keeps_ret|apply keeps_move].
Qed.

Lemma keeps_MeleeAction_perform engine entity dx dy :
  keeps actors_block (MeleeAction_perform engine entity dx dy).
Proof.
  unfold MeleeAction_perform. keeps_auto.
  match goal with |- keeps _ (match ?b with _ => _ end) => destruct b end;
    [|apply keeps_ret].
  keeps_auto. apply keeps_print.
Qed.

Lemma keeps_perform_via engine a : keeps actors_block (perform_via engine a).
Proof.
  destruct a; cbn [perform_via]; try apply keeps_raise.
  - apply keeps_MovementAction_perform.
  - apply keeps_MeleeAction_perform.
  - unfold BumpAction_perform. keeps_auto.
    match goal with |- keeps _ (match ?b with _ => _ end) => destruct b end;
      [apply keeps_MeleeAction_perform|apply keeps_MovementAction_perform].
Qed.

(** ** [Actor.__init__] *)

Lemma Actor_init_unfold x y char colour name ai_cls fighter inventory w :
  let n := length (heap w) in
  Actor_init x y char colour name ai_cls fighter inventory w =
    (update_component fighter (set_comp_parent n);;
     update_component inventory (set_comp_parent n);;
     mret n)
      (actor_allocated x y char colour name ai_cls fighter inventory w).
Proof.
  intros n. unfold Actor_init, Entity_init. rewrite !run_bind. cbn [alloc mret M_ret].
  rewrite run_bind. cbn [alloc]. rewrite run_bind.
  set (e0 := mkEntity name char colour x y true ACTOR None (ClsActor None fighter inventory)).
  set (w2 := set_heap (heap (set_heap (heap w ++ [OEntity e0]) w) ++ _) _).
  assert (He0 : get_entity w2 n = Ok e0).
  { apply get_entity_Ok. unfold w2. cbn. rewrite lookup_app_l by (rewrite length_app; cbn; lia).
    rewrite lookup_app_r by lia. by rewrite Nat.sub_diag. }
  rewrite (update_entity_run _ _ _ _ He0). f_equal.
  unfold actor_allocated, store, set_heap, w2. cbn. f_equal.
  rewrite <- app_assoc. cbn. rewrite insert_app_r_alt by lia.
  rewrite Nat.sub_diag. cbn. do 3 f_equal. by rewrite length_app, Nat.add_1_r.
Qed.

Lemma actor_allocated_entity x y char colour name ai_cls fighter inventory w :
  get_entity (actor_allocated x y char colour name ai_cls fighter inventory w)
             (length (heap w))
  = Ok (constructed_actor x y char colour name (S (length (heap w))) fighter inventory).
Proof.
  apply get_entity_Ok. unfold actor_allocated. cbn.
  rewrite lookup_app_r by lia. by rewrite Nat.sub_diag.
Qed.

(** Assigning a component's back-reference changes no entity. *)
Lemma get_entity_update_component w c f r w' a :
  update_component c f w = (r, w') → get_entity w' a = get_entity w a.
Proof.
  unfold update_component. rewrite run_bind. unfold read.
  destruct (get_component w c) as [c0|ex] eqn:Hc; [|by intros [= _ <-]].
  cbn. intros [= _ <-]. apply get_component_Ok in Hc.
  destruct (decide (c = a)) as [->|Hne]; [|by apply get_entity_store_ne].
  unfold get_entity. rewrite lookup_store_eq by eauto using allocated. by rewrite Hc.
Qed.

(** When [Actor.__init__] returns, it returns a new object that is an
    actor with the flag set and the render order [ACTOR]. *)
Lemma Actor_init_Ok x y char colour name ai_cls fighter inventory w a w' :
  Actor_init x y char colour name ai_cls fighter inventory w = (Ok a, w') →
  a = length (heap w) ∧
  get_entity w' a
  = Ok (constructed_actor x y char colour name (S (length (heap w))) fighter inventory).
Proof.
  rewrite Actor_init_unfold. cbn zeta.
  pose proof (actor_allocated_entity x y char colour name ai_cls fighter inventory w) as He.
  set (w3 := actor_allocated x y char colour name ai_cls fighter inventory w) in *.
  rewrite run_bind.
  destruct (update_component fighter _ w3) as [[[]|ex] w4] eqn:Hf; [|done].
  rewrite run_bind.
  destruct (update_component inventory _ w4) as [[[]|ex] w5] eqn:Hi; [|done].
  intros [= <- <-]. split; [done|].
  by rewrite (get_entity_update_component _ _ _ _ _ _ Hi),
             (get_entity_update_component _ _ _ _ _ _ Hf).
Qed.

(** [Actor.__init__] returns when [fighter] and [inventory] are component
    objects. *)
Lemma Actor_init_returns x y char colour name ai_cls fighter inventory w cf ci :
  get_component w fighter = Ok cf → get_component w inventory = Ok ci →
  ∃ w', Actor_init x y char colour name ai_cls fighter inventory w
        = (Ok (length (heap w)), w').
Proof.
  intros Hf%get_component_Ok Hi%get_component_Ok.
  pose proof (allocated _ _ _ Hf) as Hfn. pose proof (allocated _ _ _ Hi) as Hin.
  rewrite Actor_init_unfold. cbn zeta.
  set (w3 := actor_allocated x y char colour name ai_cls fighter inventory w).
  assert (Hf3 : get_component w3 fighter = Ok cf).
  { apply get_component_Ok. unfold w3, actor_allocated. by rewrite lookup_set_heap_old. }
  assert (Hi3 : get_component w3 inventory = Ok ci).
  { apply get_component_Ok. unfold w3, actor_allocated. by rewrite lookup_set_heap_old. }
  rewrite run_bind. unfold update_component at 1. rewrite run_bind. unfold read at 1.
  rewrite Hf3. cbn [modify]. rewrite run_bind.
  unfold update_component. rewrite run_bind. unfold read.
  destruct (decide (fighter = inventory)) as [->|Hne].
  - erewrite (proj2 (get_component_Ok _ _ _)); [by eexists|].
    apply lookup_store_eq. apply get_component_Ok in Hi3. eauto using allocated.
  - rewrite (proj2 (get_component_Ok _ _ ci)); [by eexists|].
    rewrite lookup_store_ne by done. by apply get_component_Ok.
Qed.

Lemma keeps_Actor_init x y char colour name ai_cls fighter inventory :
  keeps actors_block (Actor_init x y char colour name ai_cls fighter inventory).
Proof.
  intros w Hw. rewrite Actor_init_unfold. cbn zeta.
  assert (Hk : keeps actors_block
                 (update_component fighter (set_comp_parent (length (heap w)));;
                  update_component inventory (set_comp_parent (length (heap w)));;
                  mret (length (heap w)))) by keeps_auto.
  apply Hk. unfold actor_allocated. apply actors_block_append; [|done].
  repeat constructor.
Qed.

Lemma keeps_same_shape {A B} (g : list (list A)) (g' : list (list B)) :
  keeps actors_block (same_shape g g').
Proof. unfold same_shape. case_bool_decide; [apply keeps_ret|apply keeps_raise]. Qed.

Lemma keeps_set_tile gm x y tile : keeps actors_block (set_tile gm x y tile).
Proof. unfold set_tile. keeps_auto. by apply keeps_store. Qed.

Lemma keeps_set_visible gm visible : keeps actors_block (set_visible gm visible).
Proof.
  unfold set_visible. keeps_auto; first [apply keeps_same_shape|by apply keeps_store].
Qed.

Lemma keeps_entities_remove gm a : keeps actors_block (entities_remove gm a).
Proof. unfold entities_remove. keeps_auto. by apply keeps_store. Qed.

(** Every step of a program keeps the invariant. *)
Lemma step_actors_block w w' : actors_block w → step w w' → actors_block w'.
Proof.
  intros IH Hstep. destruct Hstep; apply keeps_exec; try done.
  - apply keeps_new_engine.
  - apply keeps_set_engine_game_map.
  - apply keeps_new_component.
  - apply keeps_fill_tiles.
  - apply keeps_clear_ai.
  - apply keeps_GameMap_init.
  - by apply keeps_Entity_init.
  - apply keeps_Actor_init.
  - apply keeps_Item_init.
  - apply keeps_spawn.
  - apply keeps_place.
  - apply keeps_move.
  - apply keeps_perform_via.
  - apply keeps_set_tile.
  - apply keeps_set_visible.
  - apply keeps_entities_remove.
Qed.

Lemma rtc_step_actors_block w w' : actors_block w → rtc step w w' → actors_block w'.
Proof. intros Hw Hrtc. induction Hrtc; eauto using step_actors_block. Qed.

Lemma empty_world_actors_block : actors_block empty_world.
Proof. apply actors_block_Forall. constructor. Qed.

(** Every world a program reaches has the invariant. *)
Lemma reachable_actors_block w : reachable w → actors_block w.
Proof. apply rtc_step_actors_block, empty_world_actors_block. Qed.

(** C9.  [Actor.__init__] makes the actor with [blocks_movement] set and
    render order [ACTOR], whatever arguments it is given and in whatever
    world, and it returns whenever its two components exist.  No constructor
    or method of these files, and no write of their callers to the grids or
    the entity set, assigns the flag afterwards: each step keeps every actor
    blocking.  So in every world that such steps reach, from the empty store
    or from any store whose actors block, a cell whose only occupant is an
    actor, living or dead, is reported occupied by that actor. *)
Theorem actor_cell_is_occupied :
  (∀ w x y char colour name ai_cls fighter inventory a w',
     Actor_init x y char colour name ai_cls fighter inventory w = (Ok a, w') →
     ∃ e, get_entity w' a = Ok e ∧ is_actor e = true ∧
          ent_blocks_movement e = true ∧ ent_render_order e = ACTOR)
  ∧ (∀ w x y char colour name ai_cls fighter inventory cf ci,
       get_component w fighter = Ok cf → get_component w inventory = Ok ci →
       ∃ a w', Actor_init x y char colour name ai_cls fighter inventory w = (Ok a, w'))
  ∧ actors_block empty_world
  ∧ (∀ w w', actors_block w → step w w' → actors_block w')
  ∧ (∀ w0 w gm m x y a e,
       actors_block w0 → rtc step w0 w →
       get_map w gm = Ok m → a ∈ gm_entities m →
       get_entity w a = Ok e → is_actor e = true → ent_x e = x → ent_y e = y →
       (∀ b, b ∈ gm_entities m → b ≠ a →
          ∃ e', get_entity w b = Ok e' ∧ (ent_x e' =? x) && (ent_y e' =? y) = false) →
       get_blocking_entity_at_location w gm x y = Ok (Some a)).
Proof.
  split_and!.
  - intros w x y char colour name ai_cls fighter inventory a w' Hinit.
    destruct (Actor_init_Ok _ _ _ _ _ _ _ _ _ _ _ Hinit) as [_ He].
    eexists. split; [exact He|]. by cbn.
  - intros w x y char colour name ai_cls fighter inventory cf ci Hf Hi.
    destruct (Actor_init_returns x y char colour name ai_cls _ _ _ _ _ Hf Hi) as [w' Hw'].
    eauto.
  - apply empty_world_actors_block.
  - apply step_actors_block.
  - intros w0 w gm m x y a e Hw0 Hrtc Hm Hin He Hact Hx Hy Honly.
    unfold get_blocking_entity_at_location. rewrite Hm. cbn [mbind result_bind].
    rewrite (blocking_scan_single _ _ _ _ _ _ He).
    + unfold mem. rewrite bool_decide_eq_true_2 by done.
      rewrite (rtc_step_actors_block _ _ Hw0 Hrtc _ _ He Hact), Hx, Hy.
      by rewrite !Z.eqb_refl.
    + intros b Hb Hne. destruct (Honly b Hb Hne) as (e' & He' & Hpos).
      exists e'. split; [done|]. rewrite <- andb_assoc, Hpos. apply andb_false_r.
Qed.

(** The shared-cell scene, call by call. *)
Lemma shared_cell_world_reachable : reachable shared_cell_world.
Proof.
  replace shared_cell_world with
    (exec (clear_ai 12%nat)
    (exec (clear_ai 4%nat)
    (exec (place 12%nat 2 2 (Some 1%nat))
    (exec (place 8%nat 1 1 (Some 1%nat))
    (exec (place 4%nat 1 1 (Some 1%nat))
    (exec (Actor_init 0 0 "@" (255, 255, 255) "Rat" base_ai 10%nat 11%nat)
    (exec (new_component ClsInventory [26])
    (exec (new_component ClsFighter [30; 2; 5])
    (exec (Actor_init 0 0 "@" (255, 255, 255) "Troll" base_ai 6%nat 7%nat)
    (exec (new_component ClsInventory [26])
    (exec (new_component ClsFighter [30; 2; 5])
    (exec (Actor_init 0 0 "@" (255, 255, 255) "Orc" base_ai 2%nat 3%nat)
    (exec (new_component ClsInventory [26])
    (exec (new_component ClsFighter [30; 2; 5])
    (exec (fill_tiles 1%nat floor_tile)
    (exec (set_engine_game_map 0%nat 1%nat)
    (exec (GameMap_init wall_tile 0%nat 3 3 [])
    (exec new_engine empty_world))))))))))))))))))
    by (vm_compute; reflexivity).
  unfold reachable.
  do 2 (eapply rtc_r; [|apply step_clear_ai]).
  do 3 (eapply rtc_r; [|apply step_place]).
  do 3 (eapply rtc_r; [|apply step_Actor_init];
        do 2 (eapply rtc_r; [|apply step_new_component])).
  eapply rtc_r; [|apply step_fill_tiles].
  eapply rtc_r; [|apply step_set_engine_game_map].
  eapply rtc_r; [|apply step_GameMap_init].
  eapply rtc_r; [|apply step_new_engine].
  apply rtc_refl.
Qed.

(** The lit shared-cell scene: two writes of the callers later. *)
Lemma lit_shared_cell_world_reachable : reachable lit_shared_cell_world.
Proof.
  replace lit_shared_cell_world with
    (exec (set_visible 1%nat [[true; true; true]; [true; true; false];
                              [false; false; false]])
    (exec (set_tile 1%nat 0 (-1) wall_tile) shared_cell_world))
    by (vm_compute; reflexivity).
  unfold reachable.
  eapply rtc_r; [|apply step_set_visible].
  eapply rtc_r; [|apply step_set_tile].
  apply shared_cell_world_reachable.
Qed.

(** The dead actor that stands alone on (2, 2) of the lit shared-cell scene,
    a cell that is not visible, on a map that has a wall among its floors. *)
Lemma actor_cell_is_occupied_witness :
  get_blocking_entity_at_location lit_shared_cell_world 1%nat 2 2 = Ok (Some 12%nat)
  ∧ dead_at lit_shared_cell_world 2 2 12%nat = true
  ∧ tile_walkable lit_shared_cell_world 1%nat 0 2 = Ok false
  ∧ tile_walkable lit_shared_cell_world 1%nat 2 2 = Ok true.
Proof.
  split; [|by split_and!].
  destruct actor_cell_is_occupied as (_ & _ & Hempty & _ & Hcell).
  eapply (Hcell empty_world lit_shared_cell_world 1%nat _ 2 2 12%nat _ Hempty
                lit_shared_cell_world_reachable); try reflexivity.
  - cbn. do 2 (apply elem_of_cons; right). by left.
  - intros b Hb Hne. cbn in Hb. each_member Hb; [..|done]; eexists; split; reflexivity.
Defined.

(** * Further properties of the code *)

(** ** Occupancy queries *)

Lemma blocking_scan_first w x y l :
  entities_only w l →
  blocking_scan w l x y = Ok (head (List.filter (blocks_at w x y) l)).
Proof.
  induction l as [|a l IH]; intros Hl; [done|].
  destruct (Hl a) as [e He]; [left|].
  cbn [blocking_scan List.filter]. unfold blocks_at at 1. rewrite He. cbn.
  destruct (ent_blocks_movement e && (ent_x e =? x) && (ent_y e =? y)); [done|].
  apply IH. intros b Hb. apply Hl. by right.
Qed.

Lemma blocking_scan_Some w x y l b :
  blocking_scan w l x y = Ok (Some b) → b ∈ l ∧ blocks_at w x y b = true.
Proof.
  induction l as [|a l IH]; [done|].
  cbn [blocking_scan]. unfold blocks_at.
  destruct (get_entity w a) as [e|ex] eqn:He; [|done]. cbn.
  destruct (ent_blocks_movement e && (ent_x e =? x) && (ent_y e =? y)) eqn:Hb.
  - intros [= <-]. split; [left|]. by rewrite He.
  - intros H. destruct (IH H) as [? ?]. split; [by right|done].
Qed.

Lemma blocking_scan_None w x y l :
  blocking_scan w l x y = Ok None →
  entities_only w l ∧ ∀ a, a ∈ l → blocks_at w x y a = false.
Proof.
  induction l as [|a l IH].
  - intros _. split; intros a Ha; by apply elem_of_nil in Ha.
  - cbn [blocking_scan].
    destruct (get_entity w a) as [e|ex] eqn:He; [|done]. cbn.
    destruct (ent_blocks_movement e && (ent_x e =? x) && (ent_y e =? y)) eqn:Hb; [done|].
    intros H. destruct (IH H) as [H1 H2]. split.
    + intros b [->|Hb']%elem_of_cons; [by exists e|by apply H1].
    + intros b [->|Hb']%elem_of_cons; [|by apply H2].
      unfold blocks_at. by rewrite He.
Qed.

(** X1.  [get_blocking_entity_at_location] on a set of entities: the first
    member in iteration order that blocks and stands at the cell, [None]
    exactly when no member does; no coordinate makes it raise. *)
Theorem get_blocking_entity_at_location_first w gm m x y :
  get_map w gm = Ok m → entities_only w (gm_entities m) →
  ∃ r, get_blocking_entity_at_location w gm x y = Ok r
       ∧ (r = None ↔ ∀ a, a ∈ gm_entities m → blocks_at w x y a = false)
       ∧ (∀ b, r = Some b ↔
            ∃ l1 l2, gm_entities m = l1 ++ b :: l2
                     ∧ (∀ a, a ∈ l1 → blocks_at w x y a = false)
                     ∧ blocks_at w x y b = true).
Proof.
  intros Hm Hl. exists (head (List.filter (blocks_at w x y) (gm_entities m))).
  split; [|split].
  - unfold get_blocking_entity_at_location. rewrite Hm. cbn.
    by apply blocking_scan_first.
  - split.
    + intros Hn a Ha. destruct (blocks_at w x y a) eqn:Hb; [|done].
      destruct (head_filter_elem _ _ _ Ha Hb) as [b Hb']. congruence.
    + apply head_filter_None.
  - intros b. apply head_filter_Some.
Qed.

Lemma item_scan_filter w x y l :
  item_scan w (List.filter (item_member w) l) x y
  = Ok (List.filter (item_at w x y) l).
Proof.
  induction l as [|a l IH]; [done|].
  cbn [List.filter]. unfold item_member at 1, item_at at 1.
  destruct (get_entity w a) as [e|ex] eqn:He; [|exact IH].
  destruct (is_item e) eqn:Hi; [|exact IH].
  cbn [item_scan]. rewrite He, IH. cbn.
  by destruct ((ent_x e =? x) && (ent_y e =? y)).
Qed.

(** X2.  [get_items_at_location] returns every item of the set that
    lies on the cell, each once and in iteration order, and nothing else; it
    raises on no map, whatever the set holds. *)
Theorem get_items_at_location_exact w gm m x y :
  get_map w gm = Ok m →
  ∃ l, get_items_at_location w gm x y = Ok l
       ∧ l = List.filter (item_at w x y) (gm_entities m)
       ∧ (∀ a, a ∈ l ↔ a ∈ gm_entities m ∧ item_at w x y a = true)
       ∧ (NoDup (gm_entities m) → NoDup l).
Proof.
  intros Hm. eexists. split; [|split; [reflexivity|split]].
  - unfold get_items_at_location, items. rewrite Hm. cbn. apply item_scan_filter.
  - intros a. rewrite !list_elem_of_In, filter_In. tauto.
  - intros Hnd. apply NoDup_ListNoDup, List.NoDup_filter. by apply NoDup_ListNoDup.
Qed.

(** In the cellar the player blocks cell (1, 1), where the potion lies
    too; nothing blocks the cell of the scroll. *)
Lemma get_blocking_entity_at_location_first_witness :
  get_blocking_entity_at_location cellar_world 1%nat 1 1 = Ok (Some 4%nat)
  ∧ get_blocking_entity_at_location cellar_world 1%nat 2 1 = Ok None.
Proof.
  assert (Hl : ∀ m, get_map cellar_world 1%nat = Ok m →
                    entities_only cellar_world (gm_entities m)).
  { intros m [= <-] a Ha. cbn in Ha. each_member Ha; eexists; reflexivity. }
  split.
  - destruct (get_blocking_entity_at_location_first cellar_world 1%nat _ 1 1
                eq_refl (Hl _ eq_refl)) as (r & Hr & _ & Hs).
    rewrite Hr. f_equal. apply Hs. exists [], [7; 9; 12]%nat.
    split; [reflexivity|]. split; [|reflexivity].
    intros a Ha. by apply elem_of_nil in Ha.
  - destruct (get_blocking_entity_at_location_first cellar_world 1%nat _ 2 1
                eq_refl (Hl _ eq_refl)) as (r & Hr & Hn & _).
    rewrite Hr. f_equal. apply Hn.
    intros a Ha. cbn in Ha. each_member Ha; reflexivity.
Defined.

(** The potion is the one item on the player's cell. *)
Lemma get_items_at_location_exact_witness :
  get_items_at_location cellar_world 1%nat 1 1 = Ok [7%nat]
  ∧ get_items_at_location cellar_world 1%nat 3 2 = Ok [].
Proof.
  split.
  - destruct (get_items_at_location_exact cellar_world 1%nat _ 1 1 eq_refl)
      as (l & Hl & -> & _).
    exact Hl.
  - destruct (get_items_at_location_exact cellar_world 1%nat _ 3 2 eq_refl)
      as (l & Hl & -> & _).
    exact Hl.
Defined.

(** ** Moving and placing *)

Lemma store_store a o o' w : store a o (store a o' w) = store a o w.
Proof. unfold store, set_heap. cbn. by rewrite list_insert_insert_eq. Qed.

Lemma store_same a o w : heap w !! a = Some o → store a o w = w.
Proof.
  intros H. unfold store, set_heap. rewrite (list_insert_id _ _ _ H). by destruct w.
Qed.

(** [move], statement by statement. *)
Lemma move_run w self e dx dy :
  get_entity w self = Ok e →
  move self dx dy w
  = (Ok tt, store self (OEntity (set_y (ent_y e + dy) (set_x (ent_x e + dx) e))) w).
Proof.
  intros He. unfold move.
  rewrite run_bind, (update_entity_run _ _ _ _ He).
  rewrite (update_entity_run _ _ _ (set_x (ent_x e + dx) e))
    by (by eapply get_entity_store_eq).
  by rewrite store_store.
Qed.

(** X3.  [move] shifts the position by [(dx, dy)] and changes nothing
    else; it checks no bound.  Two moves are one move by the sum, so a move
    and its opposite leave the world exactly as it was. *)
Theorem move_composes w self e dx dy dx' dy' :
  get_entity w self = Ok e →
  position (exec (move self dx dy) w) self = Ok (ent_x e + dx, ent_y e + dy)
  ∧ (∀ a, a ≠ self → heap (exec (move self dx dy) w) !! a = heap w !! a)
  ∧ stdout (exec (move self dx dy) w) = stdout w
  ∧ exec (move self dx' dy') (exec (move self dx dy) w)
    = exec (move self (dx + dx') (dy + dy')) w
  ∧ exec (move self (- dx) (- dy)) (exec (move self dx dy) w) = w.
Proof.
  intros He. unfold exec. rewrite (move_run _ _ _ _ _ He). cbn [snd].
  set (e1 := set_y (ent_y e + dy) (set_x (ent_x e + dx) e)).
  assert (He1 : get_entity (store self (OEntity e1) w) self = Ok e1)
    by (by eapply get_entity_store_eq).
  split_and!.
  - unfold position. by rewrite He1.
  - intros a Ha. by apply lookup_store_ne.
  - done.
  - rewrite (move_run _ _ _ _ _ He1), (move_run _ _ _ _ _ He). cbn [snd].
    rewrite store_store. do 2 f_equal. unfold e1, set_y, set_x. cbn. f_equal; lia.
  - rewrite (move_run _ _ _ _ _ He1). cbn [snd]. rewrite store_store.
    apply store_same. apply get_entity_Ok in He. rewrite He. do 2 f_equal.
    unfold e1. destruct e. unfold set_y, set_x. cbn. f_equal; lia.
Qed.

(** The player of the cellar, one step east and back. *)
Lemma move_composes_witness :
  position (exec (move 4%nat 1 0) cellar_world) 4%nat = Ok (2, 1)
  ∧ exec (move 4%nat (-1) 0) (exec (move 4%nat 1 0) cellar_world) = cellar_world.
Proof.
  destruct (move_composes cellar_world 4%nat _ 1 0 0 0 eq_refl)
    as (Hpos & _ & _ & _ & Hback).
  split; [exact Hpos|exact Hback].
Defined.

(** [place] without a map, statement by statement. *)
Lemma place_here_run w self e x y :
  get_entity w self = Ok e →
  place self x y None w = (Ok tt, store self (OEntity (set_y y (set_x x e))) w).
Proof.
  intros He. unfold place.
  rewrite run_bind, (update_entity_run _ _ _ _ He).
  rewrite run_bind, (update_entity_run _ _ _ (set_x x e))
    by (by eapply get_entity_store_eq).
  by rewrite store_store.
Qed.

(** X4.  [place] without a map is a change of position and no more: the
    entity is at [(x, y)], its owner and every entity set are as they were,
    and the call is the [move] by the difference. *)
Theorem place_without_map w self e x y :
  get_entity w self = Ok e →
  ∃ w', place self x y None w = (Ok tt, w')
        ∧ get_entity w' self = Ok (set_y y (set_x x e))
        ∧ (∀ a, a ≠ self → heap w' !! a = heap w !! a)
        ∧ (∀ g m, get_map w g = Ok m → get_map w' g = Ok m)
        ∧ move self (x - ent_x e) (y - ent_y e) w = (Ok tt, w').
Proof.
  intros He. rewrite (place_here_run _ _ _ _ _ He). eexists. split; [reflexivity|].
  split_and!.
  - by eapply get_entity_store_eq.
  - intros a Ha. by apply lookup_store_ne.
  - intros g m Hm. by rewrite (get_map_store_entity _ _ _ _ _ He).
  - rewrite (move_run _ _ _ _ _ He). do 3 f_equal.
    unfold set_y, set_x. cbn. f_equal; lia.
Qed.

(** The scroll of the cellar, put on cell (0, 2) of whatever map it is on. *)
Lemma place_without_map_witness :
  ∃ w', place 9%nat 0 2 None cellar_world = (Ok tt, w')
        ∧ position w' 9%nat = Ok (0, 2)
        ∧ get_map w' 1%nat = get_map cellar_world 1%nat.
Proof.
  destruct (place_without_map cellar_world 9%nat _ 0 2 eq_refl)
    as (w' & Hrun & He & _ & Hmaps & _).
  exists w'. split; [exact Hrun|]. split.
  - unfold position. by rewrite He.
  - by rewrite (Hmaps 1%nat _ eq_refl).
Defined.

(** X5.  [place] is not atomic.  When the entity's [parent] names a map
    whose set does not hold the entity, [set.remove] raises [KeyError]
    after the position has been assigned: the entity stands at [(x, y)],
    its owner is the old map still, and it is in the set of neither map. *)
Theorem place_unlisted_raises w self e p mp x y gm :
  get_entity w self = Ok e → ent_parent e = Some p →
  get_map w p = Ok mp → self ∉ gm_entities mp →
  ∃ w', place self x y (Some gm) w = (Raise KeyError, w')
        ∧ get_entity w' self = Ok (set_y y (set_x x e))
        ∧ (∀ a, a ≠ self → heap w' !! a = heap w !! a)
        ∧ (∀ g m, get_map w g = Ok m → get_map w' g = Ok m).
Proof.
  intros He Hp Hmp Hout.
  exists (positioned self x y e w).
  assert (Hmp1 : get_map (positioned self x y e w) p = Ok mp)
    by (by rewrite positioned_map).
  assert (Hgm : Entity_gamemap (positioned self x y e w) self = Ok p).
  { rewrite (Entity_gamemap_positioned _ _ _ _ _ He).
    by apply (Entity_gamemap_owned _ _ _ _ _ He Hp Hmp). }
  split_and!.
  - rewrite (place_unfold _ _ _ _ _ _ He). cbn zeta. rewrite Hp, Hgm, Nat.eqb_refl.
    rewrite (remove_from_gamemap_run _ _ _ _ Hgm Hmp1).
    unfold mem. by rewrite bool_decide_eq_false_2.
  - by apply positioned_entity.
  - intros a Ha. by apply positioned_other.
  - intros g m Hm. by rewrite positioned_map.
Qed.

(** The chest that is no longer in the set of the map it names as owner. *)
Lemma place_unlisted_raises_witness :
  ∃ w', place 4%nat 1 1 (Some 3%nat) unlisted_chest_world = (Raise KeyError, w')
        ∧ position w' 4%nat = Ok (1, 1)
        ∧ get_map w' 3%nat = get_map unlisted_chest_world 3%nat.
Proof.
  destruct (place_unlisted_raises unlisted_chest_world 4%nat _ 2%nat _ 1 1 3%nat
              eq_refl eq_refl eq_refl)
    as (w' & Hrun & He & _ & Hmaps).
  - cbn. intros Hin%list_elem_of_singleton. discriminate.
  - exists w'. split; [exact Hrun|]. split.
    + unfold position. by rewrite He.
    + by rewrite (Hmaps 3%nat _ eq_refl).
Defined.

(** ** [Entity.__init__] with a parent *)

Lemma alloc_run o w : alloc o w = (Ok (length (heap w)), set_heap (heap w ++ [o]) w).
Proof. done. Qed.

Lemma get_entity_alloc w e :
  get_entity (set_heap (heap w ++ [OEntity e]) w) (length (heap w)) = Ok e.
Proof. apply get_entity_Ok. by rewrite lookup_set_heap_first. Qed.

Lemma get_map_alloc w o g m :
  get_map w g = Ok m → get_map (set_heap (heap w ++ [o]) w) g = Ok m.
Proof.
  intros Hm. apply get_map_Ok. apply get_map_Ok in Hm.
  rewrite lookup_set_heap_old; [done|]. by eapply allocated.
Qed.

(** [Entity.__init__] with a map as parent, statement by statement. *)
Lemma Entity_init_parent_run cls name char colour x y b p m ro w :
  get_map w p = Ok m →
  let n := length (heap w) in
  let e0 := mkEntity name char colour x y b ro None cls in
  Entity_init cls name char colour x y b (Some p) ro w
  = (Ok n, store p (OGameMap (set_entities (set_add n (gm_entities m)) m))
             (store n (OEntity (set_parent p e0))
                    (set_heap (heap w ++ [OEntity e0]) w))).
Proof.
  intros Hm n e0. unfold Entity_init. rewrite run_bind, alloc_run. fold n e0.
  rewrite run_bind, (update_entity_run _ _ _ e0) by apply get_entity_alloc.
  rewrite run_bind, (update_map_run _ _ _ m); [done|].
  rewrite (get_map_store_entity _ _ e0) by apply get_entity_alloc.
  by apply get_map_alloc.
Qed.

(** X6.  [Entity.__init__] with a map as [parent] registers the new
    entity: it is in the map's set, the map is its owner and its [gamemap].
    The constructor leaves the world that the constructor without a parent
    followed by [place] on that map leaves. *)
Theorem Entity_init_with_parent cls name char colour x y b p m ro w :
  get_map w p = Ok m →
  let n := length (heap w) in
  ∃ w', Entity_init cls name char colour x y b (Some p) ro w = (Ok n, w')
        ∧ get_entity w' n = Ok (mkEntity name char colour x y b ro (Some p) cls)
        ∧ get_map w' p = Ok (set_entities (set_add n (gm_entities m)) m)
        ∧ n ∈ set_add n (gm_entities m)
        ∧ Entity_gamemap w' n = Ok p
        ∧ (∀ a o, heap w !! a = Some o → a ≠ p → heap w' !! a = Some o)
        ∧ (self ← Entity_init cls name char colour x y b None ro;
           place self x y (Some p);; mret self) w = (Ok n, w').
Proof.
  intros Hm n. rewrite (Entity_init_parent_run _ _ _ _ _ _ _ _ _ _ _ Hm). fold n.
  set (e0 := mkEntity name char colour x y b ro None cls).
  set (w0 := set_heap (heap w ++ [OEntity e0]) w).
  assert (He0 : get_entity w0 n = Ok e0) by apply get_entity_alloc.
  assert (Hm0 : get_map w0 p = Ok m) by (by apply get_map_alloc).
  assert (Hpn : p ≠ n).
  { apply get_map_Ok, allocated in Hm. unfold n. lia. }
  assert (Hm1 : get_map (store n (OEntity (set_parent p e0)) w0) p = Ok m)
    by (by rewrite (get_map_store_entity _ _ e0)).
  assert (He1 : get_entity (store n (OEntity (set_parent p e0)) w0) n
                = Ok (set_parent p e0)) by (by eapply get_entity_store_eq).
  eexists. split; [reflexivity|]. split_and!.
  - by rewrite (get_entity_store_map _ _ m).
  - by eapply get_map_store_eq.
  - apply elem_of_set_add. by right.
  - eapply Entity_gamemap_owned; [| |by eapply get_map_store_eq].
    + by rewrite (get_entity_store_map _ _ m).
    + done.
  - intros a o Ha Hne. rewrite lookup_store_ne by done.
    pose proof (allocated _ _ _ Ha) as Hlt. fold n in Hlt.
    rewrite lookup_store_ne by lia. unfold w0. by rewrite lookup_set_heap_old.
  - rewrite run_bind. unfold Entity_init at 1. rewrite run_bind, alloc_run. fold n e0 w0.
    cbn [mret M_ret]. rewrite run_bind.
    rewrite (place_unowned_run _ _ _ _ _ _ _ He0 eq_refl Hm0).
    unfold positioned. by rewrite !store_store.
Qed.

(** A chest made with the second of the two maps as its parent. *)
Lemma Entity_init_with_parent_witness :
  ∃ w', Entity_init ClsEntity "Chest" "=" (255, 255, 255) 1 2 true (Some 3%nat) CORPSE
          two_maps_world = (Ok 5%nat, w')
        ∧ get_map w' 3%nat
          = Ok (mkGameMap 0%nat 3 3 [5%nat] (replicate 3 (replicate 3 wall_tile))
                          (replicate 3 (replicate 3 false))
                          (replicate 3 (replicate 3 false)))
        ∧ Entity_gamemap w' 5%nat = Ok 3%nat.
Proof.
  destruct (Entity_init_with_parent ClsEntity "Chest" "=" (255, 255, 255) 1 2 true
              3%nat _ CORPSE two_maps_world eq_refl)
    as (w' & Hrun & _ & Hm & _ & Hgm & _).
  exists w'. split; [exact Hrun|]. split; [exact Hm|exact Hgm].
Defined.

(** ** [Actor.__init__] and [Item.__init__]: the back-references *)

Lemma update_component_run a f w c :
  get_component w a = Ok c →
  update_component a f w = (Ok tt, store a (OComponent (f c)) w).
Proof. intros Hc. unfold update_component. rewrite run_bind. unfold read. by rewrite Hc. Qed.

Lemma get_component_store_eq w a o c :
  heap w !! a = Some o → get_component (store a (OComponent c) w) a = Ok c.
Proof.
  intros Ho. apply get_component_Ok, lookup_store_eq. by eapply allocated.
Qed.

Lemma get_component_store_ne w a b o :
  a ≠ b → get_component (store a o w) b = get_component w b.
Proof. intros Hne. unfold get_component. by rewrite lookup_store_ne. Qed.

(** What [Actor.__init__] leaves behind: the actor at [n], its AI object at
    [n + 1], and both components owned by the actor. *)
Lemma Actor_init_effect x y char colour name ai_cls fighter inventory w cf ci :
  get_component w fighter = Ok cf → get_component w inventory = Ok ci →
  let n := length (heap w) in
  ∃ w', Actor_init x y char colour name ai_cls fighter inventory w = (Ok n, w')
        ∧ length (heap w') = S (S n)
        ∧ get_entity w' n
          = Ok (constructed_actor x y char colour name (S n) fighter inventory)
        ∧ get_component w' (S n) = Ok (ai_cls n)
        ∧ get_component w' fighter = Ok (set_comp_parent n cf)
        ∧ get_component w' inventory = Ok (set_comp_parent n ci)
        ∧ (∀ a o, heap w !! a = Some o → a ≠ fighter → a ≠ inventory →
             heap w' !! a = Some o).
Proof.
  intros Hf Hi n.
  apply get_component_Ok in Hf as Hf'. apply get_component_Ok in Hi as Hi'.
  pose proof (allocated _ _ _ Hf') as Hfn. pose proof (allocated _ _ _ Hi') as Hin.
  fold n in Hfn, Hin.
  rewrite Actor_init_unfold. cbn zeta. fold n.
  set (w3 := actor_allocated x y char colour name ai_cls fighter inventory w).
  assert (Hold : ∀ a, (a < n)%nat → heap w3 !! a = heap w !! a).
  { intros a Ha. unfold w3, actor_allocated. by rewrite lookup_set_heap_old. }
  assert (Hlen : length (heap w3) = S (S n)).
  { unfold w3, actor_allocated. cbn. rewrite length_app. cbn. fold n. lia. }
  assert (Hf3 : get_component w3 fighter = Ok cf)
    by (apply get_component_Ok; by rewrite Hold).
  assert (Hf3' : heap w3 !! fighter = Some (OComponent cf)) by (by rewrite Hold).
  set (w4 := store fighter (OComponent (set_comp_parent n cf)) w3).
  assert (Hi4 : ∃ c4, get_component w4 inventory = Ok c4
                      ∧ set_comp_parent n c4 = set_comp_parent n ci
                      ∧ heap w4 !! inventory = Some (OComponent c4)).
  { destruct (decide (fighter = inventory)) as [Heq|Hne].
    - exists (set_comp_parent n cf). subst inventory.
      assert (ci = cf) by congruence. subst ci.
      split_and!; [by eapply get_component_store_eq|done|].
      apply lookup_store_eq. rewrite Hlen. lia.
    - exists ci. unfold w4. rewrite get_component_store_ne by done.
      split_and!; [|done|].
      + apply get_component_Ok. by rewrite Hold.
      + rewrite lookup_store_ne by done. by rewrite Hold. }
  destruct Hi4 as (c4 & Hi4 & Hc4 & Hi4').
  rewrite run_bind, (update_component_run _ _ _ _ Hf3). fold w4.
  rewrite run_bind, (update_component_run _ _ _ _ Hi4). rewrite Hc4.
  eexists. split; [reflexivity|]. unfold w4 in *. split_and!.
  - by rewrite !length_store.
  - rewrite !get_entity_store_ne by lia. apply actor_allocated_entity.
  - apply get_component_Ok. rewrite !lookup_store_ne by lia.
    unfold w3, actor_allocated. fold n.
    replace (S n) with (length (heap w) + 1)%nat by (unfold n; lia).
    by rewrite lookup_set_heap_new.
  - destruct (decide (inventory = fighter)) as [->|Hne].
    + assert (ci = cf) by congruence. subst ci.
      eapply get_component_store_eq. exact Hi4'.
    + rewrite get_component_store_ne by done. by eapply get_component_store_eq.
  - eapply get_component_store_eq. exact Hi4'.
  - intros a o Ha Haf Hai. rewrite !lookup_store_ne by done.
    rewrite Hold; [done|]. by eapply allocated.
Qed.

(** X7.  [Actor.__init__] on two component objects returns a new, living
    actor at [(x, y)] whose AI object was made for it, and makes the actor
    the owner of both components.  The actor has no owner yet and is in no
    map's set: asking for its [gamemap] raises [AttributeError].  Nothing
    else changes. *)
Theorem Actor_init_wires x y char colour name ai_cls fighter inventory w cf ci :
  get_component w fighter = Ok cf → get_component w inventory = Ok ci →
  let n := length (heap w) in
  ∃ w' e,
    Actor_init x y char colour name ai_cls fighter inventory w = (Ok n, w')
    ∧ heap w !! n = None
    ∧ get_entity w' n = Ok e
    ∧ ent_cls e = ClsActor (Some (S n)) fighter inventory ∧ is_alive e = true
    ∧ position w' n = Ok (x, y)
    ∧ get_component w' (S n) = Ok (ai_cls n)
    ∧ get_component w' fighter = Ok (set_comp_parent n cf)
    ∧ get_component w' inventory = Ok (set_comp_parent n ci)
    ∧ hasattr w' n "parent" = Ok false
    ∧ Entity_gamemap w' n = Raise AttributeError
    ∧ (∀ g m, get_map w g = Ok m → get_map w' g = Ok m)
    ∧ (∀ a o, heap w !! a = Some o → a ≠ fighter → a ≠ inventory →
         heap w' !! a = Some o).
Proof.
  intros Hf Hi n.
  destruct (Actor_init_effect x y char colour name ai_cls _ _ _ _ _ Hf Hi)
    as (w' & Hrun & _ & He & Hai & Hf' & Hi' & Hframe). fold n in Hrun, He, Hai, Hf', Hi'.
  exists w', (constructed_actor x y char colour name (S n) fighter inventory).
  split_and!; try done.
  - by apply lookup_ge_None.
  - unfold position. by rewrite He.
  - by rewrite (hasattr_parent _ _ _ He).
  - unfold Entity_gamemap. destruct recursion_limit_S as [k ->].
    by rewrite (gamemap_of_entity _ _ _ _ He).
  - intros g m Hm. apply get_map_Ok. apply get_map_Ok in Hm.
    apply Hframe; [done| |]; intros ->.
    + apply get_component_Ok in Hf. congruence.
    + apply get_component_Ok in Hi. congruence.
Qed.

(** The orc of the cellar is made again from two fresh components. *)
Lemma Actor_init_wires_witness :
  ∃ w', Actor_init 3 2 "o" (63, 127, 63) "Orc" base_ai 10%nat 11%nat cellar_world
        = (Ok 14%nat, w')
        ∧ get_component w' 10%nat
          = Ok (mkComponent ClsFighter (Some 14%nat) [] [30; 2; 5])
        ∧ Entity_gamemap w' 14%nat = Raise AttributeError.
Proof.
  destruct (Actor_init_wires 3 2 "o" (63, 127, 63) "Orc" base_ai 10%nat 11%nat
              cellar_world _ _ eq_refl eq_refl)
    as (w' & e & Hrun & _ & _ & _ & _ & _ & _ & Hf & _ & _ & Hgm & _).
  exists w'. split; [exact Hrun|]. split; [exact Hf|exact Hgm].
Defined.

(** X8.  A component object is shared, not copied: when a second actor is
    made with the fighter of a first, the first actor still names that
    fighter as its own, and the fighter's owner is the second actor. *)
Theorem Actor_init_shares_component
    x y char colour name ai_cls x' y' char' colour' name' ai_cls'
    fighter inventory inventory' w cf ci ci' :
  get_component w fighter = Ok cf → get_component w inventory = Ok ci →
  get_component w inventory' = Ok ci' →
  fighter ≠ inventory → fighter ≠ inventory' →
  let n := length (heap w) in
  ∃ w1 w2 e1 e2,
    Actor_init x y char colour name ai_cls fighter inventory w = (Ok n, w1)
    ∧ Actor_init x' y' char' colour' name' ai_cls' fighter inventory' w1
      = (Ok (S (S n)), w2)
    ∧ get_entity w2 n = Ok e1
    ∧ ent_cls e1 = ClsActor (Some (S n)) fighter inventory
    ∧ get_entity w2 (S (S n)) = Ok e2
    ∧ ent_cls e2 = ClsActor (Some (S (S (S n)))) fighter inventory'
    ∧ get_component w2 fighter = Ok (set_comp_parent (S (S n)) cf).
Proof.
  intros Hf Hi Hi' Hne Hne' n.
  destruct (Actor_init_effect x y char colour name ai_cls _ _ _ _ _ Hf Hi)
    as (w1 & Hrun1 & Hlen1 & He1 & _ & Hf1 & Hi1 & Hframe1).
  fold n in Hrun1, Hlen1, He1, Hf1, Hi1.
  assert (Hi1' : ∃ c, get_component w1 inventory' = Ok c).
  { destruct (decide (inventory' = inventory)) as [->|Hii]; [by eexists|].
    exists ci'. apply get_component_Ok. apply get_component_Ok in Hi'.
    apply Hframe1; [done| |done]. by intros ->. }
  destruct Hi1' as [c Hc].
  destruct (Actor_init_effect x' y' char' colour' name' ai_cls' _ _ _ _ _ Hf1 Hc)
    as (w2 & Hrun2 & _ & He2 & _ & Hf2 & _ & Hframe2).
  rewrite Hlen1 in Hrun2, He2, Hf2.
  exists w1, w2. do 2 eexists.
  split; [exact Hrun1|]. split; [exact Hrun2|]. split_and!.
  - apply get_entity_Ok. apply get_entity_Ok in He1.
    apply Hframe2; [exact He1| |]; intros ->.
    + apply get_component_Ok in Hf1. congruence.
    + apply get_component_Ok in Hc. congruence.
  - reflexivity.
  - exact He2.
  - reflexivity.
  - exact Hf2.
Qed.

(** The fighter of the cellar's player, handed to two more actors. *)
Lemma Actor_init_shares_component_witness :
  ∃ w1 w2,
    Actor_init 0 0 "@" (255, 255, 255) "First" base_ai 2%nat 3%nat cellar_world
    = (Ok 14%nat, w1)
    ∧ Actor_init 0 0 "@" (255, 255, 255) "Second" base_ai 2%nat 11%nat w1
      = (Ok 16%nat, w2)
    ∧ get_component w2 2%nat
      = Ok (mkComponent ClsFighter (Some 16%nat) [] [30; 2; 5]).
Proof.
  destruct (Actor_init_shares_component
              0 0 "@" (255, 255, 255) "First" base_ai
              0 0 "@" (255, 255, 255) "Second" base_ai
              2%nat 3%nat 11%nat cellar_world _ _ _ eq_refl eq_refl eq_refl)
    as (w1 & w2 & e1 & e2 & Hrun1 & Hrun2 & _ & _ & _ & _ & Hf); [done|done|].
  exists w1, w2. split; [exact Hrun1|]. split; [exact Hrun2|exact Hf].
Defined.

(** ** What stays as the constructors made it *)

Lemma all_well_formed_lookup w a o :
  all_well_formed w → heap w !! a = Some o → well_formed o.
Proof. unfold all_well_formed. rewrite Forall_lookup. eauto. Qed.

Lemma all_well_formed_store a o w :
  well_formed o → all_well_formed w → all_well_formed (store a o w).
Proof.
  unfold all_well_formed. rewrite heap_store. intros Ho Hw.
  destruct (decide (a < length (heap w))%nat).
  - by apply Forall_insert.
  - by rewrite list_insert_ge by lia.
Qed.

Lemma all_well_formed_append l w :
  Forall well_formed l → all_well_formed w →
  all_well_formed (set_heap (heap w ++ l) w).
Proof. unfold all_well_formed. intros Hl Hw. cbn. by apply Forall_app. Qed.

Lemma wf_alloc o : well_formed o → keeps all_well_formed (alloc o).
Proof.
  intros Ho w Hw. cbn. apply all_well_formed_append; [|done].
  by apply Forall_singleton.
Qed.

Lemma wf_store a o : well_formed o → keeps all_well_formed (modify (store a o)).
Proof. intros Ho. apply keeps_modify. intros w. by apply all_well_formed_store. Qed.

(** An assignment that leaves the flag, the render order and the class of
    the entity as they are. *)
Lemma wf_update_entity a f :
  (∀ e, flags_by_class e → flags_by_class (f e)) →
  keeps all_well_formed (update_entity a f).
Proof.
  intros Hf w Hw. unfold update_entity. rewrite run_bind. unfold read.
  destruct (get_entity w a) as [e|ex] eqn:He; [|done].
  cbn. apply all_well_formed_store; [|done]. cbn. apply Hf.
  apply get_entity_Ok in He. apply (all_well_formed_lookup _ _ _ Hw He).
Qed.

(** An assignment that leaves the size and the shape of the grids as they
    are. *)
Lemma wf_update_map a f :
  (∀ m, map_sized m → map_sized (f m)) →
  keeps all_well_formed (update_map a f).
Proof.
  intros Hf w Hw. unfold update_map. rewrite run_bind. unfold read.
  destruct (get_map w a) as [m|ex] eqn:Hm; [|done].
  cbn. apply all_well_formed_store; [|done]. cbn. apply Hf.
  apply get_map_Ok in Hm. apply (all_well_formed_lookup _ _ _ Hw Hm).
Qed.

Lemma wf_update_component a f : keeps all_well_formed (update_component a f).
Proof.
  intros w Hw. unfold update_component. rewrite run_bind. unfold read.
  destruct (get_component w a) as [m|ex]; [|done]. cbn. by apply all_well_formed_store.
Qed.

Lemma well_formed_rename f o : well_formed o → well_formed (rename f o).
Proof.
  destruct o as [e| |m|]; cbn; try done.
  unfold flags_by_class, is_actor, is_item. cbn. by destruct (ent_cls e).
Qed.

Lemma wf_deepcopy root : keeps all_well_formed (deepcopy root).
Proof.
  intros w Hw. unfold deepcopy. destruct (heap w !! root) as [o1|]; [|done].
  apply all_well_formed_append; [|done]. apply Forall_forall. intros o Ho.
  unfold copies in Ho. apply list_elem_of_omap in Ho as (a & _ & Ha).
  destruct (heap w !! a) as [o0|] eqn:Ho0; [|done]. injection Ha as <-.
  apply well_formed_rename. by eapply all_well_formed_lookup.
Qed.

Ltac wf_auto :=
  repeat first
    [ apply keeps_ret
    | apply keeps_read
    | apply keeps_raise
    | apply wf_update_component
    | apply wf_deepcopy
    | apply wf_update_map; (let m := fresh "m" in let H := fresh "H" in
                            intros m H; exact H)
    | apply wf_update_entity; (let e := fresh "e" in let H := fresh "H" in
                               intros e H; exact H)
    | apply keeps_bind; [|intros ?] ].

Lemma grid_shape_replicate {A} width height (v : A) :
  grid_shape width height (replicate (Z.to_nat width) (replicate (Z.to_nat height) v)).
Proof. unfold grid_shape. by rewrite fmap_replicate, length_replicate. Qed.

Lemma wf_fill_tiles gm tile : keeps all_well_formed (fill_tiles gm tile).
Proof.
  unfold fill_tiles. apply wf_update_map. intros m (Hw & Hh & _ & Hv & He).
  unfold map_sized, map_shaped. split_and!; try done. apply grid_shape_replicate.
Qed.

Lemma wf_clear_ai a : keeps all_well_formed (clear_ai a).
Proof.
  unfold clear_ai. apply wf_update_entity. intros e He.
  unfold flags_by_class, is_actor, is_item in *.
  destruct (ent_cls e) eqn:Hcls; cbn; rewrite ?Hcls; auto.
Qed.

Lemma wf_GameMap_init wall engine width height entities :
  keeps all_well_formed (GameMap_init wall engine width height entities).
Proof.
  intros w Hw. unfold GameMap_init. rewrite !run_bind. unfold read, np_full.
  destruct ((width <? 0) || (height <? 0)) eqn:Hneg; [done|].
  apply orb_false_elim in Hneg as [Hw0%Z.ltb_ge Hh0%Z.ltb_ge].
  rewrite !run_bind. cbn. apply all_well_formed_append; [|done].
  apply Forall_singleton. cbn. unfold map_sized, map_shaped.
  split_and!; [done|done|..]; apply grid_shape_replicate.
Qed.

Lemma wf_Entity_init cls name char colour x y blocks_movement parent render_order :
  flags_by_class (mkEntity name char colour x y blocks_movement render_order None cls) →
  keeps all_well_formed
    (Entity_init cls name char colour x y blocks_movement parent render_order).
Proof.
  intros Hcls. unfold Entity_init. apply keeps_bind.
  - by apply wf_alloc.
  - intros self. destruct parent; wf_auto.
Qed.

Lemma wf_Item_init x y char colour name consumable :
  keeps all_well_formed (Item_init x y char colour name consumable).
Proof.
  unfold Item_init. apply keeps_bind; [|intros self; wf_auto].
  apply wf_Entity_init. by split.
Qed.

Lemma wf_Actor_init x y char colour name ai_cls fighter inventory :
  keeps all_well_formed (Actor_init x y char colour name ai_cls fighter inventory).
Proof.
  intros w Hw. rewrite Actor_init_unfold. cbn zeta.
  assert (Hk : keeps all_well_formed
                 (update_component fighter (set_comp_parent (length (heap w)));;
                  update_component inventory (set_comp_parent (length (heap w)));;
                  mret (length (heap w)))) by wf_auto.
  apply Hk. unfold actor_allocated. apply all_well_formed_append; [|done].
  repeat constructor; by cbn.
Qed.

Lemma wf_spawn self gm x y : keeps all_well_formed (spawn self gm x y).
Proof. unfold spawn. wf_auto. Qed.

Lemma wf_remove_from_gamemap self : keeps all_well_formed (remove_from_gamemap self).
Proof.
  intros w Hw. unfold remove_from_gamemap. rewrite run_bind. unfold read at 1.
  destruct (Entity_gamemap w self) as [gm|ex]; [|done].
  rewrite run_bind. unfold read at 1.
  destruct (get_map w gm) as [m|ex] eqn:Hm; [|done].
  rewrite run_bind. unfold read.
  destruct (set_remove self (gm_entities m)) as [l|ex]; [|done].
  cbn. apply all_well_formed_store; [|done].
  apply get_map_Ok in Hm. apply (all_well_formed_lookup _ _ _ Hw Hm).
Qed.

Lemma wf_place self x y gm : keeps all_well_formed (place self x y gm).
Proof.
  unfold place. wf_auto. destruct gm as [g|]; [|apply keeps_ret].
  wf_auto.
  match goal with |- keeps _ (if ?b then _ else _) => destruct b end; wf_auto.
  destruct (_ =? _)%nat; [|apply keeps_ret].
  apply wf_remove_from_gamemap.
Qed.

Lemma wf_move self dx dy : keeps all_well_formed (move self dx dy).
Proof. unfold move. wf_auto. Qed.

Lemma wf_print line : keeps all_well_formed (print line).
Proof. apply keeps_modify. by intros w. Qed.

Lemma wf_MovementAction_perform engine entity dx dy :
  keeps all_well_formed (MovementAction_perform engine entity dx dy).
Proof.
  unfold MovementAction_perform. wf_auto.
  destruct (negb _); [apply keeps_ret|]. wf_auto.
  destruct (negb _); [apply keeps_ret|]. wf_auto.
  match goal with |- keeps _ (match ?b with _ => _ end) => destruct b end;
    [apply keeps_ret|apply wf_move].
Qed.

Lemma wf_MeleeAction_perform engine entity dx dy :
  keeps all_well_formed (MeleeAction_perform engine entity dx dy).
Proof.
  unfold MeleeAction_perform. wf_auto.
  match goal with |- keeps _ (match ?b with _ => _ end) => destruct b end;
    [|apply keeps_ret].
  wf_auto. apply wf_print.
Qed.

Lemma wf_perform_via engine a : keeps all_well_formed (perform_via engine a).
Proof.
  destruct a; cbn [perform_via]; try apply keeps_raise.
  - apply wf_MovementAction_perform.
  - apply wf_MeleeAction_perform.
  - unfold BumpAction_perform. wf_auto.
    match goal with |- keeps _ (match ?b with _ => _ end) => destruct b end;
      [apply wf_MeleeAction_perform|apply wf_MovementAction_perform].
Qed.

Lemma shape_insert_cell {A} (g : list (list A)) (i j : nat) col (v : A) :
  g !! i = Some col → length <$> <[i := <[j := v]> col]> g = length <$> g.
Proof.
  intros Hcol. rewrite list_fmap_insert, length_insert.
  apply list_insert_id. by rewrite list_lookup_fmap, Hcol.
Qed.

Lemma shape_zip_with {A B C} (f : A → B → C) (a : list (list A)) (b : list (list B)) s :
  length <$> a = s → length <$> b = s →
  length <$> zip_with (zip_with f) a b = s.
Proof.
  revert b s. induction a as [|x a IH]; intros [|y b] s Ha Hb; cbn in *; try congruence.
  destruct s as [|n s]; [done|]. injection Ha as Hx Ha. injection Hb as Hy Hb.
  f_equal; [|by apply IH]. rewrite length_zip_with. lia.
Qed.

Lemma wf_set_tile gm x y tile : keeps all_well_formed (set_tile gm x y tile).
Proof.
  intros w Hw. unfold set_tile. rewrite run_bind. unfold read at 1.
  destruct (get_map w gm) as [m|ex] eqn:Hm; [|done].
  rewrite run_bind. unfold read at 1.
  destruct (np_pos (length (gm_tiles m)) x) as [i|ex]; [|done].
  rewrite run_bind. unfold read at 1.
  destruct (gm_tiles m !! i) as [col|] eqn:Hcol; [|done].
  rewrite run_bind. unfold read.
  destruct (np_pos (length col) y) as [j|ex]; [|done].
  cbn. apply all_well_formed_store; [|done].
  apply get_map_Ok in Hm.
  destruct (all_well_formed_lookup _ _ _ Hw Hm) as (Hw0 & Hh0 & Ht & Hv & He).
  cbn. unfold map_sized, map_shaped. split_and!; try done.
  unfold grid_shape in *. cbn. by rewrite (shape_insert_cell _ _ _ _ _ Hcol).
Qed.

Lemma wf_set_visible gm visible : keeps all_well_formed (set_visible gm visible).
Proof.
  intros w Hw. unfold set_visible. rewrite run_bind. unfold read at 1.
  destruct (get_map w gm) as [m|ex] eqn:Hm; [|done].
  apply get_map_Ok in Hm.
  destruct (all_well_formed_lookup _ _ _ Hw Hm) as (Hw0 & Hh0 & Ht & Hv & He).
  rewrite run_bind. unfold same_shape at 1.
  case_bool_decide as Hs1; [|done]. cbn [mret M_ret].
  rewrite run_bind. unfold modify at 1.
  assert (Hvis : grid_shape (gm_width m) (gm_height m) visible)
    by (unfold grid_shape in *; congruence).
  match goal with |- context [store gm ?o w] =>
    assert (Hw1 : all_well_formed (store gm o w)) end.
  { apply all_well_formed_store; [|done]. cbn. unfold map_sized, map_shaped.
    by split_and!. }
  rewrite run_bind. unfold same_shape.
  case_bool_decide as Hs2; [|done]. cbn.
  apply all_well_formed_store; [|done]. cbn. unfold map_sized, map_shaped.
  split_and!; try done. unfold grid_shape in *. cbn.
  by apply shape_zip_with.
Qed.

Lemma wf_entities_remove gm a : keeps all_well_formed (entities_remove gm a).
Proof.
  intros w Hw. unfold entities_remove. rewrite run_bind. unfold read at 1.
  destruct (get_map w gm) as [m|ex] eqn:Hm; [|done].
  rewrite run_bind. unfold read.
  destruct (set_remove a (gm_entities m)) as [l|ex]; [|done].
  cbn. apply all_well_formed_store; [|done].
  apply get_map_Ok in Hm. apply (all_well_formed_lookup _ _ _ Hw Hm).
Qed.

(** In every world a program reaches, an actor blocks and is drawn as an
    actor, an item does not block and is drawn as an item, and the grids of
    a map have the map's size. *)
Lemma reachable_well_formed w : reachable w → all_well_formed w.
Proof.
  unfold reachable. revert w. apply rtc_ind_r.
  - constructor.
  - intros w1 w2 Hrtc Hstep IH. destruct Hstep; apply keeps_exec; try done.
    + by apply wf_alloc.
    + unfold set_engine_game_map. wf_auto. by apply wf_store.
    + by apply wf_alloc.
    + apply wf_fill_tiles.
    + apply wf_clear_ai.
    + apply wf_GameMap_init.
    + apply wf_Entity_init. by split.
    + apply wf_Actor_init.
    + apply wf_Item_init.
    + apply wf_spawn.
    + apply wf_place.
    + apply wf_move.
    + apply wf_perform_via.
    + apply wf_set_tile.
    + apply wf_set_visible.
    + apply wf_entities_remove.
Qed.

(** The cellar, call by call. *)
Lemma cellar_world_reachable : reachable cellar_world.
Proof.
  replace cellar_world with
    (exec (place 12%nat 3 2 (Some 1%nat))
    (exec (place 9%nat 2 1 (Some 1%nat))
    (exec (place 7%nat 1 1 (Some 1%nat))
    (exec (place 4%nat 1 1 (Some 1%nat))
    (exec (Actor_init 0 0 "@" (255, 255, 255) "Orc" base_ai 10%nat 11%nat)
    (exec (new_component ClsInventory [26])
    (exec (new_component ClsFighter [30; 2; 5])
    (exec (Item_init 0 0 "~" (127, 0, 255) "Lightning Scroll" 8%nat)
    (exec (new_component ClsConsumable [20])
    (exec (Item_init 0 0 "!" (127, 0, 255) "Health Potion" 6%nat)
    (exec (new_component ClsConsumable [4])
    (exec (Actor_init 0 0 "@" (255, 255, 255) "Player" base_ai 2%nat 3%nat)
    (exec (new_component ClsInventory [26])
    (exec (new_component ClsFighter [30; 2; 5])
    (exec (fill_tiles 1%nat floor_tile)
    (exec (set_engine_game_map 0%nat 1%nat)
    (exec (GameMap_init wall_tile 0%nat 4 3 [])
    (exec new_engine empty_world))))))))))))))))))
    by (vm_compute; reflexivity).
  unfold reachable.
  do 4 (eapply rtc_r; [|apply step_place]).
  eapply rtc_r; [|apply step_Actor_init].
  do 2 (eapply rtc_r; [|apply step_new_component]).
  do 2 (eapply rtc_r; [|apply step_Item_init];
        eapply rtc_r; [|apply step_new_component]).
  eapply rtc_r; [|apply step_Actor_init].
  do 2 (eapply rtc_r; [|apply step_new_component]).
  eapply rtc_r; [|apply step_fill_tiles].
  eapply rtc_r; [|apply step_set_engine_game_map].
  eapply rtc_r; [|apply step_GameMap_init].
  eapply rtc_r; [|apply step_new_engine].
  apply rtc_refl.
Qed.

(** The lit cellar and the carved one: writes of the callers later. *)
Lemma lit_cellar_world_reachable : reachable lit_cellar_world.
Proof.
  replace lit_cellar_world with
    (exec (set_visible 1%nat [[false; false; false]; [true; true; true];
                              [true; true; true]; [false; false; false]])
    (exec (set_visible 1%nat [[true; true; true]; [true; true; true];
                              [true; true; true]; [false; false; false]])
       cellar_world))
    by (vm_compute; reflexivity).
  unfold reachable.
  do 2 (eapply rtc_r; [|apply step_set_visible]).
  apply cellar_world_reachable.
Qed.

Lemma carved_cellar_world_reachable : reachable carved_cellar_world.
Proof.
  replace carved_cellar_world with
    (exec (set_tile 1%nat 3 0 wall_tile)
    (exec (set_tile 1%nat 0 (-1) wall_tile) lit_cellar_world))
    by (vm_compute; reflexivity).
  unfold reachable.
  do 2 (eapply rtc_r; [|apply step_set_tile]).
  apply lit_cellar_world_reachable.
Qed.

(** ** Items *)

(** X9.  [Item.__init__] on a consumable returns a new item at [(x, y)]
    that does not block and has render order [ITEM], and makes the item the
    owner of the consumable; the item has no owner yet and no map's set
    changes. *)
Theorem Item_init_wires x y char colour name consumable w cc :
  get_component w consumable = Ok cc →
  let n := length (heap w) in
  ∃ w',
    Item_init x y char colour name consumable w = (Ok n, w')
    ∧ heap w !! n = None
    ∧ get_entity w' n
      = Ok (mkEntity name char colour x y false ITEM None (ClsItem consumable))
    ∧ get_component w' consumable = Ok (set_comp_parent n cc)
    ∧ Entity_gamemap w' n = Raise AttributeError
    ∧ (∀ a o, heap w !! a = Some o → a ≠ consumable → heap w' !! a = Some o).
Proof.
  intros Hc n. apply get_component_Ok in Hc as Hc'.
  pose proof (allocated _ _ _ Hc') as Hcn. fold n in Hcn.
  unfold Item_init, Entity_init. rewrite !run_bind, alloc_run. fold n.
  cbn [mret M_ret]. rewrite run_bind.
  set (e0 := mkEntity name char colour x y false ITEM None (ClsItem consumable)).
  set (w0 := set_heap (heap w ++ [OEntity e0]) w).
  assert (Hc0 : get_component w0 consumable = Ok cc).
  { apply get_component_Ok. unfold w0. by rewrite lookup_set_heap_old. }
  rewrite (update_component_run _ _ _ _ Hc0).
  assert (He : get_entity (store consumable (OComponent (set_comp_parent n cc)) w0) n
               = Ok e0).
  { rewrite get_entity_store_ne by lia. apply get_entity_alloc. }
  eexists. split; [reflexivity|]. split_and!.
  - by apply lookup_ge_None.
  - exact He.
  - eapply get_component_store_eq. by apply get_component_Ok.
  - unfold Entity_gamemap. destruct recursion_limit_S as [k ->].
    by rewrite (gamemap_of_entity _ _ _ _ He).
  - intros a o Ha Hne. rewrite lookup_store_ne by done.
    unfold w0. rewrite lookup_set_heap_old; [done|]. by eapply allocated.
Qed.

(** A second potion made from the consumable of the first. *)
Lemma Item_init_wires_witness :
  ∃ w', Item_init 2 2 "!" (127, 0, 255) "Health Potion" 6%nat cellar_world
        = (Ok 14%nat, w')
        ∧ get_component w' 6%nat = Ok (mkComponent ClsConsumable (Some 14%nat) [] [4])
        ∧ get_map w' 1%nat = get_map cellar_world 1%nat.
Proof.
  destruct (Item_init_wires 2 2 "!" (127, 0, 255) "Health Potion" 6%nat
              cellar_world _ eq_refl)
    as (w' & Hrun & _ & _ & Hc & _ & Hframe).
  exists w'. split; [exact Hrun|]. split; [exact Hc|].
  unfold get_map at 1. by rewrite (Hframe 1%nat _ eq_refl).
Defined.

(** X10.  No method of these files assigns [blocks_movement] or
    [render_order] after construction.  So in every world reached through
    their constructors and methods an item does not block and has render
    order [ITEM]; [get_blocking_entity_at_location] never answers with an
    item; and a cell on which only items lie is reported free. *)
Theorem items_never_block w :
  reachable w →
  (∀ a e, get_entity w a = Ok e → is_item e = true →
     ent_blocks_movement e = false ∧ ent_render_order e = ITEM)
  ∧ (∀ gm x y b, get_blocking_entity_at_location w gm x y = Ok (Some b) →
       item_member w b = false)
  ∧ (∀ gm m x y,
       get_map w gm = Ok m → entities_only w (gm_entities m) →
       (∀ a e, a ∈ gm_entities m → get_entity w a = Ok e →
          ent_x e = x → ent_y e = y → is_item e = true) →
       get_blocking_entity_at_location w gm x y = Ok None).
Proof.
  intros Hreach. apply reachable_well_formed in Hreach.
  assert (Hitem : ∀ a e, get_entity w a = Ok e → is_item e = true →
                    ent_blocks_movement e = false ∧ ent_render_order e = ITEM).
  { intros a e He Hi. apply get_entity_Ok in He.
    by apply (all_well_formed_lookup _ _ _ Hreach He). }
  split_and!.
  - exact Hitem.
  - intros gm x y b. unfold get_blocking_entity_at_location.
    destruct (get_map w gm) as [m|ex]; [|done]. cbn.
    intros [_ Hb]%blocking_scan_Some. unfold blocks_at in Hb. unfold item_member.
    destruct (get_entity w b) as [e|ex] eqn:He; [|done].
    destruct (is_item e) eqn:Hi; [|done].
    destruct (Hitem _ _ He Hi) as [Hf _]. by rewrite Hf in Hb.
  - intros gm m x y Hm Hl Honly.
    unfold get_blocking_entity_at_location. rewrite Hm. cbn.
    rewrite (blocking_scan_first _ _ _ _ Hl). f_equal. apply head_filter_None.
    intros a Ha. destruct (Hl a Ha) as [e He]. unfold blocks_at. rewrite He.
    destruct (ent_x e =? x) eqn:Hx; [|by rewrite andb_false_r].
    destruct (ent_y e =? y) eqn:Hy; [|by rewrite andb_false_r].
    apply Z.eqb_eq in Hx, Hy.
    destruct (Hitem _ _ He (Honly _ _ Ha He Hx Hy)) as [-> _]. done.
Qed.

(** The scroll lies alone on cell (2, 1) of the cellar. *)
Lemma items_never_block_witness :
  get_blocking_entity_at_location cellar_world 1%nat 2 1 = Ok None
  ∧ item_member cellar_world 9%nat = true.
Proof.
  split; [|reflexivity].
  destruct (items_never_block cellar_world cellar_world_reachable) as (_ & _ & Hfree).
  eapply (Hfree 1%nat _ 2 1 eq_refl).
  - intros a Ha. cbn in Ha. each_member Ha; eexists; reflexivity.
  - intros a e Ha He Hx Hy. cbn in Ha.
    each_member Ha; injection He as <-; cbn in *; done.
Defined.

(** ** The bounds check and the grids *)

Lemma np_index_Ok {A} (l : list A) (i : Z) :
  0 ≤ i < Z.of_nat (length l) → ∃ v, np_index l i = Ok v ∧ l !! Z.to_nat i = Some v.
Proof.
  intros Hi. unfold np_index.
  destruct (i <? 0) eqn:Hneg; [apply Z.ltb_lt in Hneg; lia|].
  rewrite (proj2 (Z.leb_le 0 i)) by lia. rewrite (proj2 (Z.ltb_lt _ _)) by lia. cbn.
  destruct (l !! Z.to_nat i) as [v|] eqn:Hv; [by exists v|].
  apply lookup_ge_None in Hv. lia.
Qed.

Lemma np_index_beyond {A} (l : list A) (i : Z) :
  Z.of_nat (length l) ≤ i → np_index l i = Raise IndexError.
Proof.
  intros Hi. unfold np_index.
  destruct (i <? 0) eqn:Hneg; [apply Z.ltb_lt in Hneg; lia|].
  rewrite (proj2 (Z.ltb_ge _ _)) by lia. by rewrite andb_false_r.
Qed.

Lemma np_index_wraps {A} (l : list A) (i : Z) :
  - Z.of_nat (length l) ≤ i < 0 → np_index l i = np_index l (i + Z.of_nat (length l)).
Proof.
  intros Hi. unfold np_index.
  rewrite (proj2 (Z.ltb_lt i 0)) by lia.
  by rewrite (proj2 (Z.ltb_ge (i + Z.of_nat (length l)) 0)) by lia.
Qed.

Lemma grid_shape_width {A} width height (g : list (list A)) :
  grid_shape width height g → length g = Z.to_nat width.
Proof.
  unfold grid_shape. intros H. apply (f_equal length) in H.
  by rewrite length_fmap, length_replicate in H.
Qed.

Lemma grid_shape_column {A} width height (g : list (list A)) i col :
  grid_shape width height g → g !! i = Some col → length col = Z.to_nat height.
Proof.
  unfold grid_shape. intros H Hcol.
  assert (Hl : (length <$> g) !! i = Some (length col)) by (by rewrite list_lookup_fmap, Hcol).
  rewrite H in Hl. by apply lookup_replicate in Hl as [<- _].
Qed.

(** A cell inside a grid of the map's shape. *)
Lemma grid_at_shaped {A} width height (g : list (list A)) x y :
  grid_shape width height g → 0 ≤ x < width → 0 ≤ y < height →
  ∃ v, grid_at g x y = Ok v
       ∧ (col ← g !! Z.to_nat x; col !! Z.to_nat y) = Some v.
Proof.
  intros Hg Hx Hy. pose proof (grid_shape_width _ _ _ Hg) as Hw.
  destruct (np_index_Ok g x) as (col & Hcol & Hcol'); [lia|].
  pose proof (grid_shape_column _ _ _ _ _ Hg Hcol') as Hh.
  destruct (np_index_Ok col y) as (v & Hv & Hv'); [lia|].
  exists v. unfold grid_at. rewrite Hcol, Hcol'. cbn. by rewrite Hv.
Qed.

Lemma in_bounds_true w gm m x y :
  get_map w gm = Ok m → in_bounds w gm x y = Ok true →
  0 ≤ x < gm_width m ∧ 0 ≤ y < gm_height m.
Proof.
  intros Hm. unfold in_bounds. rewrite Hm. cbn. intros [= H].
  apply andb_prop in H as [[? ?]%andb_prop [? ?]%andb_prop]. lia.
Qed.

(** X11.  The bounds check is the guard the grids need.  On every map whose
    grids have the size of the map, whatever they hold, a cell that
    [in_bounds] accepts can be read from [tiles], [visible] and [explored]
    without [IndexError].  An [x] at or beyond the width raises
    [IndexError]; a negative [x] down to minus the width does not raise: the
    cell one width further is read. *)
Theorem in_bounds_guards_grids w gm m :
  get_map w gm = Ok m → map_sized m →
  (∀ x y, in_bounds w gm x y = Ok true →
     (∃ t, grid_at (gm_tiles m) x y = Ok t ∧ tile_walkable w gm x y = Ok (walkable t))
     ∧ (∃ v, grid_at (gm_visible m) x y = Ok v)
     ∧ (∃ e, grid_at (gm_explored m) x y = Ok e))
  ∧ (∀ x y, gm_width m ≤ x → grid_at (gm_tiles m) x y = Raise IndexError)
  ∧ (∀ x y, - gm_width m ≤ x < 0 →
       grid_at (gm_tiles m) x y = grid_at (gm_tiles m) (x + gm_width m) y).
Proof.
  intros Hm (Hw0 & Hh0 & Ht & Hv & He).
  pose proof (grid_shape_width _ _ _ Ht) as Hw.
  split_and!.
  - intros x y Hin. destruct (in_bounds_true _ _ _ _ _ Hm Hin) as [Hx Hy].
    split_and!.
    + destruct (grid_at_shaped _ _ _ x y Ht Hx Hy) as (t & Hg & _).
      exists t. split; [done|]. unfold tile_walkable. rewrite Hm. cbn. by rewrite Hg.
    + destruct (grid_at_shaped _ _ _ x y Hv Hx Hy) as (v & Hg & _). by exists v.
    + destruct (grid_at_shaped _ _ _ x y He Hx Hy) as (e & Hg & _). by exists e.
  - intros x y Hx. unfold grid_at. rewrite np_index_beyond; [done|lia].
  - intros x y Hx. unfold grid_at.
    rewrite np_index_wraps by lia. do 2 f_equal. lia.
Qed.

(** In the lit cellar with its two walls, 4 wide: the wall at (3, 0) and the
    floor at (3, 2) are read, column 4 is not there, and column -1 is
    column 3. *)
Lemma in_bounds_guards_grids_witness :
  ∃ m, get_map carved_cellar_world 1%nat = Ok m
       ∧ grid_at (gm_tiles m) 3 0 = Ok wall_tile
       ∧ tile_walkable carved_cellar_world 1%nat 3 2 = Ok true
       ∧ grid_at (gm_visible m) 1 2 = Ok true
       ∧ grid_at (gm_tiles m) 4 2 = Raise IndexError
       ∧ grid_at (gm_tiles m) (-1) 2 = grid_at (gm_tiles m) 3 2.
Proof.
  eexists. split; [reflexivity|].
  edestruct (in_bounds_guards_grids carved_cellar_world 1%nat _ eq_refl)
    as (Hin & Hout & Hwrap).
  { unfold map_sized, map_shaped, grid_shape. cbn. split_and!; (lia || reflexivity). }
  split_and!.
  - reflexivity.
  - destruct (Hin 3 2 eq_refl) as ((t & Ht & ->) & _).
    vm_compute in Ht. by injection Ht as <-.
  - reflexivity.
  - apply Hout. cbn. lia.
  - apply (Hwrap (-1) 2). cbn. lia.
Defined.

(** ** Actions under any engine property *)

Lemma get_entity_error w a ex : get_entity w a = Raise ex → ex = AttributeError.
Proof. unfold get_entity. destruct (heap w !! a) as [[]|]; congruence. Qed.

Lemma get_map_error w a ex : get_map w a = Raise ex → ex = AttributeError.
Proof. unfold get_map. destruct (heap w !! a) as [[]|]; congruence. Qed.

Lemma blocking_scan_error w l x y ex :
  blocking_scan w l x y = Raise ex → ex = AttributeError.
Proof.
  induction l as [|a l IH]; [done|]. cbn [blocking_scan].
  destruct (get_entity w a) as [e|ex'] eqn:He; cbn.
  - destruct (_ && _ && _); [done|exact IH].
  - intros [= <-]. by eapply get_entity_error.
Qed.

(** An object has the attribute [game_map] or the lookup raises
    [AttributeError]. *)
Lemma attr_obj_game_map_error w a ex :
  attr_obj w a "game_map" = Raise ex → ex = AttributeError.
Proof.
  unfold attr_obj.
  destruct (get_entity w a) as [e|ex'] eqn:He.
  { rewrite (getattr_game_map _ _ _ He). cbn. congruence. }
  unfold getattr. unfold get_entity in He.
  destruct (heap w !! a) as [[e|c|m|g]|]; try done; cbn; try congruence.
  destruct (eng_game_map g); cbn; congruence.
Qed.

(** [MovementAction.perform] when a lookup before the first guard raises. *)
Lemma MovementAction_perform_unresolved engine w entity dx dy :
  (∀ ex, get_entity w entity = Raise ex →
     MovementAction_perform engine entity dx dy w = (Raise ex, w))
  ∧ (∀ e ex, get_entity w entity = Ok e → engine_game_map engine w entity = Raise ex →
       MovementAction_perform engine entity dx dy w = (Raise ex, w))
  ∧ (∀ e gm ex, get_entity w entity = Ok e → engine_game_map engine w entity = Ok gm →
       get_map w gm = Raise ex →
       MovementAction_perform engine entity dx dy w = (Raise ex, w)).
Proof.
  split_and!.
  - intros ex He. unfold MovementAction_perform. rewrite run_bind.
    unfold read at 1, dest_xy at 1. by rewrite He.
  - intros e ex He Hg. unfold MovementAction_perform. rewrite run_bind.
    unfold read at 1, dest_xy at 1. rewrite He. cbn [mbind result_bind mret result_ret].
    rewrite run_bind. unfold read at 1. by rewrite Hg.
  - intros e gm ex He Hg Hm. unfold MovementAction_perform. rewrite run_bind.
    unfold read at 1, dest_xy at 1. rewrite He. cbn [mbind result_bind mret result_ret].
    rewrite run_bind. unfold read at 1. rewrite Hg.
    rewrite run_bind. unfold read at 1, in_bounds at 1. by rewrite Hm.
Qed.

(** All that [MovementAction.perform] ever changes. *)
Lemma MovementAction_perform_changes engine w entity dx dy :
  exec (MovementAction_perform engine entity dx dy) w = w
  ∨ ∃ e gm,
      get_entity w entity = Ok e
      ∧ engine_game_map engine w entity = Ok gm
      ∧ in_bounds w gm (ent_x e + dx) (ent_y e + dy) = Ok true
      ∧ tile_walkable w gm (ent_x e + dx) (ent_y e + dy) = Ok true
      ∧ get_blocking_entity_at_location w gm (ent_x e + dx) (ent_y e + dy) = Ok None
      ∧ MovementAction_perform engine entity dx dy w = move entity dx dy w
      ∧ MovementAction_perform engine entity dx dy w
        = (Ok tt, exec (move entity dx dy) w)
      ∧ position (exec (move entity dx dy) w) entity
        = Ok (ent_x e + dx, ent_y e + dy).
Proof.
  destruct (MovementAction_perform_unresolved engine w entity dx dy)
    as (Hu1 & Hu2 & Hu3).
  destruct (get_entity w entity) as [e|ex] eqn:He;
    [|left; unfold exec; by rewrite (Hu1 _ eq_refl)].
  destruct (engine_game_map engine w entity) as [gm|ex] eqn:Hg;
    [|left; unfold exec; by rewrite (Hu2 _ _ eq_refl eq_refl)].
  destruct (get_map w gm) as [m|ex] eqn:Hm;
    [|left; unfold exec; by rewrite (Hu3 _ _ _ eq_refl eq_refl Hm)].
  pose proof (MovementAction_perform_resolved engine w entity e dx dy gm m Hg He Hm)
    as Hrun. cbn zeta in Hrun.
  unfold exec. rewrite Hrun.
  destruct ((0 <=? ent_x e + dx) && (ent_x e + dx <? gm_width m)
            && ((0 <=? ent_y e + dy) && (ent_y e + dy <? gm_height m))) eqn:Hin;
    cbn [negb]; [|by left].
  destruct (grid_at (gm_tiles m) (ent_x e + dx) (ent_y e + dy)) as [tile|ex] eqn:Ht;
    [|by left].
  destruct (walkable tile) eqn:Hwalk; cbn [negb]; [|by left].
  destruct (blocking_scan w (gm_entities m) (ent_x e + dx) (ent_y e + dy))
    as [[b|]|ex] eqn:Hb; [by left| |by left].
  right. exists e, gm.
  assert (Hmove : move entity dx dy w
                  = (Ok tt, store entity (OEntity (set_y (ent_y e + dy)
                                                    (set_x (ent_x e + dx) e)))
                              (store entity (OEntity (set_x (ent_x e + dx) e)) w))).
  { rewrite (move_run _ _ _ _ _ He). by rewrite store_store. }
  split_and!; try done.
  - unfold in_bounds. rewrite Hm. cbn. by rewrite Hin.
  - unfold tile_walkable. rewrite Hm. cbn. rewrite Ht. cbn. by rewrite Hwalk.
  - unfold get_blocking_entity_at_location. rewrite Hm. cbn. exact Hb.
  - by rewrite Hmove.
  - unfold exec, position. rewrite (move_run _ _ _ _ _ He). cbn [snd].
    by rewrite (get_entity_store_eq _ _ _ _ He).
Qed.


(** [MovementAction.perform] on a free destination. *)
Lemma MovementAction_perform_moves engine w entity e dx dy gm :
  get_entity w entity = Ok e →
  engine_game_map engine w entity = Ok gm →
  in_bounds w gm (ent_x e + dx) (ent_y e + dy) = Ok true →
  tile_walkable w gm (ent_x e + dx) (ent_y e + dy) = Ok true →
  get_blocking_entity_at_location w gm (ent_x e + dx) (ent_y e + dy) = Ok None →
  MovementAction_perform engine entity dx dy w = (Ok tt, exec (move entity dx dy) w).
Proof.
  intros He Hg Hin Hwalk Hfree.
  destruct (get_map w gm) as [m|ex] eqn:Hm;
    [|unfold in_bounds in Hin; by rewrite Hm in Hin].
  rewrite (MovementAction_perform_resolved engine w entity e dx dy gm m Hg He Hm).
  cbn zeta. unfold in_bounds, tile_walkable, get_blocking_entity_at_location in *.
  rewrite Hm in Hin, Hwalk, Hfree. cbn in Hin, Hwalk, Hfree.
  injection Hin as ->. cbn [negb].
  destruct (grid_at (gm_tiles m) (ent_x e + dx) (ent_y e + dy)) as [tile|ex];
    [|done]. cbn in Hwalk. injection Hwalk as ->. cbn [negb]. rewrite Hfree.
  unfold exec. rewrite (move_run _ _ _ _ _ He). cbn [snd]. by rewrite store_store.
Qed.

(** X12.  [MovementAction.perform], whatever the [engine] property
    resolves to.  When the destination is inside the engine's map, its tile
    is walkable and no blocking entity of that map stands on it, the call
    returns and has done what [move] does.  That is the one case in which
    it changes anything: in every other case, a raise included, the world
    is as it was. *)
Theorem MovementAction_perform_outcomes engine w entity dx dy :
  (∀ e gm,
     get_entity w entity = Ok e →
     engine_game_map engine w entity = Ok gm →
     in_bounds w gm (ent_x e + dx) (ent_y e + dy) = Ok true →
     tile_walkable w gm (ent_x e + dx) (ent_y e + dy) = Ok true →
     get_blocking_entity_at_location w gm (ent_x e + dx) (ent_y e + dy) = Ok None →
     MovementAction_perform engine entity dx dy w = (Ok tt, exec (move entity dx dy) w)
     ∧ position (exec (move entity dx dy) w) entity = Ok (ent_x e + dx, ent_y e + dy))
  ∧ (exec (MovementAction_perform engine entity dx dy) w = w
     ∨ ∃ e gm,
         get_entity w entity = Ok e
         ∧ engine_game_map engine w entity = Ok gm
         ∧ in_bounds w gm (ent_x e + dx) (ent_y e + dy) = Ok true
         ∧ tile_walkable w gm (ent_x e + dx) (ent_y e + dy) = Ok true
         ∧ get_blocking_entity_at_location w gm (ent_x e + dx) (ent_y e + dy)
           = Ok None).
Proof.
  split.
  - intros e gm He Hg Hin Hwalk Hfree.
    split; [by apply (MovementAction_perform_moves _ _ _ _ _ _ _ He Hg)|].
    unfold exec, position. rewrite (move_run _ _ _ _ _ He). cbn [snd].
    by rewrite (get_entity_store_eq _ _ _ _ He).
  - destruct (MovementAction_perform_changes engine w entity dx dy)
      as [Hsame|(e & gm & He & Hg & Hin & Hwalk & Hfree & _)]; [by left|].
    right. by exists e, gm.
Qed.

(** The player of the cellar steps east, onto the cell of the scroll. *)
Lemma MovementAction_perform_outcomes_witness :
  MovementAction_perform engine_through_gamemap 4%nat 1 0 cellar_world
  = (Ok tt, exec (move 4%nat 1 0) cellar_world)
  ∧ position (exec (move 4%nat 1 0) cellar_world) 4%nat = Ok (2, 1).
Proof.
  destruct (MovementAction_perform_outcomes engine_through_gamemap cellar_world 4%nat 1 0)
    as [Hmoves _].
  exact (Hmoves _ 1%nat eq_refl eq_refl eq_refl eq_refl eq_refl).
Defined.

(** X13.  Where the grids of the engine's map have the size of the map,
    whatever they hold, [MovementAction.perform] never raises [IndexError]
    from the tile grid: the bounds check comes first.  When it raises, the
    world is as it was and the error is an [AttributeError] of an attribute
    lookup or the error that the [engine] property itself raised. *)
Theorem MovementAction_perform_raises engine w entity dx dy ex w' :
  (∀ gm m, engine_game_map engine w entity = Ok gm → get_map w gm = Ok m →
           map_sized m) →
  MovementAction_perform engine entity dx dy w = (Raise ex, w') →
  w' = w ∧ (ex = AttributeError ∨ engine w entity = Raise ex).
Proof.
  intros Hsized.
  destruct (MovementAction_perform_unresolved engine w entity dx dy)
    as (Hu1 & Hu2 & Hu3).
  destruct (get_entity w entity) as [e|ex1] eqn:He.
  2:{ rewrite (Hu1 _ eq_refl). intros [= <- <-]. split; [done|left].
      by eapply get_entity_error. }
  destruct (engine_game_map engine w entity) as [gm|ex1] eqn:Hg.
  2:{ rewrite (Hu2 _ _ eq_refl eq_refl). intros [= <- <-]. split; [done|].
      unfold engine_game_map in Hg. destruct (engine w entity) as [eng|ex2]; cbn in Hg.
      - left. by eapply attr_obj_game_map_error.
      - right. congruence. }
  destruct (get_map w gm) as [m|ex1] eqn:Hm.
  2:{ rewrite (Hu3 _ _ _ eq_refl eq_refl Hm). intros [= <- <-]. split; [done|left].
      by eapply get_map_error. }
  pose proof (MovementAction_perform_resolved engine w entity e dx dy gm m Hg He Hm)
    as Hrun. cbn zeta in Hrun. rewrite Hrun.
  destruct ((0 <=? ent_x e + dx) && (ent_x e + dx <? gm_width m)
            && ((0 <=? ent_y e + dy) && (ent_y e + dy <? gm_height m))) eqn:Hin;
    cbn [negb]; [|done].
  destruct (Hsized _ _ eq_refl Hm) as (_ & _ & Ht & _).
  destruct (grid_at_shaped _ _ _ (ent_x e + dx) (ent_y e + dy) Ht) as (tile & -> & _).
  { apply andb_prop in Hin as [[? ?]%andb_prop _]. lia. }
  { apply andb_prop in Hin as [_ [? ?]%andb_prop]. lia. }
  destruct (walkable tile); cbn [negb]; [|done].
  destruct (blocking_scan w (gm_entities m) (ent_x e + dx) (ent_y e + dy))
    as [[b|]|ex1] eqn:Hb; [done|done|].
  intros [= <- <-]. split; [done|left]. by eapply blocking_scan_error.
Qed.

(** The player steps east on the second map: the destination is inside it
    and its tile is walkable, and the scan for a blocking entity raises at
    the fighter component in the entity set. *)
Lemma MovementAction_perform_raises_witness :
  in_bounds stray_member_world 14%nat 2 1 = Ok true
  ∧ tile_walkable stray_member_world 14%nat 2 1 = Ok true
  ∧ engine_through_gamemap stray_member_world 4%nat = Ok 0%nat
  ∧ ∃ ex w',
      MovementAction_perform engine_through_gamemap 4%nat 1 0 stray_member_world
      = (Raise ex, w')
      ∧ w' = stray_member_world
      ∧ (ex = AttributeError
         ∨ engine_through_gamemap stray_member_world 4%nat = Raise ex).
Proof.
  split_and!; try reflexivity.
  exists AttributeError, stray_member_world. split; [reflexivity|].
  apply (MovementAction_perform_raises engine_through_gamemap stray_member_world
           4%nat 1 0 AttributeError stray_member_world); [|reflexivity].
  intros gm m Hg Hm. vm_compute in Hg. injection Hg as <-.
  vm_compute in Hm. injection Hm as <-.
  unfold map_sized, map_shaped, grid_shape. cbn. split_and!; (lia || reflexivity).
Defined.

(** [MeléeAction.perform], by what [blocking_entity] finds. *)
Lemma MeleeAction_perform_run engine w entity dx dy :
  MeleeAction_perform engine entity dx dy w
  = match blocking_entity engine w entity dx dy with
    | Raise ex => (Raise ex, w)
    | Ok None => (Ok tt, w)
    | Ok (Some t) =>
        match kick_line w t with
        | Ok line => (Ok tt, mkWorld (heap w) (stdout w ++ [line]))
        | Raise ex => (Raise ex, w)
        end
    end.
Proof.
  unfold MeleeAction_perform. rewrite run_bind. unfold read at 1.
  destruct (blocking_entity engine w entity dx dy) as [[t|]|ex]; [|done|done].
  rewrite run_bind. unfold read, kick_line.
  by destruct (get_entity w t) as [e|ex].
Qed.

Lemma blocking_entity_Some engine w entity dx dy t :
  blocking_entity engine w entity dx dy = Ok (Some t) → ∃ e, get_entity w t = Ok e.
Proof.
  unfold blocking_entity.
  destruct (engine_game_map engine w entity) as [gm|]; [|done]. cbn.
  destruct (dest_xy w entity dx dy) as [d|]; [|done]. cbn.
  unfold get_blocking_entity_at_location.
  destruct (get_map w gm) as [m|]; [|done]. cbn.
  intros [_ Hb]%blocking_scan_Some. unfold blocks_at in Hb.
  destruct (get_entity w t) as [e|]; [by exists e|done].
Qed.

(** X14.  [MeléeAction.perform] changes no object.  When a blocking entity
    stands on the destination it prints one line, which names that entity,
    and returns; when none does it returns without a line; when the lookup
    raises it raises the same error. *)
Theorem MeleeAction_perform_effect engine w entity dx dy :
  heap (exec (MeleeAction_perform engine entity dx dy) w) = heap w
  ∧ match blocking_entity engine w entity dx dy with
    | Ok (Some t) =>
        ∃ e, get_entity w t = Ok e
             ∧ MeleeAction_perform engine entity dx dy w
               = (Ok tt, mkWorld (heap w)
                           (stdout w ++ [("You kick the " ++ ent_name e
                                          ++ ", much to its annoyance!")%string]))
    | Ok None => MeleeAction_perform engine entity dx dy w = (Ok tt, w)
    | Raise ex => MeleeAction_perform engine entity dx dy w = (Raise ex, w)
    end.
Proof.
  unfold exec. rewrite MeleeAction_perform_run.
  destruct (blocking_entity engine w entity dx dy) as [[t|]|ex] eqn:Hb; [|done|done].
  destruct (blocking_entity_Some _ _ _ _ _ _ Hb) as [e He].
  unfold kick_line. rewrite He. cbn. split; [done|]. by exists e.
Qed.

(** The orc of the cellar reaches for the player's cell. *)
Lemma MeleeAction_perform_effect_witness :
  MeleeAction_perform engine_through_gamemap 12%nat (-2) (-1) cellar_world
  = (Ok tt, mkWorld (heap cellar_world)
              ["You kick the Player, much to its annoyance!"]).
Proof.
  destruct (MeleeAction_perform_effect engine_through_gamemap cellar_world 12%nat (-2) (-1))
    as [_ Hrun].
  change (blocking_entity engine_through_gamemap cellar_world 12%nat (-2) (-1))
    with (Ok (A:=option nat) (Some 4%nat)) in Hrun.
  destruct Hrun as (e & He & Hrun). injection He as <-. exact Hrun.
Defined.

(** ** One blocking entity per cell *)

Lemma blocks_at_store_ne w a b o x y :
  a ≠ b → blocks_at (store a o w) x y b = blocks_at w x y b.
Proof. intros Hne. unfold blocks_at. by rewrite get_entity_store_ne. Qed.

Lemma cells_exclusive_heap w w' gm :
  heap w' = heap w → cells_exclusive w gm → cells_exclusive w' gm.
Proof.
  intros Hh Hex m a b x y Hm Ha Hb Hba Hbb.
  assert (Hg : ∀ c, get_entity w' c = get_entity w c)
    by (intros c; unfold get_entity; by rewrite Hh).
  apply (Hex m a b x y); try done.
  - unfold get_map in *. by rewrite <- Hh.
  - unfold blocks_at in *. by rewrite <- Hg.
  - unfold blocks_at in *. by rewrite <- Hg.
Qed.

(** A step onto a cell that no member blocks keeps the cells exclusive. *)
Lemma cells_exclusive_move w gm m entity e dx dy :
  get_entity w entity = Ok e → get_map w gm = Ok m →
  get_blocking_entity_at_location w gm (ent_x e + dx) (ent_y e + dy) = Ok None →
  cells_exclusive w gm → cells_exclusive (exec (move entity dx dy) w) gm.
Proof.
  intros He Hm Hfree Hex. unfold exec. rewrite (move_run _ _ _ _ _ He). cbn [snd].
  set (e' := set_y (ent_y e + dy) (set_x (ent_x e + dx) e)).
  unfold get_blocking_entity_at_location in Hfree. rewrite Hm in Hfree. cbn in Hfree.
  apply blocking_scan_None in Hfree as [_ Hfree].
  assert (Hown : ∀ x y, blocks_at (store entity (OEntity e') w) x y entity = true →
                        x = ent_x e + dx ∧ y = ent_y e + dy).
  { intros x y. unfold blocks_at. rewrite (get_entity_store_eq _ _ _ _ He). cbn.
    intros [[_ Hx%Z.eqb_eq]%andb_prop Hy%Z.eqb_eq]%andb_prop. done. }
  intros m' a b x y Hm' Ha Hb Hba Hbb.
  rewrite (get_map_store_entity _ _ _ _ _ He), Hm in Hm'. injection Hm' as <-.
  destruct (decide (a = entity)) as [->|Hae], (decide (b = entity)) as [->|Hbe].
  - done.
  - exfalso. destruct (Hown _ _ Hba) as [-> ->].
    rewrite blocks_at_store_ne in Hbb by done. by rewrite (Hfree b Hb) in Hbb.
  - exfalso. destruct (Hown _ _ Hbb) as [-> ->].
    rewrite blocks_at_store_ne in Hba by done. by rewrite (Hfree a Ha) in Hba.
  - rewrite blocks_at_store_ne in Hba, Hbb by done. by apply (Hex m a b x y).
Qed.

Lemma cells_exclusive_MovementAction engine w entity dx dy gm :
  engine_game_map engine w entity = Ok gm → cells_exclusive w gm →
  cells_exclusive (exec (MovementAction_perform engine entity dx dy) w) gm.
Proof.
  intros Hg Hex.
  destruct (MovementAction_perform_unresolved engine w entity dx dy)
    as (Hu1 & Hu2 & Hu3).
  destruct (get_entity w entity) as [e|ex] eqn:He;
    [|unfold exec; by rewrite (Hu1 _ eq_refl)].
  destruct (get_map w gm) as [m|ex] eqn:Hm;
    [|unfold exec; by rewrite (Hu3 _ _ _ eq_refl Hg Hm)].
  pose proof (MovementAction_perform_resolved engine w entity e dx dy gm m Hg He Hm)
    as Hrun. cbn zeta in Hrun.
  pose proof (cells_exclusive_move w gm m entity e dx dy He Hm) as Hmove.
  unfold exec in *. rewrite (move_run _ _ _ _ _ He) in Hmove. cbn [snd] in Hmove.
  unfold get_blocking_entity_at_location in Hmove. rewrite Hm in Hmove. cbn in Hmove.
  rewrite Hrun.
  destruct (negb _); [done|].
  destruct (grid_at _ _ _) as [tile|ex]; [|done].
  destruct (negb _); [done|].
  destruct (blocking_scan w (gm_entities m) (ent_x e + dx) (ent_y e + dy))
    as [[b|]|ex] eqn:Hb; [done| |done].
  cbn [snd]. rewrite store_store. by apply Hmove.
Qed.

Lemma cells_exclusive_MeleeAction engine w entity dx dy gm :
  cells_exclusive w gm →
  cells_exclusive (exec (MeleeAction_perform engine entity dx dy) w) gm.
Proof.
  apply cells_exclusive_heap. unfold exec. rewrite MeleeAction_perform_run.
  destruct (blocking_entity engine w entity dx dy) as [[t|]|ex]; [|done|done].
  by destruct (kick_line w t).
Qed.

(** X15.  No action puts two blocking entities on one cell.  If no cell of
    the map that the [engine] property leads to holds two blocking members
    before an action is performed, none does afterwards, whatever the
    action and however it ends. *)
Theorem perform_keeps_cells_exclusive engine a w gm :
  engine_game_map engine w (Action_entity a) = Ok gm →
  cells_exclusive w gm →
  cells_exclusive (exec (perform_via engine a) w) gm.
Proof.
  intros Hg Hex. destruct a as [entity|entity dx dy|entity|entity dx dy|entity dx dy|entity dx dy];
    cbn [perform_via Action_entity] in *; try done.
  - by apply cells_exclusive_MovementAction.
  - by apply cells_exclusive_MeleeAction.
  - unfold exec, BumpAction_perform. rewrite run_bind. unfold read at 1.
    destruct (blocking_entity engine w entity dx dy) as [[t|]|ex]; [| |done].
    + by apply cells_exclusive_MeleeAction.
    + by apply cells_exclusive_MovementAction.
Qed.

Lemma blocks_at_entity w x y a e :
  get_entity w a = Ok e →
  blocks_at w x y a = ent_blocks_movement e && (ent_x e =? x) && (ent_y e =? y).
Proof. intros He. unfold blocks_at. by rewrite He. Qed.

(** The cellar has one blocking entity per cell. *)
Lemma cellar_world_exclusive : cells_exclusive cellar_world 1%nat.
Proof.
  intros m a b x y [= <-] Ha Hb Hba Hbb. cbn in Ha, Hb.
  each_member Ha; each_member Hb; try done;
    repeat match goal with
           | H : blocks_at ?w ?x ?y ?a = true |- _ =>
               rewrite (blocks_at_entity w x y a _ eq_refl) in H
           end;
    cbn [ent_blocks_movement ent_x ent_y andb] in Hba, Hbb; try discriminate;
    apply andb_prop in Hba as [Hax%Z.eqb_eq Hay%Z.eqb_eq];
    apply andb_prop in Hbb as [Hbx%Z.eqb_eq Hby%Z.eqb_eq]; lia.
Qed.

(** The player of the cellar bumps east, where only the scroll lies. *)
Lemma perform_keeps_cells_exclusive_witness :
  position (exec (perform_via engine_through_gamemap (BumpAction 4%nat 1 0)) cellar_world)
           4%nat = Ok (2, 1)
  ∧ cells_exclusive
      (exec (perform_via engine_through_gamemap (BumpAction 4%nat 1 0)) cellar_world)
      1%nat.
Proof.
  split; [vm_compute; reflexivity|].
  apply perform_keeps_cells_exclusive; [|exact cellar_world_exclusive].
  vm_compute. reflexivity.
Defined.

(** ** The [engine] property of [Action] *)

(** X16.  [Action.engine] asks the entity for [game_map], an attribute that
    no class of [entity.py] has ([Entity] defines the property [gamemap]).
    So on every entity, in every world, the property raises
    [AttributeError], and so does every action that looks at the map:
    [MovementAction], [MeléeAction] and [BumpAction] do nothing but raise,
    whatever the direction. *)
Theorem Action_engine_never_resolves w entity e :
  get_entity w entity = Ok e →
  Action_engine w entity = Raise AttributeError
  ∧ hasattr w entity "game_map" = Ok false
  ∧ ∀ dx dy,
      perform (MovementAction entity dx dy) w = (Raise AttributeError, w)
      ∧ perform (MeleeAction entity dx dy) w = (Raise AttributeError, w)
      ∧ perform (BumpAction entity dx dy) w = (Raise AttributeError, w).
Proof.
  intros He. split_and!.
  - by eapply Action_engine_raises.
  - unfold hasattr. by rewrite (getattr_game_map _ _ _ He).
  - intros dx dy. by eapply directional_actions_raise.
Qed.

(** The orc of the cellar, one step west. *)
Lemma Action_engine_never_resolves_witness :
  Action_engine cellar_world 12%nat = Raise AttributeError
  ∧ perform (BumpAction 12%nat (-1) 0) cellar_world = (Raise AttributeError, cellar_world).
Proof.
  destruct (Action_engine_never_resolves cellar_world 12%nat _ eq_refl)
    as (Heng & _ & Hall).
  split; [exact Heng|]. by destruct (Hall (-1) 0) as (_ & _ & Hbump).
Defined.

(** ** More on [spawn] *)

(** X17.  The clone that [spawn] returns owns its components.  Every
    component of the template, whatever object it names as its owner, has a
    copy at a fresh address in the same role in the clone, of the same
    class and data, and the template's component is as it was.  The owner
    of the copy is the copy of the owner: where the template's component
    names the template, the copy names the clone. *)
Theorem spawn_clone_owns_components w self e gm m x y :
  get_entity w self = Ok e → get_map w gm = Ok m →
  let n := length (heap w) in
  ∃ w' e' f,
    spawn self gm x y w = (Ok n, w')
    ∧ get_entity w' n = Ok e'
    ∧ ent_cls e' = rename_cls f (ent_cls e)
    ∧ f self = n
    ∧ ∀ cT c0, cT ∈ components (ent_cls e) → get_component w cT = Ok c0 →
        (n < f cT)%nat
        ∧ get_component w' cT = Ok c0
        ∧ ∃ c1, get_component w' (f cT) = Ok c1
                ∧ comp_cls c1 = comp_cls c0 ∧ comp_data c1 = comp_data c0
                ∧ comp_parent c1 = f <$> comp_parent c0
                ∧ (comp_parent c0 = Some self → comp_parent c1 = Some n).
Proof.
  intros He Hm n.
  pose proof (spawn_run _ _ _ _ _ x y He Hm) as Hrun. cbn zeta in Hrun. fold n in Hrun.
  set (R := reachable_from (heap w) self) in *.
  set (e1 := rename_entity (memo R n) e) in *.
  set (w1 := set_heap (heap w ++ copies (heap w) R) w) in *.
  set (e3 := set_parent gm (set_y y (set_x x e1))) in *.
  set (w4 := store n (OEntity e3)
               (store n (OEntity (set_y y (set_x x e1)))
                  (store n (OEntity (set_x x e1)) w1))) in *.
  apply get_entity_Ok in He as Hs. apply get_map_Ok in Hm as Hg.
  pose proof (allocated _ _ _ Hs) as Hsn. pose proof (allocated _ _ _ Hg) as Hgn.
  fold n in Hsn, Hgn.
  assert (Hroot : copies (heap w) R !! 0%nat = Some (OEntity e1))
    by apply (copies_root _ _ _ Hs).
  assert (Hn4 : heap w4 !! n = Some (OEntity e3)).
  { unfold w4. apply lookup_store_eq. rewrite !length_store.
    unfold w1. cbn. rewrite length_app. apply lookup_lt_Some in Hroot. fold n. lia. }
  assert (Hold4 : ∀ a, (a < n)%nat → heap w4 !! a = heap w !! a).
  { intros a Ha. unfold w4. rewrite !lookup_store_ne by lia.
    unfold w1. by apply lookup_set_heap_old. }
  assert (Hnew4 : ∀ i, heap w4 !! (n + S i)%nat = copies (heap w) R !! S i).
  { intros i. unfold w4. rewrite !lookup_store_ne by lia.
    unfold w1, n. apply lookup_set_heap_new. }
  destruct (reachable_from_head (heap w) self) as [tl HR]. fold R in HR.
  exists (store gm (OGameMap (set_entities (set_add n (gm_entities m)) m)) w4),
         e3, (memo R n).
  split_and!; try done.
  - apply get_entity_Ok. rewrite lookup_store_ne by lia. exact Hn4.
  - rewrite HR. apply memo_head.
  - intros cT c0 HcT Hc0. apply get_component_Ok in Hc0 as Hc0'.
    pose proof (allocated _ _ _ Hc0') as HcTn. fold n in HcTn.
    assert (HcTg : cT ≠ gm) by (intros ->; congruence).
    assert (Hreach : cT ∈ R).
    { apply (reachable_from_closed (heap w) self Hsn self cT); [| |done].
      - fold R. rewrite HR. by left.
      - rewrite (refs_at_lookup _ _ _ Hs). cbn [refs]. apply elem_of_app. by right. }
    destruct (memo_reached R n cT Hreach) as (i & Hi & Hmemo).
    destruct i as [|i].
    { rewrite HR in Hi. injection Hi as ->. congruence. }
    split_and!.
    + lia.
    + apply get_component_Ok. rewrite lookup_store_ne by done. by rewrite Hold4.
    + exists (mkComponent (comp_cls c0) (memo R n <$> comp_parent c0)
                          (memo R n <$> comp_refs c0) (comp_data c0)).
      split_and!; try done.
      * apply get_component_Ok. rewrite lookup_store_ne by lia.
        rewrite Hmemo, Hnew4, (copies_lookup _ _ _ Hsn). fold R. rewrite Hi. cbn.
        by rewrite Hc0'.
      * intros Hparent. cbn. rewrite Hparent. cbn. f_equal. rewrite HR.
        apply memo_head.
Qed.

(** The orc of the cellar as a template: the fighter of the clone is a new
    object whose owner is the clone. *)
Lemma spawn_clone_owns_components_witness :
  ∃ w' c c1,
    spawn 12%nat 1%nat 0 0 cellar_world = (Ok 14%nat, w')
    ∧ (14 < c)%nat
    ∧ get_component w' c = Ok c1
    ∧ comp_parent c1 = Some 14%nat ∧ comp_cls c1 = ClsFighter
    ∧ get_component w' 10%nat
      = Ok (mkComponent ClsFighter (Some 12%nat) [] [30; 2; 5]).
Proof.
  destruct (spawn_clone_owns_components cellar_world 12%nat _ 1%nat _ 0 0 eq_refl eq_refl)
    as (w' & e' & f & Hrun & _ & _ & _ & Hcomp).
  edestruct (Hcomp 10%nat) as (Hlt & Hold & c1 & Hc1 & Hcls & _ & _ & Hp);
    [| reflexivity |].
  { cbn. apply elem_of_cons. right. by left. }
  exists w', (f 10%nat), c1. split_and!; try done. by apply Hp.
Defined.

Lemma living_at_entity w x y a e :
  get_entity w a = Ok e →
  living_at w x y a = is_actor e && is_alive e && (ent_x e =? x) && (ent_y e =? y).
Proof. intros He. unfold living_at. by rewrite He. Qed.

Lemma is_alive_is_actor e : is_alive e = true → is_actor e = true.
Proof. unfold is_alive, is_actor. by destruct (ent_cls e). Qed.

(** X18.  A living actor spawned on a cell where no living actor of the
    map stands is the actor that [get_actor_at_location] finds there. *)
Theorem spawn_then_get_actor_at_location w self e gm m x y :
  get_entity w self = Ok e → is_alive e = true →
  get_map w gm = Ok m → entities_only w (gm_entities m) →
  (∀ a, a ∈ gm_entities m → living_at w x y a = false) →
  ∃ w', spawn self gm x y w = (Ok (length (heap w)), w')
        ∧ get_actor_at_location w gm x y = Ok None
        ∧ get_actor_at_location w' gm x y = Ok (Some (length (heap w))).
Proof.
  intros He Halive Hm Hl Hnone.
  pose proof (spawn_run _ _ _ _ _ x y He Hm) as Hrun. cbn zeta in Hrun.
  set (n := length (heap w)) in *.
  set (R := reachable_from (heap w) self) in *.
  set (e1 := rename_entity (memo R n) e) in *.
  set (w1 := set_heap (heap w ++ copies (heap w) R) w) in *.
  set (e3 := set_parent gm (set_y y (set_x x e1))) in *.
  set (w4 := store n (OEntity e3)
               (store n (OEntity (set_y y (set_x x e1)))
                  (store n (OEntity (set_x x e1)) w1))) in *.
  set (w' := store gm (OGameMap (set_entities (set_add n (gm_entities m)) m)) w4) in *.
  apply get_entity_Ok in He as Hs. apply get_map_Ok in Hm as Hg.
  pose proof (allocated _ _ _ Hs) as Hsn. pose proof (allocated _ _ _ Hg) as Hgn.
  fold n in Hsn, Hgn.
  assert (Hroot : copies (heap w) R !! 0%nat = Some (OEntity e1))
    by apply (copies_root _ _ _ Hs).
  assert (Hlen4 : (n < length (heap w4))%nat).
  { unfold w4. rewrite !length_store.
    unfold w1. cbn. rewrite length_app. apply lookup_lt_Some in Hroot. fold n. lia. }
  assert (Hn : get_entity w' n = Ok e3).
  { apply get_entity_Ok. unfold w'. rewrite lookup_store_ne by lia.
    unfold w4 in *. apply lookup_store_eq. rewrite !length_store in Hlen4.
    by rewrite !length_store. }
  assert (Hold : ∀ a, a ∈ gm_entities m → living_at w' x y a = living_at w x y a).
  { intros a Ha. destruct (Hl a Ha) as [ea Hea]. apply get_entity_Ok in Hea as Hea'.
    pose proof (allocated _ _ _ Hea') as Han. fold n in Han.
    unfold living_at. rewrite (get_entity_same_lookup w w' a); [done|].
    unfold w'. rewrite lookup_store_ne by (intros ->; congruence).
    unfold w4. rewrite !lookup_store_ne by lia.
    unfold w1. by apply lookup_set_heap_old. }
  assert (Hfresh : n ∉ gm_entities m).
  { intros Hin. destruct (Hl n Hin) as [en Hen]. apply get_entity_Ok, allocated in Hen.
    unfold n in Hen. lia. }
  exists w'. split; [exact Hrun|]. split.
  - rewrite (get_actor_at_location_first _ _ _ _ _ Hm). f_equal.
    by apply head_filter_None.
  - assert (Hm' : get_map w' gm = Ok (set_entities (set_add n (gm_entities m)) m)).
    { apply get_map_Ok. unfold w'. apply lookup_store_eq. lia. }
    rewrite (get_actor_at_location_first _ _ _ _ _ Hm'). f_equal. cbn [gm_entities set_entities].
    unfold set_add, mem. rewrite bool_decide_eq_false_2 by done.
    apply head_filter_Some. exists (gm_entities m), []. split; [done|]. split.
    + intros a Ha. rewrite (Hold a Ha). by apply Hnone.
    + rewrite (living_at_entity _ _ _ _ _ Hn). cbn [ent_x ent_y e3 set_parent set_y].
      rewrite !Z.eqb_refl, !andb_true_r.
      assert (Ha3 : is_alive e3 = true).
      { unfold is_alive in *. cbn. by destruct (ent_cls e) as [|[?|] ? ?|?]. }
      by rewrite Ha3, (is_alive_is_actor _ Ha3).
Qed.

(** A second orc, spawned from the first on the free cell (0, 0). *)
Lemma spawn_then_get_actor_at_location_witness :
  ∃ w', spawn 12%nat 1%nat 0 0 cellar_world = (Ok 14%nat, w')
        ∧ get_actor_at_location cellar_world 1%nat 0 0 = Ok None
        ∧ get_actor_at_location w' 1%nat 0 0 = Ok (Some 14%nat).
Proof.
  apply (spawn_then_get_actor_at_location cellar_world 12%nat _ 1%nat _ 0 0
           eq_refl eq_refl eq_refl).
  - intros a Ha. cbn in Ha. each_member Ha; eexists; reflexivity.
  - intros a Ha. cbn in Ha. each_member Ha; reflexivity.
Defined.

(** ** Sorting by key *)

Lemma insert_by_key_Permutation p l : insert_by_key p l ≡ₚ p :: l.
Proof.
  induction l as [|q l IH]; [done|]. cbn [insert_by_key].
  destruct (p.1 <=? q.1); [done|]. rewrite IH. apply Permutation_swap.
Qed.

Lemma sorted_by_key_Permutation l : sorted_by_key l ≡ₚ l.
Proof.
  induction l as [|p l IH]; [done|]. cbn [sorted_by_key foldr].
  rewrite insert_by_key_Permutation. by f_equiv.
Qed.

Lemma insert_by_key_sorted p l :
  StronglySorted (λ a b : Z * nat, a.1 ≤ b.1) l →
  StronglySorted (λ a b : Z * nat, a.1 ≤ b.1) (insert_by_key p l).
Proof.
  induction 1 as [|q l Hl IH Hq]; cbn [insert_by_key].
  - repeat constructor.
  - destruct (p.1 <=? q.1) eqn:Hle.
    + apply Z.leb_le in Hle. constructor; [by constructor|].
      constructor; [done|]. eapply Forall_impl; [exact Hq|]. cbn. intros; lia.
    + apply Z.leb_gt in Hle. constructor; [done|].
      rewrite insert_by_key_Permutation. constructor; [lia|done].
Qed.

Lemma sorted_by_key_sorted l :
  StronglySorted (λ a b : Z * nat, a.1 ≤ b.1) (sorted_by_key l).
Proof.
  induction l as [|p l IH]; [constructor|]. by apply insert_by_key_sorted.
Qed.

(** Sorting is stable: the elements of one key keep their order. *)
Lemma insert_by_key_stable k p l :
  List.filter (λ q : Z * nat, q.1 =? k) (insert_by_key p l)
  = List.filter (λ q : Z * nat, q.1 =? k) (p :: l).
Proof.
  induction l as [|q l IH]; [done|]. cbn [insert_by_key].
  destruct (p.1 <=? q.1) eqn:Hle; [done|]. apply Z.leb_gt in Hle.
  cbn [List.filter] in *. rewrite IH.
  destruct (q.1 =? k) eqn:Hq, (p.1 =? k) eqn:Hp; try done.
  apply Z.eqb_eq in Hq, Hp. lia.
Qed.

Lemma sorted_by_key_stable k l :
  List.filter (λ q : Z * nat, q.1 =? k) (sorted_by_key l)
  = List.filter (λ q : Z * nat, q.1 =? k) l.
Proof.
  induction l as [|p l IH]; [done|]. cbn [sorted_by_key foldr].
  rewrite insert_by_key_stable. cbn [List.filter]. fold (sorted_by_key l).
  by rewrite IH.
Qed.

Lemma List_filter_Permutation {A} (f : A → bool) (l l' : list A) :
  l ≡ₚ l' → List.filter f l ≡ₚ List.filter f l'.
Proof.
  induction 1 as [|x l l' _ IH|x y l|l l' l'' _ IH1 _ IH2]; cbn.
  - done.
  - destruct (f x); [by f_equiv|done].
  - destruct (f x), (f y); try done. apply Permutation_swap.
  - by etrans.
Qed.

Lemma List_filter_sorted {A} (R : A → A → Prop) (f : A → bool) (l : list A) :
  StronglySorted R l → StronglySorted R (List.filter f l).
Proof.
  induction 1 as [|x l Hl IH Hx]; cbn; [constructor|].
  destruct (f x); [|done]. constructor; [done|].
  apply Forall_forall. intros y Hy. rewrite list_elem_of_In in Hy.
  apply filter_In in Hy as [Hy _]. rewrite Forall_forall in Hx. apply Hx.
  by apply list_elem_of_In.
Qed.

Lemma List_filter_filter {A} (f g : A → bool) (l : list A) :
  List.filter f (List.filter g l) = List.filter (λ a, f a && g a) l.
Proof.
  induction l as [|x l IH]; [done|]. cbn.
  destruct (g x); cbn; rewrite ?andb_false_r, ?andb_true_r.
  - destruct (f x); by rewrite IH.
  - exact IH.
Qed.

(** In a sorted list an element of a smaller key comes before one of a
    greater key. *)
Lemma sorted_before {A} (t : A → Z) (l : list A) (a b : A) :
  StronglySorted (λ a b, t a ≤ t b) l → a ∈ l → b ∈ l → t a < t b →
  ∃ l1 l2 l3, l = l1 ++ a :: l2 ++ b :: l3.
Proof.
  induction 1 as [|x l Hl IH Hx]; intros Ha Hb Hlt.
  - by apply elem_of_nil in Ha.
  - rewrite Forall_forall in Hx.
    apply elem_of_cons in Ha as [->|Ha], Hb as [->|Hb].
    + lia.
    + apply list_elem_of_split in Hb as (l2 & l3 & ->). by exists [], l2, l3.
    + specialize (Hx a Ha). lia.
    + destruct (IH Ha Hb Hlt) as (l1 & l2 & l3 & ->). by exists (x :: l1), l2, l3.
Qed.

(** Sorting pairs of a key and an address, each key being the tier of its
    address, is sorting the addresses by tier. *)
Lemma sorted_by_key_tiers (t : nat → Z) (l : list nat) :
  let s := (sorted_by_key ((λ a, (t a, a)) <$> l)).*2 in
  s ≡ₚ l
  ∧ StronglySorted (λ a b, t a ≤ t b) s
  ∧ ∀ k, List.filter (λ a, t a =? k) s = List.filter (λ a, t a =? k) l.
Proof.
  intros s. set (ks := (λ a, (t a, a)) <$> l) in *.
  assert (Hks : ks.*2 = l).
  { unfold ks. rewrite <- list_fmap_compose. by rewrite <- (list_fmap_id l) at 2. }
  assert (Hkey : ∀ p, p ∈ sorted_by_key ks → p.1 = t p.2).
  { intros p Hp. rewrite sorted_by_key_Permutation in Hp.
    unfold ks in Hp. by apply list_elem_of_fmap in Hp as (a & -> & _). }
  assert (Hfilter : ∀ k (S : list (Z * nat)),
             (∀ p, p ∈ S → p.1 = t p.2) →
             List.filter (λ a, t a =? k) (S.*2)
             = (List.filter (λ p : Z * nat, p.1 =? k) S).*2).
  { intros k S. induction S as [|p S IH]; intros HS; [done|]. cbn.
    rewrite <- (HS p) by left. rewrite IH by (intros q Hq; apply HS; by right).
    by destruct (p.1 =? k). }
  split_and!.
  - unfold s. rewrite sorted_by_key_Permutation. by rewrite Hks.
  - unfold s. pose proof (sorted_by_key_sorted ks) as Hs.
    induction Hs as [|p S HS IH Hp]; [constructor|]. cbn.
    constructor.
    + apply IH. intros q Hq. apply Hkey. by right.
    + apply Forall_fmap, Forall_forall. intros q Hq. cbn.
      rewrite Forall_forall in Hp. specialize (Hp q Hq).
      rewrite <- (Hkey p) by left. rewrite <- (Hkey q) by (by right). done.
  - intros k. unfold s. rewrite (Hfilter k _ Hkey), sorted_by_key_stable.
    rewrite <- Hfilter, Hks; [done|].
    intros p Hp. unfold ks in Hp. by apply list_elem_of_fmap in Hp as (a & -> & _).
Qed.

(** ** [GameMap.render] *)

Lemma is_shaped_true m : map_shaped m → is_shaped m = true.
Proof.
  intros (Ht & Hv & He). unfold is_shaped, has_shape.
  by rewrite !bool_decide_eq_true_2.
Qed.

Lemma lookup_zip {A B} (l : list A) (k : list B) (i : nat) :
  zip l k !! i = (x ← l !! i; y ← k !! i; Some (x, y)).
Proof. apply lookup_zip_with. Qed.

(** A cell of the frame that [numpy.select] makes. *)
Lemma np_select_cell fog m frame (i j : nat) v e t :
  np_select fog m = Ok frame →
  (col ← gm_visible m !! i; col !! j) = Some v →
  (col ← gm_explored m !! i; col !! j) = Some e →
  (col ← gm_tiles m !! i; col !! j) = Some t →
  (col ← frame !! i; col !! j) = Some (select_cell fog v e t).
Proof.
  unfold np_select. destruct (is_shaped m); [|done]. intros [= <-] Hv He Ht.
  destruct (gm_visible m !! i) as [vcol|] eqn:Hvc; [|done].
  destruct (gm_explored m !! i) as [ecol|] eqn:Hec; [|done].
  destruct (gm_tiles m !! i) as [tcol|] eqn:Htc; [|done].
  cbn in Hv, He, Ht.
  rewrite lookup_zip_with, Hvc, lookup_zip, Hec, Htc. cbn.
  by rewrite lookup_zip_with, Hv, lookup_zip, He, Ht.
Qed.

Lemma slice_len_fits (n : Z) (c : nat) :
  0 ≤ n → (Z.to_nat n ≤ c)%nat → slice_len n c = Z.to_nat n.
Proof.
  intros Hn Hc. unfold slice_len.
  rewrite (proj2 (Z.ltb_ge n 0)) by lia. lia.
Qed.

(** The assignment to the slice, on a console that the map fits in. *)
Lemma blit_fits width height frame con :
  0 ≤ width → 0 ≤ height →
  (Z.to_nat width ≤ con_width con)%nat → (Z.to_nat height ≤ con_height con)%nat →
  blit width height frame con
  = Ok (mkConsole (con_width con) (con_height con)
          (imap (λ x col,
                   if (x <? Z.to_nat width)%nat
                   then imap (λ y old, if (y <? Z.to_nat height)%nat
                                       then frame_cell frame x y old
                                       else old) col
                   else col)
                (tiles_rgb con))
          (printed con)).
Proof.
  intros Hw Hh Hcw Hch. unfold blit.
  rewrite !slice_len_fits by done. unfold axis_fits. by rewrite !Nat.eqb_refl.
Qed.

(** The assignment to the slice, on a console that is too small. *)
Lemma blit_too_small width height frame con :
  0 ≤ width → 0 ≤ height →
  ((con_width con < Z.to_nat width)%nat ∧ width ≠ 1)
  ∨ ((con_height con < Z.to_nat height)%nat ∧ height ≠ 1) →
  blit width height frame con = Raise ValueError.
Proof.
  intros Hw Hh Hsmall. unfold blit, slice_len.
  rewrite (proj2 (Z.ltb_ge width 0)), (proj2 (Z.ltb_ge height 0)) by lia.
  unfold axis_fits.
  destruct Hsmall as [[Hlt Hne]|[Hlt Hne]].
  - rewrite (proj2 (Nat.eqb_neq (Z.to_nat width) _)) by lia.
    by rewrite (proj2 (Nat.eqb_neq (Z.to_nat width) 1)) by lia.
  - rewrite (proj2 (Nat.eqb_neq (Z.to_nat height) _)) by lia.
    rewrite (proj2 (Nat.eqb_neq (Z.to_nat height) 1)) by lia.
    by rewrite andb_false_r.
Qed.

Lemma console_shaped_column con i col :
  console_shaped con → tiles_rgb con !! i = Some col → length col = con_height con.
Proof.
  unfold console_shaped. intros H Hcol.
  assert (Hl : (length <$> tiles_rgb con) !! i = Some (length col))
    by (by rewrite list_lookup_fmap, Hcol).
  rewrite H in Hl. by apply lookup_replicate in Hl as [<- _].
Qed.

Lemma console_shaped_width con :
  console_shaped con → length (tiles_rgb con) = con_width con.
Proof.
  unfold console_shaped. intros H. apply (f_equal length) in H.
  by rewrite length_fmap, length_replicate in H.
Qed.

(** The loop over the sorted entities: what it prints when it returns,
    which entity stops it when it raises. *)
Lemma draw_entities_spec w m l con :
  match draw_entities w m l con with
  | (Ok _, con') =>
      con' = mkConsole (con_width con) (con_height con) (tiles_rgb con)
               (printed con ++ omap (glyph w) (List.filter (visible_at w m) l))
      ∧ ∀ a, a ∈ l →
          ∃ e v, get_entity w a = Ok e
                 ∧ grid_at (gm_visible m) (ent_x e) (ent_y e) = Ok v
  | (Raise ex, con') =>
      tiles_rgb con' = tiles_rgb con
      ∧ con_width con' = con_width con ∧ con_height con' = con_height con
      ∧ ∃ a, a ∈ l
             ∧ (get_entity w a = Raise ex
                ∨ ∃ e, get_entity w a = Ok e
                       ∧ grid_at (gm_visible m) (ent_x e) (ent_y e) = Raise ex)
  end.
Proof.
  revert con. induction l as [|a l IH]; intros con.
  - cbn. split; [|intros a Ha; by apply elem_of_nil in Ha].
    destruct con. cbn. by rewrite app_nil_r.
  - cbn [draw_entities List.filter]. unfold visible_at at 1, glyph.
    destruct (get_entity w a) as [e|ex] eqn:He; cbn.
    2:{ split_and!; try done. exists a. split; [left|by left]. }
    destruct (grid_at (gm_visible m) (ent_x e) (ent_y e)) as [v|ex] eqn:Hv; cbn.
    2:{ split_and!; try done. exists a. split; [left|]. right. by exists e. }
    specialize (IH (if v then console_print e con else con)).
    destruct (draw_entities w m l (if v then console_print e con else con))
      as [[[]|ex] con'].
    + destruct IH as [-> Hall]. split.
      * destruct v; cbn; [|done]. unfold glyph at 1. rewrite He. cbn.
        by rewrite <- app_assoc.
      * intros b [->|Hb]%elem_of_cons; [by exists e, v|by apply Hall].
    + destruct IH as (Ht & Hcw & Hch & b & Hb & Hfail).
      split_and!; [by destruct v|by destruct v|by destruct v|].
      exists b. split; [by right|done].
Qed.

(** The keys of the members: their tiers, when all members are entities. *)
Lemma keyed_spec value w l :
  match keyed value w l with
  | Ok ks => entities_only w l ∧ ks = (λ a, (tier_of value w a, a)) <$> l
  | Raise ex => ex = AttributeError ∧ ¬ entities_only w l
  end.
Proof.
  induction l as [|a l IH]; cbn [keyed].
  - split; [|done]. intros a Ha. by apply elem_of_nil in Ha.
  - unfold render_key.
    destruct (get_entity w a) as [e|ex] eqn:He; cbn.
    + destruct (keyed value w l) as [ks|ex]; cbn.
      * destruct IH as [Hl ->]. split.
        -- intros b [->|Hb]%elem_of_cons; [by exists e|by apply Hl].
        -- unfold tier_of at 2. by rewrite He.
      * destruct IH as [-> Hl]. split; [done|]. intros Hall. apply Hl.
        intros b Hb. apply Hall. by right.
    + split; [by eapply get_entity_error|]. intros Hall.
      destruct (Hall a) as [e He']; [left|congruence].
Qed.

(** [render] on a map of its size and a console that the map fits in. *)
Lemma render_run fog value w gm m con :
  get_map w gm = Ok m → map_sized m →
  (Z.to_nat (gm_width m) ≤ con_width con)%nat →
  (Z.to_nat (gm_height m) ≤ con_height con)%nat →
  ∃ frame con1,
    np_select fog m = Ok frame
    ∧ blit (gm_width m) (gm_height m) frame con = Ok con1
    ∧ printed con1 = printed con
    ∧ con_width con1 = con_width con ∧ con_height con1 = con_height con
    ∧ render fog value w gm con
      = match keyed value w (gm_entities m) with
        | Raise ex => (Raise ex, con1)
        | Ok ks => draw_entities w m ((sorted_by_key ks).*2) con1
        end.
Proof.
  intros Hm (Hw & Hh & Hshape) Hcw Hch.
  assert (Hsel : ∃ frame, np_select fog m = Ok frame).
  { unfold np_select. rewrite (is_shaped_true _ Hshape). by eexists. }
  destruct Hsel as [frame Hsel].
  pose proof (blit_fits _ _ frame _ Hw Hh Hcw Hch) as Hblit.
  eexists frame, _. split; [exact Hsel|]. split; [exact Hblit|].
  split_and!; try reflexivity.
  unfold render. rewrite Hm, Hsel. cbn [mbind result_bind]. by rewrite Hblit.
Qed.

Lemma np_index_error {A} (l : list A) i ex : np_index l i = Raise ex → ex = IndexError.
Proof.
  unfold np_index. destruct (_ && _); [|congruence].
  destruct (l !! _); congruence.
Qed.

Lemma grid_at_error {A} (g : list (list A)) x y ex :
  grid_at g x y = Raise ex → ex = IndexError.
Proof.
  unfold grid_at. destruct (np_index g x) as [col|ex'] eqn:Hc; cbn.
  - apply np_index_error.
  - intros [= <-]. by eapply np_index_error.
Qed.

Lemma np_index_in_range {A} (l : list A) (i : Z) :
  - Z.of_nat (length l) ≤ i < Z.of_nat (length l) →
  ∃ v, np_index l i = Ok v ∧ v ∈ l.
Proof.
  intros Hi. destruct (decide (i < 0)) as [Hneg|Hpos].
  - rewrite np_index_wraps by lia.
    destruct (np_index_Ok l (i + Z.of_nat (length l))) as (v & Hv & Hl); [lia|].
    exists v. split; [done|]. by eapply list_elem_of_lookup_2.
  - destruct (np_index_Ok l i) as (v & Hv & Hl); [lia|].
    exists v. split; [done|]. by eapply list_elem_of_lookup_2.
Qed.

Lemma np_index_off_range {A} (l : list A) (i : Z) :
  i < - Z.of_nat (length l) ∨ Z.of_nat (length l) ≤ i →
  np_index l i = Raise IndexError.
Proof.
  intros [Hi|Hi]; [|by apply np_index_beyond].
  unfold np_index. rewrite (proj2 (Z.ltb_lt i 0)) by lia.
  by rewrite (proj2 (Z.leb_gt 0 (i + Z.of_nat (length l)))) by lia.
Qed.

Lemma grid_shape_columns {A} width height (g : list (list A)) col :
  grid_shape width height g → col ∈ g → length col = Z.to_nat height.
Proof.
  intros Hg Hcol. apply list_elem_of_lookup_1 in Hcol as [i Hi].
  by eapply grid_shape_column.
Qed.

(** Indexing a grid of the map's shape: it answers inside the range that
    [numpy] wraps around, and raises [IndexError] outside. *)
Lemma grid_at_range {A} width height (g : list (list A)) x y :
  0 ≤ width → 0 ≤ height → grid_shape width height g →
  if decide ((- width ≤ x < width) ∧ (- height ≤ y < height))
  then ∃ v, grid_at g x y = Ok v
  else grid_at g x y = Raise IndexError.
Proof.
  intros Hw Hh Hg. pose proof (grid_shape_width _ _ _ Hg) as Hlen.
  unfold grid_at. destruct (decide _) as [[Hx Hy]|Hout].
  - destruct (np_index_in_range g x) as (col & -> & Hcol); [lia|]. cbn.
    pose proof (grid_shape_columns _ _ _ _ Hg Hcol) as Hc.
    destruct (np_index_in_range col y) as (v & -> & _); [lia|]. by exists v.
  - destruct (decide (- width ≤ x < width)) as [Hx|Hx].
    + destruct (np_index_in_range g x) as (col & -> & Hcol); [lia|]. cbn.
      pose proof (grid_shape_columns _ _ _ _ Hg Hcol) as Hc.
      apply np_index_off_range. lia.
    + rewrite np_index_off_range; [done|lia].
Qed.

Lemma blit_printed width height frame con con1 :
  blit width height frame con = Ok con1 →
  printed con1 = printed con
  ∧ con_width con1 = con_width con ∧ con_height con1 = con_height con.
Proof. unfold blit. destruct (_ && _); [|done]. by intros [= <-]. Qed.

(** Whatever happens after the assignment of the tile colours, the array of
    the console stays as the assignment left it. *)
Lemma render_keeps_tiles fog value w gm m con :
  get_map w gm = Ok m → map_sized m →
  (Z.to_nat (gm_width m) ≤ con_width con)%nat →
  (Z.to_nat (gm_height m) ≤ con_height con)%nat →
  ∃ frame,
    np_select fog m = Ok frame
    ∧ tiles_rgb (render fog value w gm con).2
      = imap (λ x col,
                if (x <? Z.to_nat (gm_width m))%nat
                then imap (λ y old, if (y <? Z.to_nat (gm_height m))%nat
                                    then frame_cell frame x y old
                                    else old) col
                else col)
             (tiles_rgb con)
    ∧ con_width (render fog value w gm con).2 = con_width con
    ∧ con_height (render fog value w gm con).2 = con_height con.
Proof.
  intros Hm Hsized Hcw Hch.
  destruct (render_run fog value w gm m con Hm Hsized Hcw Hch)
    as (frame & con1 & Hsel & Hblit & _ & _ & _ & Hrun).
  destruct Hsized as (Hw & Hh & _).
  rewrite (blit_fits _ _ _ _ Hw Hh Hcw Hch) in Hblit. injection Hblit as <-.
  exists frame. split; [done|]. rewrite Hrun.
  destruct (keyed value w (gm_entities m)) as [ks|ex]; [|done].
  match goal with |- context [draw_entities w m ?l ?c] =>
    pose proof (draw_entities_spec w m l c) as Hd;
    destruct (draw_entities w m l c) as [[[]|ex] con'] end.
  - cbn [snd]. by destruct Hd as [-> _].
  - cbn [snd]. destruct Hd as (Ht & Hcw' & Hch' & _). by rewrite Ht, Hcw', Hch'.
Qed.

Lemma imap_keeps_lengths {A} (F : nat → list A → list A) (l : list (list A)) :
  (∀ i col, length (F i col) = length col) →
  length <$> imap F l = length <$> l.
Proof.
  intros HF. apply list_eq. intros i.
  rewrite !list_lookup_fmap, list_lookup_imap.
  destruct (l !! i) as [col|]; [|done]. cbn. by rewrite HF.
Qed.

(** X19.  The colours [render] hands to the console.  On a console that
    the map fits in, every cell of the map gets the lit colour of its tile
    if the cell is visible, else the unlit colour if it has been explored,
    else the fog colour; the cells of the console outside the map keep
    their colour, and this holds however the drawing of the entities ends
    afterwards. *)
Theorem render_tile_colours fog value w gm m con :
  get_map w gm = Ok m → map_sized m → console_shaped con →
  (Z.to_nat (gm_width m) ≤ con_width con)%nat →
  (Z.to_nat (gm_height m) ≤ con_height con)%nat →
  (∀ x y v e t,
     in_bounds w gm x y = Ok true →
     grid_at (gm_visible m) x y = Ok v → grid_at (gm_explored m) x y = Ok e →
     grid_at (gm_tiles m) x y = Ok t →
     console_cell (render fog value w gm con).2 x y
     = Some (if v then lit t else if e then unlit t else fog))
  ∧ (∀ x y, 0 ≤ x → 0 ≤ y → in_bounds w gm x y = Ok false →
       console_cell (render fog value w gm con).2 x y = console_cell con x y)
  ∧ console_shaped (render fog value w gm con).2.
Proof.
  intros Hm Hsized Hcon Hcw Hch.
  destruct (render_keeps_tiles fog value w gm m con Hm Hsized Hcw Hch)
    as (frame & Hsel & Htiles & Hw' & Hh').
  destruct Hsized as (Hw & Hh & Ht & Hv & He).
  split_and!.
  - intros x y v e t Hin Hgv Hge Hgt.
    destruct (in_bounds_true _ _ _ _ _ Hm Hin) as [Hx Hy].
    destruct (grid_at_shaped _ _ _ x y Hv Hx Hy) as (v' & Hv1 & Hv2).
    destruct (grid_at_shaped _ _ _ x y He Hx Hy) as (e' & He1 & He2).
    destruct (grid_at_shaped _ _ _ x y Ht Hx Hy) as (t' & Ht1 & Ht2).
    assert (v' = v) by congruence. assert (e' = e) by congruence.
    assert (t' = t) by congruence. subst v' e' t'.
    pose proof (np_select_cell fog m frame _ _ v e t Hsel Hv2 He2 Ht2) as Hcell.
    unfold console_cell. rewrite Htiles, list_lookup_imap.
    destruct (tiles_rgb con !! Z.to_nat x) as [col|] eqn:Hcol.
    2:{ apply lookup_ge_None in Hcol. rewrite (console_shaped_width _ Hcon) in Hcol. lia. }
    cbn -[Nat.ltb]. rewrite (proj2 (Nat.ltb_lt _ _)) by lia. rewrite list_lookup_imap.
    destruct (col !! Z.to_nat y) as [old|] eqn:Hold.
    2:{ apply lookup_ge_None in Hold.
        rewrite (console_shaped_column _ _ _ Hcon Hcol) in Hold. lia. }
    cbn -[Nat.ltb]. rewrite (proj2 (Nat.ltb_lt _ _)) by lia.
    unfold frame_cell. by rewrite Hcell.
  - intros x y Hx Hy Hout. unfold in_bounds in Hout. rewrite Hm in Hout.
    cbn in Hout. injection Hout as Hout.
    unfold console_cell. rewrite Htiles, list_lookup_imap.
    destruct (tiles_rgb con !! Z.to_nat x) as [col|] eqn:Hcol; [|done]. cbn -[Nat.ltb].
    destruct (Z.to_nat x <? Z.to_nat (gm_width m))%nat eqn:Hxw; [|done].
    rewrite list_lookup_imap. destruct (col !! Z.to_nat y) as [old|]; [|done]. cbn -[Nat.ltb].
    destruct (Z.to_nat y <? Z.to_nat (gm_height m))%nat eqn:Hyh; [|done].
    apply Nat.ltb_lt in Hxw, Hyh.
    rewrite (proj2 (Z.leb_le 0 x)), (proj2 (Z.leb_le 0 y)) in Hout by done.
    rewrite (proj2 (Z.ltb_lt x _)), (proj2 (Z.ltb_lt y _)) in Hout by lia. done.
  - unfold console_shaped. rewrite Htiles, Hw', Hh'.
    rewrite imap_keeps_lengths; [done|].
    intros i col. destruct (i <? _)%nat; [|done]. by rewrite length_imap.
Qed.
(** The cellar with its columns 1 and 2 in view and column 0 seen before,
    on a blank console of 6 by 4 cells. *)
Lemma render_tile_colours_witness :
  console_cell (render fog_colour tier lit_cellar_world 1%nat blank_console).2 1 1
  = Some (200, 180, 50)
  ∧ console_cell (render fog_colour tier lit_cellar_world 1%nat blank_console).2 0 2
    = Some (50, 50, 150)
  ∧ console_cell (render fog_colour tier lit_cellar_world 1%nat blank_console).2 3 0
    = Some (16, 16, 16)
  ∧ console_cell (render fog_colour tier lit_cellar_world 1%nat blank_console).2 5 3
    = Some (0, 0, 0).
Proof.
  destruct (render_tile_colours fog_colour tier lit_cellar_world 1%nat _ blank_console
              eq_refl) as (Hin & Hout & _).
  - by split_and!.
  - reflexivity.
  - cbn. lia.
  - cbn. lia.
  - split_and!.
    + exact (Hin 1 1 true true floor_tile eq_refl eq_refl eq_refl eq_refl).
    + exact (Hin 0 2 false true floor_tile eq_refl eq_refl eq_refl eq_refl).
    + exact (Hin 3 0 false false floor_tile eq_refl eq_refl eq_refl eq_refl).
    + rewrite (Hout 5 3); [reflexivity|lia|lia|reflexivity].
Defined.

(** X20.  The entities [render] draws.  When [render] returns, it has
    printed the members of the entity set that stand on visible cells, each
    once, with its position, glyph and colour, and nothing else.  They are
    printed in ascending render order, so that of two printed entities the
    one of the lower tier is printed first and the other over it; entities
    of one tier are printed in the order in which the set iterates. *)
Theorem render_draws_in_order fog value w gm m con con' :
  get_map w gm = Ok m →
  render fog value w gm con = (Ok tt, con') →
  ∃ drawn,
    printed con' = printed con ++ omap (glyph w) drawn
    ∧ entities_only w drawn
    ∧ drawn ≡ₚ List.filter (visible_at w m) (gm_entities m)
    ∧ StronglySorted (λ a b, tier_of value w a ≤ tier_of value w b) drawn
    ∧ (∀ a b, a ∈ drawn → b ∈ drawn → tier_of value w a < tier_of value w b →
         ∃ l1 l2 l3, drawn = l1 ++ a :: l2 ++ b :: l3)
    ∧ (∀ k, List.filter (λ a, tier_of value w a =? k) drawn
            = List.filter (λ a, (tier_of value w a =? k) && visible_at w m a)
                          (gm_entities m)).
Proof.
  intros Hm. unfold render. rewrite Hm.
  destruct (np_select fog m) as [frame|ex]; cbn [mbind result_bind]; [|done].
  destruct (blit (gm_width m) (gm_height m) frame con) as [con1|ex] eqn:Hblit; [|done].
  destruct (blit_printed _ _ _ _ _ Hblit) as (Hp1 & _ & _).
  pose proof (keyed_spec value w (gm_entities m)) as Hk.
  destruct (keyed value w (gm_entities m)) as [ks|ex]; [|done].
  destruct Hk as [Hl ->].
  destruct (sorted_by_key_tiers (tier_of value w) (gm_entities m))
    as (Hperm & Hsorted & Hstable).
  set (s := (sorted_by_key ((λ a, (tier_of value w a, a)) <$> gm_entities m)).*2) in *.
  pose proof (draw_entities_spec w m s con1) as Hd.
  destruct (draw_entities w m s con1) as [[[]|ex] con2]; [|done].
  destruct Hd as [-> _]. intros [= <-]. cbn [printed]. rewrite Hp1.
  exists (List.filter (visible_at w m) s). split_and!.
  - done.
  - intros a Ha. apply list_elem_of_In, filter_In in Ha as [Ha _].
    apply Hl. rewrite <- Hperm. by apply list_elem_of_In.
  - by apply List_filter_Permutation.
  - by apply List_filter_sorted.
  - intros a b Ha Hb Hlt. eapply sorted_before; [|done|done|done].
    by apply List_filter_sorted.
  - intros k. rewrite List_filter_filter.
    trans (List.filter (visible_at w m)
             (List.filter (λ a, tier_of value w a =? k) s)).
    { rewrite List_filter_filter. apply filter_ext_bool. intros a. apply andb_comm. }
    rewrite Hstable, List_filter_filter. apply filter_ext_bool.
    intros a. apply andb_comm.
Qed.

(** In the lit cellar the set iterates to the player before the potion on
    its cell; the potion and the scroll are printed first, the player over
    the potion, and the orc, out of view, is not printed. *)
Lemma render_draws_in_order_witness :
  ∃ con',
    render fog_colour tier lit_cellar_world 1%nat blank_console = (Ok tt, con')
    ∧ printed con' = [mkPrint 1 1 "!" (127, 0, 255); mkPrint 2 1 "~" (127, 0, 255);
                      mkPrint 1 1 "@" (255, 255, 255)]
    ∧ ∃ drawn, printed con' = omap (glyph lit_cellar_world) drawn
               ∧ ∃ l1 l2 l3, drawn = l1 ++ 7%nat :: l2 ++ 4%nat :: l3.
Proof.
  eexists. split; [vm_compute; reflexivity|]. split; [reflexivity|].
  destruct (render_draws_in_order fog_colour tier lit_cellar_world 1%nat _ blank_console
              _ eq_refl eq_refl)
    as (drawn & Hprinted & _ & Hperm & _ & Hbefore & _).
  exists drawn. split; [exact Hprinted|].
  apply Hbefore.
  - rewrite Hperm. vm_compute. apply elem_of_cons. right. by left.
  - rewrite Hperm. vm_compute. by left.
  - vm_compute. reflexivity.
Defined.
(** X21.  When [render] raises.  A console smaller than the map (but for a
    side of length one) makes the assignment of the colours raise
    [ValueError], the console untouched.  On a console that the map fits
    in, [render] returns if every member of the entity set stands inside
    the range in which the grid can be indexed, from minus the size up to
    the size; a member outside that range, as [place] and [move] can leave
    one, makes it raise [IndexError], whether the member would be visible
    or not. *)
Theorem render_raises fog value w gm m con :
  get_map w gm = Ok m → map_sized m →
  ((con_width con < Z.to_nat (gm_width m))%nat ∧ gm_width m ≠ 1
   ∨ (con_height con < Z.to_nat (gm_height m))%nat ∧ gm_height m ≠ 1 →
   render fog value w gm con = (Raise ValueError, con))
  ∧ ((Z.to_nat (gm_width m) ≤ con_width con)%nat →
     (Z.to_nat (gm_height m) ≤ con_height con)%nat →
     entities_only w (gm_entities m) →
     ((∀ a e, a ∈ gm_entities m → get_entity w a = Ok e →
         (- gm_width m ≤ ent_x e < gm_width m)
         ∧ (- gm_height m ≤ ent_y e < gm_height m)) →
      ∃ con', render fog value w gm con = (Ok tt, con'))
     ∧ (∀ a e, a ∈ gm_entities m → get_entity w a = Ok e →
          ¬ ((- gm_width m ≤ ent_x e < gm_width m)
             ∧ (- gm_height m ≤ ent_y e < gm_height m)) →
          ∃ con', render fog value w gm con = (Raise IndexError, con'))).
Proof.
  intros Hm Hsized. split.
  - intros Hsmall. destruct Hsized as (Hw & Hh & Hshape).
    unfold render. rewrite Hm. unfold np_select. rewrite (is_shaped_true _ Hshape).
    cbn [mbind result_bind]. by rewrite blit_too_small.
  - intros Hcw Hch Hl.
    destruct (render_run fog value w gm m con Hm Hsized Hcw Hch)
      as (frame & con1 & _ & _ & _ & _ & _ & ->).
    destruct Hsized as (Hw & Hh & _ & Hv & _).
    pose proof (keyed_spec value w (gm_entities m)) as Hk.
    destruct (keyed value w (gm_entities m)) as [ks|ex]; [|by destruct Hk as [_ []]].
    destruct Hk as [_ ->].
    destruct (sorted_by_key_tiers (tier_of value w) (gm_entities m)) as (Hperm & _ & _).
    set (s := (sorted_by_key ((λ a, (tier_of value w a, a)) <$> gm_entities m)).*2) in *.
    pose proof (draw_entities_spec w m s con1) as Hd.
    destruct (draw_entities w m s con1) as [[[]|ex] con2].
    + split; [by eexists|]. intros a e Ha He Hout. exfalso.
      destruct Hd as [_ Hall]. destruct (Hall a) as (e' & v & He' & Hgrid).
      { by rewrite Hperm. }
      assert (e' = e) by congruence. subst e'.
      pose proof (grid_at_range _ _ _ (ent_x e) (ent_y e) Hw Hh Hv) as Hr.
      destruct (decide _) in Hr; [done|congruence].
    + destruct Hd as (_ & _ & _ & b & Hb & Hfail). rewrite Hperm in Hb.
      destruct (Hl b Hb) as [eb Heb].
      destruct Hfail as [Hfail|(e' & He' & Hgrid)]; [congruence|].
      assert (e' = eb) by congruence. subst e'.
      pose proof (grid_at_error _ _ _ _ Hgrid) as ->.
      split; [|by eexists]. intros Hall. exfalso.
      pose proof (grid_at_range _ _ _ (ent_x eb) (ent_y eb) Hw Hh Hv) as Hr.
      destruct (decide _) as [_|Hout] in Hr.
      * destruct Hr as [v Hr]. congruence.
      * apply Hout. by eapply Hall.
Qed.

(** The lit cellar is drawn on the blank console, not on one of 3 by 3
    cells; with the scroll moved to column 4 it is not drawn at all. *)
Lemma render_raises_witness :
  (∃ con', render fog_colour tier lit_cellar_world 1%nat blank_console = (Ok tt, con'))
  ∧ render fog_colour tier lit_cellar_world 1%nat
           (mkConsole 3 3 (replicate 3 (replicate 3 (0, 0, 0))) [])
    = (Raise ValueError, mkConsole 3 3 (replicate 3 (replicate 3 (0, 0, 0))) [])
  ∧ ∃ con', render fog_colour tier (exec (move 9%nat 2 0) lit_cellar_world) 1%nat
                   blank_console = (Raise IndexError, con').
Proof.
  split_and!.
  - destruct (render_raises fog_colour tier lit_cellar_world 1%nat _ blank_console eq_refl)
      as [_ Hfits]; [by split_and!|].
    destruct Hfits as [Hok _]; [cbn; lia|cbn; lia| |].
    + intros a Ha. cbn in Ha. each_member Ha; eexists; reflexivity.
    + apply Hok. intros a e Ha He. cbn in Ha.
      each_member Ha; injection He as <-; cbn; lia.
  - destruct (render_raises fog_colour tier lit_cellar_world 1%nat _
                (mkConsole 3 3 (replicate 3 (replicate 3 (0, 0, 0))) []) eq_refl)
      as [Hsmall _]; [by split_and!|].
    apply Hsmall. left. cbn. split; [lia|done].
  - destruct (render_raises fog_colour tier (exec (move 9%nat 2 0) lit_cellar_world)
                1%nat _ blank_console eq_refl)
      as [_ Hfits]; [by split_and!|].
    destruct Hfits as [_ Hoff]; [cbn; lia|cbn; lia| |].
    + intros a Ha. cbn in Ha. each_member Ha; eexists; reflexivity.
    + eapply (Hoff 9%nat _); [|reflexivity|].
      * cbn. do 2 (apply elem_of_cons; right). by left.
      * cbn. lia.
Defined.

(** ** [GameMap.__init__] *)

Lemma elem_of_set_of_acc (l s : list nat) a :
  a ∈ foldl (λ s a, set_add a s) s l ↔ a ∈ s ∨ a ∈ l.
Proof.
  revert s. induction l as [|b l IH]; intros s; cbn.
  - split; [by left|]. intros [?|H]; [done|by apply elem_of_nil in H].
  - rewrite IH, elem_of_set_add, elem_of_cons. tauto.
Qed.

Lemma NoDup_set_add a s : NoDup s → NoDup (set_add a s).
Proof.
  intros Hs. unfold set_add, mem. case_bool_decide as Hin; [done|].
  apply NoDup_app. split_and!; [done| |apply NoDup_singleton].
  intros b Hb Hb'. apply list_elem_of_singleton in Hb'. by subst.
Qed.

Lemma NoDup_set_of_acc (l s : list nat) :
  NoDup s → NoDup (foldl (λ s a, set_add a s) s l).
Proof.
  revert s. induction l as [|b l IH]; intros s Hs; cbn; [done|].
  by apply IH, NoDup_set_add.
Qed.

Lemma grid_at_replicate {A} width height (v : A) x y :
  0 ≤ x < width → 0 ≤ y < height →
  grid_at (replicate (Z.to_nat width) (replicate (Z.to_nat height) v)) x y = Ok v.
Proof.
  intros Hx Hy.
  destruct (grid_at_shaped width height _ x y (grid_shape_replicate width height v) Hx Hy)
    as (v' & -> & Hl). f_equal.
  destruct (replicate _ _ !! Z.to_nat x) as [col|] eqn:Hcol; [|done]. cbn in Hl.
  apply lookup_replicate in Hcol as [-> _].
  by apply lookup_replicate in Hl as [-> _].
Qed.

(** X22.  [GameMap.__init__] with sizes that are not negative returns a new
    map of that size for the engine: every cell inside the bounds holds the
    wall tile and is neither visible nor explored, and the entity set holds
    the given entities, each once.  No object that existed is changed: the
    entities are not told their owner, the engine is not told its map.  A
    negative size raises [ValueError] and makes no object. *)
Theorem GameMap_init_fresh wall engine width height entities w :
  (0 ≤ width → 0 ≤ height →
   ∃ w' m,
     GameMap_init wall engine width height entities w = (Ok (length (heap w)), w')
     ∧ heap w !! length (heap w) = None
     ∧ get_map w' (length (heap w)) = Ok m
     ∧ gm_engine m = engine ∧ gm_width m = width ∧ gm_height m = height
     ∧ NoDup (gm_entities m)
     ∧ (∀ a, a ∈ gm_entities m ↔ a ∈ entities)
     ∧ (∀ x y, in_bounds w' (length (heap w)) x y = Ok true →
          grid_at (gm_tiles m) x y = Ok wall
          ∧ grid_at (gm_visible m) x y = Ok false
          ∧ grid_at (gm_explored m) x y = Ok false)
     ∧ (∀ a o, heap w !! a = Some o → heap w' !! a = Some o))
  ∧ (width < 0 ∨ height < 0 →
     GameMap_init wall engine width height entities w = (Raise ValueError, w)).
Proof.
  split.
  - intros Hw Hh. unfold GameMap_init. rewrite !run_bind. unfold read, np_full.
    rewrite (proj2 (Z.ltb_ge width 0)), (proj2 (Z.ltb_ge height 0)) by done.
    cbn [orb]. rewrite !run_bind, alloc_run.
    set (m := mkGameMap engine width height (set_of entities) _ _ _).
    assert (Hm : get_map (set_heap (heap w ++ [OGameMap m]) w) (length (heap w)) = Ok m).
    { apply get_map_Ok. by rewrite lookup_set_heap_first. }
    exists (set_heap (heap w ++ [OGameMap m]) w), m. split_and!; try done.
    + by apply lookup_ge_None.
    + apply NoDup_set_of_acc, NoDup_nil_2.
    + intros a. unfold m, set_of. cbn. rewrite elem_of_set_of_acc.
      split; [intros [H|H]; [by apply elem_of_nil in H|done]|by right].
    + intros x y Hin. destruct (in_bounds_true _ _ _ _ _ Hm Hin) as [Hx Hy].
      cbn in Hx, Hy. unfold m. cbn. by rewrite !grid_at_replicate.
    + intros a o Ha. rewrite lookup_set_heap_old; [done|]. by eapply allocated.
  - intros Hneg. unfold GameMap_init. rewrite !run_bind. unfold read, np_full.
    assert ((width <? 0) || (height <? 0) = true) as ->; [|done].
    apply orb_true_iff. destruct Hneg; [left|right]; by apply Z.ltb_lt.
Qed.

(** A third map for the two-maps scene, handed the stairs twice and the
    chest. *)
Lemma GameMap_init_fresh_witness :
  ∃ w' m,
    GameMap_init wall_tile 0%nat 2 2 [1; 4; 1]%nat two_maps_world = (Ok 5%nat, w')
    ∧ get_map w' 5%nat = Ok m
    ∧ gm_entities m = [1; 4]%nat
    ∧ get_entity w' 1%nat = get_entity two_maps_world 1%nat
    ∧ GameMap_init wall_tile 0%nat (-1) 2 [] two_maps_world
      = (Raise ValueError, two_maps_world).
Proof.
  destruct (GameMap_init_fresh wall_tile 0%nat 2 2 [1; 4; 1]%nat two_maps_world)
    as [Hok _].
  destruct Hok as (w' & m & Hrun & _ & Hm & _ & _ & _ & _ & _ & _ & Hframe); [lia|lia|].
  exists w', m. split; [exact Hrun|]. split; [exact Hm|].
  split_and!.
  - vm_compute in Hrun. injection Hrun as <-. by injection Hm as <-.
  - unfold get_entity at 1. by rewrite (Hframe 1%nat _ eq_refl).
  - destruct (GameMap_init_fresh wall_tile 0%nat (-1) 2 [] two_maps_world) as [_ Hneg].
    apply Hneg. left. lia.
Defined.

(** ** The queries together *)

(** X23.  A cell on which [get_actor_at_location] finds an actor is never
    reported free.  In every world that the constructors and methods of
    these files and the writes of their callers to the grids and the entity
    sets reach, from the empty store or from any store in which the actors
    block, [get_blocking_entity_at_location] answers there with a blocking
    member of the set. *)
Theorem found_actor_blocks_its_cell w0 w gm m x y a :
  actors_block w0 → rtc step w0 w →
  get_map w gm = Ok m → entities_only w (gm_entities m) →
  get_actor_at_location w gm x y = Ok (Some a) →
  blocks_at w x y a = true
  ∧ ∃ b, get_blocking_entity_at_location w gm x y = Ok (Some b)
         ∧ b ∈ gm_entities m ∧ blocks_at w x y b = true.
Proof.
  intros Hw0 Hrtc Hm Hl Hfound.
  pose proof (rtc_step_actors_block _ _ Hw0 Hrtc) as Hreach.
  rewrite (get_actor_at_location_first _ _ _ _ _ Hm) in Hfound.
  injection Hfound as Hfound.
  apply head_filter_Some in Hfound as (l1 & l2 & Hsplit & _ & Hliving).
  assert (Ha : a ∈ gm_entities m).
  { rewrite Hsplit. apply elem_of_app. right. by left. }
  assert (Hblocks : blocks_at w x y a = true).
  { unfold living_at in Hliving. unfold blocks_at.
    destruct (get_entity w a) as [e|] eqn:He; [|done].
    apply andb_prop in Hliving as [[[Hact _]%andb_prop Hx]%andb_prop Hy].
    by rewrite (Hreach _ _ He Hact), Hx, Hy. }
  split; [done|].
  destruct (head_filter_elem _ _ _ Ha Hblocks) as [b Hb].
  exists b. unfold get_blocking_entity_at_location. rewrite Hm. cbn.
  rewrite (blocking_scan_first _ _ _ _ Hl), Hb. split; [done|].
  apply head_filter_Some in Hb as (k1 & k2 & Hk & _ & Hbb).
  split; [|done]. rewrite Hk. apply elem_of_app. right. by left.
Qed.

(** The player's cell in the lit cellar with its two walls, reached from the
    empty store. *)
Lemma found_actor_blocks_its_cell_witness :
  get_actor_at_location carved_cellar_world 1%nat 1 1 = Ok (Some 4%nat)
  ∧ tile_walkable carved_cellar_world 1%nat 3 0 = Ok false
  ∧ (∃ m, get_map carved_cellar_world 1%nat = Ok m
          ∧ grid_at (gm_visible m) 1 1 = Ok true)
  ∧ ∃ b, get_blocking_entity_at_location carved_cellar_world 1%nat 1 1 = Ok (Some b)
         ∧ blocks_at carved_cellar_world 1 1 b = true.
Proof.
  split_and!; [reflexivity|reflexivity|by eexists|].
  destruct (found_actor_blocks_its_cell empty_world carved_cellar_world 1%nat _ 1 1 4%nat
              empty_world_actors_block carved_cellar_world_reachable eq_refl)
    as (_ & b & Hb & _ & Hbb).
  - intros a Ha. cbn in Ha. each_member Ha; eexists; reflexivity.
  - reflexivity.
  - by exists b.
Defined.

Lemma item_at_entity w x y a e :
  get_entity w a = Ok e →
  item_at w x y a = is_item e && (ent_x e =? x) && (ent_y e =? y).
Proof. intros He. unfold item_at. by rewrite He. Qed.

(** [place] on a map, when it returns: the members of the map's set other
    than the entity are those it had, and no other entity has changed. *)
Lemma place_Ok_members w self e x y gm m w' :
  get_entity w self = Ok e → get_map w gm = Ok m →
  place self x y (Some gm) w = (Ok tt, w') →
  ∃ m2, (∀ a, a ≠ self → (a ∈ gm_entities m2 ↔ a ∈ gm_entities m)) ∧
        get_map w' gm = Ok (set_entities (set_add self (gm_entities m2)) m2) ∧
        get_entity w' self = Ok (set_parent gm (set_y y (set_x x e))) ∧
        (∀ a, a ≠ self → get_entity w' a = get_entity w a).
Proof.
  intros He Hm. rewrite (place_unfold _ _ _ _ _ _ He). cbn zeta.
  set (w1 := positioned self x y e w).
  pose proof (positioned_entity _ _ x y _ He) as He1. fold w1 in He1.
  assert (Hm1 : get_map w1 gm = Ok m) by (unfold w1; by rewrite positioned_map).
  assert (Hother1 : ∀ a, a ≠ self → get_entity w1 a = get_entity w a).
  { intros a Hne. by apply get_entity_same_lookup, positioned_other. }
  assert (Hkeep : ∀ w'', adopt self gm w1 = (Ok tt, w'') →
    ∃ m2, (∀ a, a ≠ self → (a ∈ gm_entities m2 ↔ a ∈ gm_entities m)) ∧
          get_map w'' gm = Ok (set_entities (set_add self (gm_entities m2)) m2) ∧
          get_entity w'' self = Ok (set_parent gm (set_y y (set_x x e))) ∧
          (∀ a, a ≠ self → get_entity w'' a = get_entity w a)).
  { intros w''. rewrite (adopt_run _ _ _ _ _ He1 Hm1). intros [= <-].
    assert (Hm3 : get_map (store self (OEntity (set_parent gm (set_y y (set_x x e)))) w1) gm
                  = Ok m) by (by rewrite (get_map_store_entity _ _ _ _ _ He1)).
    exists m. split_and!; [done| | |].
    - by eapply get_map_store_eq.
    - rewrite (get_entity_store_map _ _ _ _ _ Hm3). by eapply get_entity_store_eq.
    - intros a Hne. rewrite (get_entity_store_map _ _ _ _ _ Hm3).
      rewrite get_entity_store_ne by done. auto. }
  destruct (ent_parent e) as [p|] eqn:Hp; [|apply Hkeep].
  destruct (Entity_gamemap w1 self) as [g'|ex] eqn:Hg; [|done].
  destruct (Nat.eqb_spec p g') as [<-|Hne]; [|apply Hkeep].
  destruct (Entity_gamemap_is_map _ _ _ Hg) as [mp Hmp].
  rewrite (remove_from_gamemap_run _ _ _ _ Hg Hmp).
  destruct (mem self (gm_entities mp)) eqn:Hmem; [|done].
  set (mp' := set_entities (filter (λ b, b ≠ self) (gm_entities mp)) mp).
  set (w2 := store p (OGameMap mp') w1).
  assert (He2 : get_entity w2 self = Ok (set_y y (set_x x e))).
  { unfold w2. by rewrite (get_entity_store_map _ _ _ _ _ Hmp). }
  assert (Hm2 : ∃ m2, get_map w2 gm = Ok m2 ∧
                      ∀ a, a ≠ self → (a ∈ gm_entities m2 ↔ a ∈ gm_entities m)).
  { destruct (decide (p = gm)) as [->|Hpg].
    - exists mp'. split; [by eapply get_map_store_eq|].
      intros a Ha. unfold mp'. cbn. rewrite elem_of_removed.
      assert (mp = m) by congruence. subst mp. tauto.
    - exists m. split; [|done]. unfold w2. by rewrite get_map_store_ne. }
  destruct Hm2 as (m2 & Hm2 & Hsub).
  rewrite (adopt_run _ _ _ _ _ He2 Hm2). intros [= <-].
  assert (Hm3 : get_map (store self (OEntity (set_parent gm (set_y y (set_x x e)))) w2) gm
                = Ok m2) by (by rewrite (get_map_store_entity _ _ _ _ _ He2)).
  exists m2. split_and!; [done| | |].
  - by eapply get_map_store_eq.
  - rewrite (get_entity_store_map _ _ _ _ _ Hm3). by eapply get_entity_store_eq.
  - intros a Hne. rewrite (get_entity_store_map _ _ _ _ _ Hm3).
    rewrite get_entity_store_ne by done. unfold w2.
    rewrite (get_entity_store_map _ _ _ _ _ Hmp). auto.
Qed.

(** X24.  An item that [place] has put on a cell of a map is among the
    items that [get_items_at_location] returns for that cell, and the other
    items returned are the items of the map that lay on the cell before. *)
Theorem place_then_get_items_at_location w self e x y gm m w' :
  get_entity w self = Ok e → is_item e = true → get_map w gm = Ok m →
  place self x y (Some gm) w = (Ok tt, w') →
  ∃ l, get_items_at_location w' gm x y = Ok l
       ∧ self ∈ l
       ∧ ∀ a, a ≠ self → (a ∈ l ↔ a ∈ gm_entities m ∧ item_at w x y a = true).
Proof.
  intros He Hitem Hm Hplace.
  destruct (place_Ok_members _ _ _ _ _ _ _ _ He Hm Hplace)
    as (m2 & Hsame & Hm' & He' & Hothers).
  assert (Hself : item_at w' x y self = true).
  { rewrite (item_at_entity _ _ _ _ _ He').
    change (is_item (set_parent gm (set_y y (set_x x e)))) with (is_item e).
    rewrite Hitem. cbn [ent_x ent_y set_parent set_y]. by rewrite !Z.eqb_refl. }
  assert (Hrest : ∀ a, a ≠ self → item_at w' x y a = item_at w x y a).
  { intros a Ha. unfold item_at. by rewrite Hothers. }
  eexists. split.
  { unfold get_items_at_location, items. rewrite Hm'. cbn. apply item_scan_filter. }
  split.
  - apply list_elem_of_In, filter_In. split; [|done].
    apply list_elem_of_In, elem_of_set_add. by right.
  - intros a Ha. rewrite list_elem_of_In, filter_In, <- list_elem_of_In.
    rewrite elem_of_set_add, (Hrest a Ha), <- (Hsame a Ha). tauto.
Qed.

(** The scroll of the cellar, put on the player's cell beside the potion. *)
Lemma place_then_get_items_at_location_witness :
  ∃ l, get_items_at_location (exec (place 9%nat 1 1 (Some 1%nat)) cellar_world)
                             1%nat 1 1 = Ok l
       ∧ 9%nat ∈ l ∧ 7%nat ∈ l ∧ 4%nat ∉ l.
Proof.
  destruct (place_then_get_items_at_location cellar_world 9%nat _ 1 1 1%nat _
              (exec (place 9%nat 1 1 (Some 1%nat)) cellar_world)
              eq_refl eq_refl eq_refl eq_refl)
    as (l & Hl & Hself & Hrest).
  exists l. split; [exact Hl|]. split; [exact Hself|].
  split.
  - apply Hrest; [done|]. split; [|reflexivity].
    cbn. apply elem_of_cons. right. by left.
  - intros Hin. apply Hrest in Hin as [_ Hat]; [|done]. discriminate Hat.
Defined.

(** X25.  [copy.deepcopy(self)] follows the template's [parent].  When the
    template is owned by a map, [spawn] copies that map as well, and with
    it every entity in its set: besides the clone the store gains a copy of
    the owner's map, of the same size and tiles, whose set holds the clone
    where the owner's set holds the template, and a copy of each other
    member. *)
Theorem spawn_copies_owner_map w self e p mp gm m x y :
  get_entity w self = Ok e → ent_parent e = Some p → get_map w p = Ok mp →
  get_map w gm = Ok m →
  let n := length (heap w) in
  ∃ w' p' mp',
    spawn self gm x y w = (Ok n, w')
    ∧ (n < p')%nat ∧ get_map w' p' = Ok mp'
    ∧ gm_width mp' = gm_width mp ∧ gm_height mp' = gm_height mp
    ∧ gm_tiles mp' = gm_tiles mp
    ∧ length (gm_entities mp') = length (gm_entities mp)
    ∧ (self ∈ gm_entities mp → n ∈ gm_entities mp')
    ∧ (∀ a ea, a ∈ gm_entities mp → a ≠ self → get_entity w a = Ok ea →
         ∃ a' ea', (n < a')%nat ∧ a' ∈ gm_entities mp'
                   ∧ get_entity w' a' = Ok ea'
                   ∧ ent_name ea' = ent_name ea ∧ ent_x ea' = ent_x ea
                   ∧ ent_y ea' = ent_y ea).
Proof.
  intros He Hp Hmp Hm n.
  pose proof (spawn_run _ _ _ _ _ x y He Hm) as Hrun. cbn zeta in Hrun. fold n in Hrun.
  set (R := reachable_from (heap w) self) in *.
  set (e1 := rename_entity (memo R n) e) in *.
  set (w1 := set_heap (heap w ++ copies (heap w) R) w) in *.
  set (e3 := set_parent gm (set_y y (set_x x e1))) in *.
  set (w4 := store n (OEntity e3)
               (store n (OEntity (set_y y (set_x x e1)))
                  (store n (OEntity (set_x x e1)) w1))) in *.
  set (w' := store gm (OGameMap (set_entities (set_add n (gm_entities m)) m)) w4) in *.
  apply get_entity_Ok in He as Hs. apply get_map_Ok in Hm as Hg.
  apply get_map_Ok in Hmp as Hmp'.
  pose proof (allocated _ _ _ Hs) as Hsn. pose proof (allocated _ _ _ Hg) as Hgn.
  pose proof (allocated _ _ _ Hmp') as Hpn. fold n in Hsn, Hgn, Hpn.
  assert (Hnew : ∀ i, heap w' !! (n + S i)%nat = copies (heap w) R !! S i).
  { intros i. unfold w', w4. rewrite !lookup_store_ne by lia.
    unfold w1, n. apply lookup_set_heap_new. }
  destruct (reachable_from_head (heap w) self) as [tl HR]. fold R in HR.
  assert (Hself : self ∈ R) by (rewrite HR; by left).
  assert (Hmemo_self : memo R n self = n) by (rewrite HR; apply memo_head).
  assert (HpR : p ∈ R).
  { apply (reachable_from_closed (heap w) self Hsn self p); [done| |done].
    rewrite (refs_at_lookup _ _ _ Hs). cbn [refs]. apply elem_of_app. left.
    rewrite Hp. by left. }
  destruct (memo_reached R n p HpR) as (i & Hi & Hmemo).
  destruct i as [|i].
  { rewrite HR in Hi. injection Hi as ->. congruence. }
  exists w', (n + S i)%nat.
  eexists (mkGameMap (memo R n (gm_engine mp)) (gm_width mp) (gm_height mp)
                     (memo R n <$> gm_entities mp)
                     (gm_tiles mp) (gm_visible mp) (gm_explored mp)).
  split_and!; try done.
  - lia.
  - apply get_map_Ok. rewrite Hnew, (copies_lookup _ _ _ Hsn). fold R. rewrite Hi. cbn.
    by rewrite Hmp'.
  - cbn. by rewrite length_fmap.
  - intros Hin. cbn. apply list_elem_of_fmap. exists self. by rewrite Hmemo_self.
  - intros a ea Ha Hne Hea. apply get_entity_Ok in Hea as Hea'.
    pose proof (allocated _ _ _ Hea') as Han. fold n in Han.
    assert (HaR : a ∈ R).
    { apply (reachable_from_closed (heap w) self Hsn p a); [done| |done].
      rewrite (refs_at_lookup _ _ _ Hmp'). cbn [refs]. by right. }
    destruct (memo_reached R n a HaR) as (j & Hj & Hmemo_a).
    destruct j as [|j].
    { rewrite HR in Hj. injection Hj as ->. congruence. }
    exists (memo R n a), (rename_entity (memo R n) ea). split_and!; try done.
    + lia.
    + cbn. by apply list_elem_of_fmap_2.
    + apply get_entity_Ok. rewrite Hmemo_a, Hnew, (copies_lookup _ _ _ Hsn). fold R.
      rewrite Hj. cbn. by rewrite Hea'.
Qed.

(** The orc of the cellar as a template: its map and the player on that
    map are copied with it. *)
Lemma spawn_copies_owner_map_witness :
  ∃ w' p' mp',
    spawn 12%nat 1%nat 0 0 cellar_world = (Ok 14%nat, w')
    ∧ (14 < p')%nat ∧ get_map w' p' = Ok mp'
    ∧ gm_width mp' = 4 ∧ length (gm_entities mp') = 4%nat
    ∧ 14%nat ∈ gm_entities mp'
    ∧ ∃ a' ea', (14 < a')%nat ∧ a' ∈ gm_entities mp'
                ∧ get_entity w' a' = Ok ea' ∧ ent_name ea' = "Player".
Proof.
  destruct (spawn_copies_owner_map cellar_world 12%nat _ 1%nat _ 1%nat _ 0 0
              eq_refl eq_refl eq_refl eq_refl)
    as (w' & p' & mp' & Hrun & Hlt & Hmp' & Hw & _ & _ & Hlen & Hclone & Hrest).
  exists w', p', mp'. split_and!; try done.
  - apply Hclone. cbn. do 3 (apply elem_of_cons; right). by left.
  - edestruct (Hrest 4%nat) as (a' & ea' & Ha' & Hin & Hea' & Hname & _);
      [by left|done|reflexivity|].
    by exists a', ea'.
Defined.
